(** * Classical support code of the Shor and Simon drivers (jclapis/qsfe)

    A shallow embedding of the classical arithmetic and GF(2) linear
    algebra of the repository, one module per Python source file, followed
    by the properties proved about it.

    Python integers are unbounded, so they are [Z].  Python's [//] and [%]
    round towards minus infinity, exactly as [Z.div] and [Z.modulo] do; the
    only difference is a zero divisor, where Python raises
    [ZeroDivisionError]: every division whose divisor can be zero is
    guarded below.  Python lists are [list].  A Python float enters in
    two places: the quotient that [run_shor] returns for an even number
    is the integer it is equal to, and the success chance of the Simon
    driver is the rational number it is equal to.  The external quantum
    simulator is replaced by the sequence of measurement results it hands
    to the classical code, except for the oracles of the Simon tests run
    on a classical input, where it is replaced by the gate-by-gate
    evaluation of the X, CNOT and CCNOT gates they are made of. *)

From Stdlib Require Import ZArith Znumtheory Lia Permutation.
From Stdlib Require QArith_base.
From stdpp Require Import list.
From Equations Require Import Equations.

Local Open Scope Z_scope.

(** ** Python exceptions as an error monad *)

Inductive exception : Type :=
  | ZeroDivisionError
  | ValueError_not_coprime        (* "{a} and {modulus} must be co-prime." *)
  | ValueError_modulus            (* "Modulus {modulus} must be positive." *)
  | ValueError_pow                (* three-argument pow: zero modulus, base
                                     not invertible *)
  | OverflowError                 (* "integer division result too large for
                                     a float" *)
  | IndexError
  | AssertionError                (* unittest's self.fail and assertEqual *)
  | AssertionError_chance.        (* self.fail("Desired success chance must
                                     be at least 0.5 and less than 1.") *)

Inductive result (A : Type) : Type :=
  | Ok (a : A)
  | Raise (e : exception).
Arguments Ok {A} a.
Arguments Raise {A} e.

#[global] Instance result_ret : MRet result := fun A a => Ok a.
#[global] Instance result_bind : MBind result := fun A B f m =>
  match m with
  | Ok a => f a
  | Raise e => Raise e
  end.

(** [a // b] *)
Definition floordiv (a b : Z) : result Z :=
  if b =? 0 then Raise ZeroDivisionError else Ok (a / b).

(** [pow(base, exp, mod)] with three arguments.  A zero modulus raises
    [ValueError].  With a negative exponent the result is the power of
    the inverse of the base modulo [mod], and [ValueError] if the base
    has none (Python 3.8 and later; earlier interpreters raise
    [ValueError] for every negative exponent).  The result has the sign
    of the modulus, as [%] does. *)
Definition pow (base exp modulus : Z) : result Z :=
  if modulus =? 0 then Raise ValueError_pow
  else if exp <? 0 then
    if Z.gcd base modulus =? 1
    then Ok (Z.invmod base modulus ^ (- exp) mod modulus)
    else Raise ValueError_pow
  else Ok (base ^ exp mod modulus).

(** [a / b] of two integers is the float nearest to the quotient (ties
    go to the even mantissa), and [OverflowError] if that is beyond the
    largest float.  [float_of_int z] is that float for an integer
    quotient [z], given by its value, which is again an integer. *)
Definition round_to_53_bits (m : Z) : Z :=
  let shift := Z.log2 m - 52 in
  if shift <=? 0 then m
  else
    let mantissa := Z.shiftr m shift in
    let rest := m - Z.shiftl mantissa shift in
    let half := Z.shiftl 1 (shift - 1) in
    let mantissa :=
      if (rest >? half) || ((rest =? half) && Z.odd mantissa)
      then mantissa + 1 else mantissa in
    Z.shiftl mantissa shift.

Definition float_of_int (z : Z) : result Z :=
  let value := round_to_53_bits (Z.abs z) in
  if value >=? 2 ^ 1024 then Raise OverflowError
  else Ok (Z.sgn z * value).

(** ** Forest/ForestNonOracles/shor_math.py: classical math functions *)

Module ShorMath.

(** The recursion is on [r_2], whose absolute value strictly decreases
    ([r_1 - quotient * r_2] is [r_1 % r_2]); the division is only reached
    with [r_2 <> 0]. *)
Equations? gcd_recursion (sign_a sign_b : Z) (r s t : Z * Z) : Z * Z
  by wf (Z.abs_nat (snd r)) lt :=
  gcd_recursion sign_a sign_b (r_1, r_2) (s_1, s_2) (t_1, t_2)
    with Z.eq_dec r_2 0 => {
    | left _ => (s_1 * sign_a, t_1 * sign_b)
    | right _ =>
        let quotient := r_1 / r_2 in
        gcd_recursion sign_a sign_b
          (r_2, r_1 - quotient * r_2)
          (s_2, s_1 - quotient * s_2)
          (t_2, t_1 - quotient * t_2) }.
Proof.
  subst quotient.
  assert (r_1 - r_1 / r_2 * r_2 = r_1 mod r_2) as ->
    by (rewrite Z.mod_eq by done; lia).
  destruct (Z_lt_le_dec 0 r_2).
  - pose proof (Z.mod_pos_bound r_1 r_2 ltac:(lia)). lia.
  - pose proof (Z.mod_neg_bound r_1 r_2 ltac:(lia)). lia.
Qed.

Definition sign (value : Z) : Z :=
  if value <? 0 then -1
  else if value =? 0 then 0
  else 1.

Definition extended_gcd (a b : Z) : Z * Z :=
  let sign_a := sign a in
  let sign_b := sign b in
  let s := (1, 0) in
  let t := (0, 1) in
  let r := (a * sign_a, b * sign_b) in
  gcd_recursion sign_a sign_b r s t.

Definition get_modulus_residue (value modulus : Z) : result Z :=
  if modulus <=? 0 then Raise ValueError_modulus
  else
    let r := value mod modulus in
    if r <? 0 then Ok (r + modulus) else Ok r.

Definition inverse_mod (a modulus : Z) : result Z :=
  let '(u, v) := extended_gcd a modulus in
  let gcd := u * a + v * modulus in
  if negb (gcd =? 1) then Raise ValueError_not_coprime
  else get_modulus_residue u modulus.

End ShorMath.

(** ** Cirq/CirqNonOracles/shor.py: convergents and the period finder *)

Module Shor.

(** The [while True] loop of [find_continued_fraction_convergent].  Its
    variables are the arguments: [P], [Q] are
    [coefficient_calculation_numerator] and [.._denominator], [n1], [n2]
    the convergent numerators one and two steps before, [d1], [d2] the
    denominators.  The first statement of the body divides by [Q]; the
    loop goes round again with [Q := P % Q], whose absolute value is
    smaller. *)
Equations? convergent_loop (denominator_threshold P Q n1 n2 d1 d2 : Z)
  : result (Z * Z) by wf (Z.abs_nat Q) lt :=
  convergent_loop denominator_threshold P Q n1 n2 d1 d2 with Z.eq_dec Q 0 => {
    | left _ => Raise ZeroDivisionError
    | right _ =>
        let coefficient := P / Q in
        let convergent_numerator := coefficient * n1 + n2 in
        let convergent_denominator := coefficient * d1 + d2 in
        let coefficient_calculation_remainder := P mod Q in
        if (convergent_denominator >? denominator_threshold)
           || (coefficient_calculation_remainder =? 0)
        then
          if convergent_denominator >? denominator_threshold
          then Ok (n1, d1)
          else Ok (convergent_numerator, convergent_denominator)
        else
          convergent_loop denominator_threshold
            Q coefficient_calculation_remainder
            convergent_numerator n1
            convergent_denominator d1 }.
Proof.
  subst coefficient_calculation_remainder.
  destruct (Z_lt_le_dec 0 Q).
  - pose proof (Z.mod_pos_bound P Q ltac:(lia)). lia.
  - pose proof (Z.mod_neg_bound P Q ltac:(lia)). lia.
Qed.

Definition find_continued_fraction_convergent
    (numerator denominator denominator_threshold : Z) : result (Z * Z) :=
  convergent_loop denominator_threshold numerator denominator 1 0 0 1.

(** The local variables of [find_period_of_modular_exponentiation]. *)
Record locals : Type := Locals {
  period : Z;
  remainder : Z;
  number_of_zero_measurements : Z
}.

(** What one pass through the body of [while remainder != 1] does. *)
Inductive step : Type :=
  | Next (st : locals)        (* back to the loop test *)
  | Return (value : Z)        (* the [return -1] inside the loop *)
  | Throw (e : exception).

(** One pass, given the pair [(X', N)] that [shor_quantum_subroutine]
    returned. *)
Definition loop_body (number_to_factor guess : Z) (st : locals)
    (measurement : Z * Z) : step :=
  let '(approximate_multiple_of_period_reciprocal, number_of_states) :=
    measurement in
  if approximate_multiple_of_period_reciprocal =? 0 then
    let zeros := number_of_zero_measurements st + 1 in
    if zeros =? 3 then Return (-1)
    else Next (Locals (period st) (remainder st) zeros)
  else
    match find_continued_fraction_convergent
            approximate_multiple_of_period_reciprocal number_of_states
            number_to_factor with
    | Raise e => Throw e
    | Ok (useless_numerator, factor_of_period) =>
        match floordiv (factor_of_period * period st)
                       (Z.gcd factor_of_period (period st)) with
        | Raise e => Throw e
        | Ok period' =>
            match pow guess period' number_to_factor with
            | Raise e => Throw e
            | Ok remainder' =>
                Next (Locals period' remainder' (number_of_zero_measurements st))
            end
        end
    end.

(** How a run of the loop over a given supply of measurement results
    ends. *)
Inductive outcome : Type :=
  | Finished (value : Z)      (* the function returned [value] *)
  | Raised (e : exception)
  | Pending (st : locals).    (* the supply is used up, the loop is still
                                 asking for a measurement *)

Fixpoint while_loop (number_to_factor guess : Z) (st : locals)
    (measurements : list (Z * Z)) : outcome :=
  if remainder st =? 1 then Finished (period st)
  else
    match measurements with
    | [] => Pending st
    | measurement :: rest =>
        match loop_body number_to_factor guess st measurement with
        | Next st' => while_loop number_to_factor guess st' rest
        | Return value => Finished value
        | Throw e => Raised e
        end
    end.

Definition find_period_of_modular_exponentiation
    (number_to_factor guess : Z) (measurements : list (Z * Z)) : outcome :=
  while_loop number_to_factor guess (Locals 1 0 0) measurements.

End Shor.

(** ** Forest/ForestNonOracles/shor_tests.py: the classical factoring loop *)

Module ShorTests.

Section RunShor.

(** [shor.find_period_of_modular_exponentiation(number_to_factor, guess)]
    as [run_shor] sees it: the value the call returns.  The loop calls it
    at most once per guess, so a function of the guess covers every run
    of the (probabilistic) period finder. *)
Variable find_period_of_modular_exponentiation : Z → Z → Z.

(** The body of [for guess in range(3, number_to_factor)], over the
    guesses still to be tried.  [continue] is the recursive call on
    [rest]. *)
Fixpoint guess_loop (number_to_factor : Z) (guesses : list Z)
  : result (Z * Z) :=
  match guesses with
  | [] => Ok (-1, -1)
  | guess :: rest =>
      let gcd := Z.gcd number_to_factor guess in
      if negb (gcd =? 1) then guess_loop number_to_factor rest
      else
        let period :=
          find_period_of_modular_exponentiation number_to_factor guess in
        if period =? -1 then guess_loop number_to_factor rest
        else if period mod 2 =? 1 then guess_loop number_to_factor rest
        else
          match pow guess (period / 2) number_to_factor with
          | Raise e => Raise e
          | Ok factor_term_base =>
              if (factor_term_base =? 1)
                 || (factor_term_base =? number_to_factor - 1)
              then guess_loop number_to_factor rest
              else
                let factor_term_a := factor_term_base + 1 in
                let factor_term_b := factor_term_base - 1 in
                let factor_a := Z.gcd number_to_factor factor_term_a in
                let factor_b := Z.gcd number_to_factor factor_term_b in
                if (factor_a <? 2) || (factor_a >? number_to_factor)
                then guess_loop number_to_factor rest
                else if (factor_b <? 2) || (factor_b >? number_to_factor)
                then guess_loop number_to_factor rest
                else if negb (factor_a * factor_b =? number_to_factor)
                then guess_loop number_to_factor rest
                else Ok (factor_a, factor_b)
          end
  end.

(** For an even number the source returns [(2, number_to_factor / 2)],
    whose second component is a Python float: the float nearest to the
    half, which is the half itself for every number below 2^54. *)
Definition run_shor (number_to_factor : Z) : result (Z * Z) :=
  if number_to_factor mod 2 =? 0 then
    half ← float_of_int (number_to_factor / 2);
    Ok (2, half)
  else guess_loop number_to_factor (seqZ 3 (number_to_factor - 3)).

(** [run_shor_test_on_number]: the test fails unless each returned
    factor is one of the two expected ones. *)
Definition run_shor_test_on_number
    (number_to_factor true_factor_a true_factor_b : Z) : result unit :=
  '(factor_a, factor_b) ← run_shor number_to_factor;
  if negb (factor_a =? true_factor_a) && negb (factor_a =? true_factor_b)
  then Raise AssertionError
  else if negb (factor_b =? true_factor_a) && negb (factor_b =? true_factor_b)
  then Raise AssertionError
  else Ok tt.

End RunShor.

End ShorTests.

(** ** Continued fractions: what a convergent is

    The reference notions the convergent search is measured against,
    following the background comment of
    [find_continued_fraction_convergent]: the coefficients [a_i] come from
    the Euclidean recurrence, and the [i]-th convergent is the finite
    continued fraction [a_0 + 1/(a_1 + 1/(... + 1/a_i))], evaluated here
    from the innermost term outwards. *)

Module ContinuedFraction.

Equations? coefficients (P Q : Z) : list Z by wf (Z.abs_nat Q) lt :=
  coefficients P Q with Z.eq_dec Q 0 => {
    | left _ => []
    | right _ => P / Q :: coefficients Q (P mod Q) }.
Proof.
  destruct (Z_lt_le_dec 0 Q).
  - pose proof (Z.mod_pos_bound P Q ltac:(lia)). lia.
  - pose proof (Z.mod_neg_bound P Q ltac:(lia)). lia.
Qed.

(** [value [a_0; ...; a_k]] is the pair (numerator, denominator) of
    [a_0 + 1/(a_1 + ... + 1/a_k)]; the empty fraction is 1/0. *)
Fixpoint value (l : list Z) : Z * Z :=
  match l with
  | [] => (1, 0)
  | a :: l' => let '(n, d) := value l' in (a * n + d, n)
  end.

Definition convergents (P Q : Z) : list (Z * Z) :=
  let cs := coefficients P Q in
  (λ i, value (take (S i) cs)) <$> seq 0 (length cs).

(** The two-term recurrence [n_i = a_i * n_(i-1) + n_(i-2)] (and the same
    for [d_i]) run over a list of coefficients. *)
Fixpoint forward (cs : list Z) (n1 n2 d1 d2 : Z) : list (Z * Z) :=
  match cs with
  | [] => []
  | a :: cs' =>
      let n := a * n1 + n2 in
      let d := a * d1 + d2 in
      (n, d) :: forward cs' n n1 d d1
  end.

(** Walk a sequence of convergents: stop with the previous one as soon as
    a denominator exceeds the threshold, with the last one otherwise. *)
Fixpoint pick (threshold : Z) (prev : Z * Z) (fs : list (Z * Z)) : Z * Z :=
  match fs with
  | [] => prev
  | (n, d) :: rest =>
      if d >? threshold then prev
      else match rest with
           | [] => (n, d)
           | _ :: _ => pick threshold (n, d) rest
           end
  end.

End ContinuedFraction.

(** ** Measurement sequences *)

Module Measurements.

(** How many of the measurement results [(X', N)] have [X' = 0]. *)
Fixpoint zero_measurements (measurements : list (Z * Z)) : nat :=
  match measurements with
  | [] => 0%nat
  | (x, _) :: rest =>
      if x =? 0 then S (zero_measurements rest) else zero_measurements rest
  end.

(** Whether three measurement results in a row have [X' = 0]; [run] is
    the length of the run of zeros that ends just before the list. *)
Fixpoint three_in_a_row (run : nat) (measurements : list (Z * Z)) : bool :=
  match measurements with
  | [] => false
  | (x, _) :: rest =>
      if x =? 0
      then match run with
           | S (S _) => true
           | _ => three_in_a_row (S run) rest
           end
      else three_in_a_row 0 rest
  end.

Definition three_consecutive_zeros (measurements : list (Z * Z)) : bool :=
  three_in_a_row 0 measurements.

End Measurements.

(** ** Forest/ForestOracles/Simon/matrix_math.py: Gaussian elimination mod 2

    A bit string is a [list bool], a matrix a [list (list bool)].  The
    source updates both in place; here every function returns the updated
    matrix.  The rows of a matrix are distinct list objects in every use
    the repository makes of these functions (each measurement is a fresh
    list), so writing a row back at its index is all an in-place update
    does.  Indexing outside a list raises [IndexError]; none of the
    indices below is ever negative. *)

Module MatrixMath.

(** [l[i]] *)
Definition index {A : Type} (l : list A) (i : nat) : result A :=
  match l !! i with
  | Some x => Ok x
  | None => Raise IndexError
  end.

(** [l[i] = x] *)
Definition assign {A : Type} (l : list A) (i : nat) (x : A)
  : result (list A) :=
  if decide (i < length l)%nat then Ok (<[i := x]> l) else Raise IndexError.

(** The loop of [find_pivot_row] over the rows from [start_row] on, [i]
    being the index of the first of them.  [None] stands for the -1 the
    source returns when no row has a 1 in the column. *)
Fixpoint find_pivot_row_from (rows : list (list bool)) (column i : nat)
  : result (option nat) :=
  match rows with
  | [] => Ok None
  | row :: rest =>
      b ← index row column;
      if b : bool then Ok (Some i)
      else find_pivot_row_from rest column (S i)
  end.

Definition find_pivot_row (matrix : list (list bool))
    (column start_row : nat) : result (option nat) :=
  find_pivot_row_from (drop start_row matrix) column start_row.

Definition swap_rows (matrix : list (list bool))
    (first_row_index second_row_index : nat) : result (list (list bool)) :=
  first_row ← index matrix first_row_index;
  second_row ← index matrix second_row_index;
  matrix ← assign matrix first_row_index second_row;
  assign matrix second_row_index first_row.

(** [for column in range(start_column, len(source_row)):
       target_row[column] ^= source_row[column]] *)
Fixpoint xor_columns (columns : list nat) (target_row source_row : list bool)
  : result (list bool) :=
  match columns with
  | [] => Ok target_row
  | column :: rest =>
      t ← index target_row column;
      s ← index source_row column;
      target_row ← assign target_row column (xorb t s);
      xor_columns rest target_row source_row
  end.

(** [for row in range(source_row_index + 1, len(matrix)): ...] *)
Fixpoint reduce_rows_loop (rows : list nat) (matrix : list (list bool))
    (source_row : list bool) (start_column : nat)
  : result (list (list bool)) :=
  match rows with
  | [] => Ok matrix
  | row :: rest =>
      target_row ← index matrix row;
      b ← index target_row start_column;
      matrix ←
        (if b : bool then
           target_row ←
             xor_columns
               (seq start_column (length source_row - start_column))
               target_row source_row;
           assign matrix row target_row
         else Ok matrix);
      reduce_rows_loop rest matrix source_row start_column
  end.

Definition reduce_rows (matrix : list (list bool))
    (source_row_index start_column : nat) : result (list (list bool)) :=
  source_row ← index matrix source_row_index;
  reduce_rows_loop
    (seq (S source_row_index) (length matrix - S source_row_index))
    matrix source_row start_column.

(** [for column_index in range(0, width): ...], over the columns still to
    be visited. *)
Fixpoint column_loop (columns : list nat) (height current_row : nat)
    (matrix : list (list bool)) : result (list (list bool)) :=
  match columns with
  | [] => Ok matrix
  | column_index :: rest =>
      pivot_row ← find_pivot_row matrix column_index current_row;
      match pivot_row with
      | None => column_loop rest height current_row matrix
      | Some pivot_row =>
          matrix ←
            (if decide (current_row < pivot_row)%nat
             then swap_rows matrix pivot_row current_row
             else Ok matrix);
          matrix ← reduce_rows matrix current_row column_index;
          let current_row := S current_row in
          if decide (current_row = height) then Ok matrix
          else column_loop rest height current_row matrix
      end
  end.

Definition convert_to_reduced_row_echelon_form (matrix : list (list bool))
  : result (list (list bool)) :=
  let height := length matrix in
  first_row ← index matrix 0;
  let width := length first_row in
  column_loop (seq 0 width) height 0 matrix.

(** [for element in last_row: if element: ... = True; break] *)
Fixpoint any_element (last_row : list bool) : bool :=
  match last_row with
  | [] => false
  | element :: rest => if element then true else any_element rest
  end.

(** Returns the flag and the matrix as the call leaves it. *)
Definition check_linear_independence (candidate : list bool)
    (matrix : list (list bool)) : result (bool * list (list bool)) :=
  let matrix := matrix ++ [candidate] in
  matrix ← convert_to_reduced_row_echelon_form matrix;
  last_row ← match last matrix with
             | Some row => Ok row
             | None => Raise IndexError
             end;
  let is_linearly_independent := any_element last_row in
  let matrix :=
    if negb is_linearly_independent then removelast matrix else matrix in
  Ok (is_linearly_independent, matrix).

(** The scan for the first row with a 0 on the diagonal; [default] is
    [len(matrix)]. *)
Fixpoint find_missing_row (rows : list (list bool)) (i default : nat)
  : result nat :=
  match rows with
  | [] => Ok default
  | current_row :: rest =>
      b ← index current_row i;
      if negb b then Ok i else find_missing_row rest (S i) default
  end.

(** Returns the right-hand side and the completed matrix.  In the source
    the returned vector is the very list that was inserted; nothing
    writes to it afterwards. *)
Definition complete_matrix (matrix : list (list bool))
  : result (list bool * list (list bool)) :=
  missing_row_index ← find_missing_row matrix 0 (length matrix);
  first_row ← index matrix 0;
  let missing_row := replicate (length first_row) false in
  missing_row ← assign missing_row missing_row_index true;
  let matrix :=
    take missing_row_index matrix ++ missing_row :: drop missing_row_index matrix in
  Ok (missing_row, matrix).

(** [for column_index in range(row_index + 1, len(row)):
       if row[column_index]: right_hand_side_value ^= secret_string[column_index]] *)
Fixpoint substitute (columns : list nat) (row secret_string : list bool)
    (right_hand_side_value : bool) : result bool :=
  match columns with
  | [] => Ok right_hand_side_value
  | column_index :: rest =>
      b ← index row column_index;
      if b : bool then
        s ← index secret_string column_index;
        substitute rest row secret_string (xorb right_hand_side_value s)
      else substitute rest row secret_string right_hand_side_value
  end.

(** [for row_index in range(len(matrix) - 1, -1, -1): ...] *)
Fixpoint solve_rows (row_indices : list nat) (matrix : list (list bool))
    (right_hand_side secret_string : list bool) : result (list bool) :=
  match row_indices with
  | [] => Ok secret_string
  | row_index :: rest =>
      row ← index matrix row_index;
      right_hand_side_value ← index right_hand_side row_index;
      right_hand_side_value ←
        substitute (seq (S row_index) (length row - S row_index))
          row secret_string right_hand_side_value;
      secret_string ← assign secret_string row_index right_hand_side_value;
      solve_rows rest matrix right_hand_side secret_string
  end.

Definition solve_matrix (matrix : list (list bool))
    (right_hand_side : list bool) : result (list bool) :=
  let secret_string := replicate (length matrix) false in
  solve_rows (reverse (seq 0 (length matrix)))
    matrix right_hand_side secret_string.

End MatrixMath.

(** ** Linear algebra over GF(2): the notions the claims are stated in *)

Module GF2.

Definition zero (w : nat) : list bool := replicate w false.

(** Element-wise XOR, the sum of two vectors. *)
Definition xor_row (a b : list bool) : list bool := zip_with xorb a b.

(** The sum of the rows whose coefficient is 1. *)
Definition weighted_sum (w : nat) (l : list (bool * list bool)) : list bool :=
  foldr (λ (x : bool * list bool) acc,
           if x.1 then xor_row x.2 acc else acc) (zero w) l.

Definition combination (w : nat) (cs : list bool) (rows : list (list bool))
  : list bool :=
  weighted_sum w (zip cs rows).

(** All coefficient vectors of a given length. *)
Fixpoint coefficient_vectors (n : nat) : list (list bool) :=
  match n with
  | O => [[]]
  | S n' =>
      (cons false <$> coefficient_vectors n')
      ++ (cons true <$> coefficient_vectors n')
  end.

(** [v] is a linear combination of [rows]. *)
Definition in_span (w : nat) (v : list bool) (rows : list (list bool)) : Prop :=
  Exists (λ cs, combination w cs rows = v)
    (coefficient_vectors (length rows)).

(** Only the trivial combination of [rows] is zero. *)
Definition independent (w : nat) (rows : list (list bool)) : Prop :=
  Forall (λ cs, combination w cs rows = zero w →
                cs = replicate (length rows) false)
    (coefficient_vectors (length rows)).

#[global] Instance in_span_dec w v rows : Decision (in_span w v rows).
Proof. unfold in_span. apply _. Defined.

#[global] Instance independent_dec w rows : Decision (independent w rows).
Proof. unfold independent. apply _. Defined.

(** Every row has [w] entries. *)
Definition rectangular (w : nat) (rows : list (list bool)) : Prop :=
  Forall (λ r, length r = w) rows.

#[global] Instance rectangular_dec w rows : Decision (rectangular w rows).
Proof. unfold rectangular. apply _. Defined.

(** The column of the first 1 of a row, if it has one. *)
Fixpoint leading (r : list bool) : option nat :=
  match r with
  | [] => None
  | b :: r' => if b then Some O else S <$> leading r'
  end.

(** Row-echelon form from column [c] on: the leading columns strictly
    increase with the row index, starting at [c] or later, and the rows
    without a 1 come last.  (Each entry below a leading 1 is then 0.) *)
Fixpoint echelon_from (c : nat) (rows : list (list bool)) : bool :=
  match rows with
  | [] => true
  | r :: rest =>
      match leading r with
      | None => forallb (λ r', bool_decide (leading r' = None)) rest
      | Some k => bool_decide (c ≤ k)%nat && echelon_from (S k) rest
      end
  end.

Definition echelon (rows : list (list bool)) : bool := echelon_from 0 rows.

(** The first [c] entries of the row are 0. *)
Definition zeros_before (c : nat) (r : list bool) : Prop := take c r = zero c.

(** An elementary row operation on one row: [y] is the row [x] of [w]
    entries, left alone or with the row [p] added to it. *)
Definition row_step (w : nat) (p x y : list bool) : Prop :=
  length x = w ∧ (y = x ∨ y = xor_row x p).

(** The vector with a single 1, at position [i]. *)
Definition unit_row (w i : nat) : list bool := <[i := true]> (zero w).

(** The product of a row of the matrix with a vector. *)
Definition dot (r s : list bool) : bool :=
  foldr xorb false (zip_with andb r s).

(** The linearly independent rows accumulated from a sequence of
    measured rows: a row is kept when it is not a linear combination of
    the rows kept before it. *)
Fixpoint accumulate (w : nat) (kept : list (list bool))
    (measured : list (list bool)) : list (list bool) :=
  match measured with
  | [] => kept
  | x :: rest =>
      if decide (in_span w x kept) then accumulate w kept rest
      else accumulate w (kept ++ [x]) rest
  end.

(** *** The elimination as a recursion on the rows still to be reduced

    The same algorithm as [MatrixMath.column_loop], without indices: the
    rows above [current_row] are never touched again, so only the rows
    from [current_row] on are passed along. *)

(** The first row with a 1 in column [c], between the rows before it and
    the rows after it. *)
Fixpoint split_pivot (c : nat) (rows : list (list bool))
  : option (list (list bool) * list bool * list (list bool)) :=
  match rows with
  | [] => None
  | r :: rest =>
      match r !! c with
      | Some true => Some ([], r, rest)
      | _ =>
          match split_pivot c rest with
          | Some (pre, p, post) => Some (r :: pre, p, post)
          | None => None
          end
      end
  end.

(** The target row XORed with the source row from column [c] on. *)
Definition xor_from (c : nat) (target source : list bool) : list bool :=
  take c target ++ xor_row (drop c target) (drop c source).

Definition reduce_row (c : nat) (source target : list bool) : list bool :=
  match target !! c with
  | Some true => xor_from c target source
  | _ => target
  end.

(** What is left below the pivot once it has been swapped to the top. *)
Definition below_pivot (pre post : list (list bool)) : list (list bool) :=
  match pre with
  | [] => post
  | top :: pre' => pre' ++ top :: post
  end.

Fixpoint eliminate (columns : list nat) (rows : list (list bool))
  : list (list bool) :=
  match columns with
  | [] => rows
  | c :: columns' =>
      match split_pivot c rows with
      | None => eliminate columns' rows
      | Some (pre, p, post) =>
          p :: eliminate columns' (reduce_row c p <$> below_pivot pre post)
      end
  end.

End GF2.

(** ** Cirq/CirqOracles/Simon/simon_tests.py: the classical driver

    The driver imports [matrix_math] and [simon].  The [matrix_math] it
    is run against here is the module of that name embedded above
    (Forest/ForestOracles/Simon/matrix_math.py); the quantum step and the
    classical evaluation of the function under test, which [simon]
    provides, are variables of the section.  The chance the caller asks
    for is a float: it is the rational number the float is equal to. *)

Module SimonTests.

Section RunTest.

(** [simon.simon_quantum_step(function, input_size)]: the bit string the
    [i]-th call returns (calls are numbered from 0, one per loop
    iteration). *)
Variable simon_quantum_step : nat → list bool.

(** [simon.run_function_in_classical_mode(function, _)] *)
Variable run_function_in_classical_mode : list bool → list bool.

(** [math.ceil(math.log(1 / (1 - desired_success_chance), 2))], the
    number of extra rounds, as a function of the chance.  The source
    computes it in floating point, with the logarithm of the platform's
    C library, so its value is taken as given: it is not always the
    exact ceiling (for the chance 1 - 2^-29 it is 30, not 29). *)
Variable ceil_log : QArith_base.Q → Z.

(** The collection loop, over the iterations still to run.  Returns
    [found_enough_strings], [valid_inputs], and the number of calls of
    [simon_quantum_step] made so far. *)
Fixpoint collect (iterations : list nat) (input_size : Z)
    (valid_inputs : list (list bool)) (calls : nat)
  : result (bool * list (list bool) * nat) :=
  match iterations with
  | [] => Ok (false, valid_inputs, calls)
  | i :: rest =>
      let input_string := simon_quantum_step i in
      '(was_valid, valid_inputs) ←
        MatrixMath.check_linear_independence input_string valid_inputs;
      if decide (Z.of_nat (length valid_inputs) = input_size - 1)
      then Ok (true, valid_inputs, S calls)
      else collect rest input_size valid_inputs (S calls)
  end.

(** The loop [for i in range(0, input_size + extra_rounds)], entered
    with no row. *)
Definition collect_inputs (input_size extra_rounds : Z)
  : result (bool * list (list bool) * nat) :=
  collect (seq 0 (Z.to_nat (input_size + extra_rounds))) input_size [] 0.

(** The bit strings returned by the first [k] calls of the quantum
    step. *)
Definition measured (k : nat) : list (list bool) :=
  simon_quantum_step <$> seq 0 k.

(** What the collection loop maintains after [i] iterations: the matrix
    [m] has rows of [n] entries, linearly independent, as many as the
    rows accumulated from the measurements so far, and with the same
    span. *)
Definition collected (n i : nat) (m : list (list bool)) : Prop :=
  GF2.rectangular n m
  ∧ GF2.independent n m
  ∧ GF2.rectangular n (GF2.accumulate n [] (measured i))
  ∧ length m = length (GF2.accumulate n [] (measured i))
  ∧ ∀ v, length v = n →
         GF2.in_span n v m ↔ GF2.in_span n v (GF2.accumulate n [] (measured i)).

(** [run_test] from its loop on, [extra_rounds] having been computed. *)
Definition run_test_rounds (input_size extra_rounds : Z)
  : result (list bool) :=
  '(found_enough_strings, valid_inputs, calls) ←
    collect_inputs input_size extra_rounds;
  if negb found_enough_strings then Raise AssertionError
  else
    '(right_hand_side, valid_inputs) ← MatrixMath.complete_matrix valid_inputs;
    secret_string ← MatrixMath.solve_matrix valid_inputs right_hand_side;
    let zeros := replicate (Z.to_nat input_size) false in
    let zero_output := run_function_in_classical_mode zeros in
    let secret_output := run_function_in_classical_mode secret_string in
    if decide (zero_output = secret_output) then Ok secret_string
    else Ok zeros.

(** [run_test(description, function, input_size, desired_success_chance)].
    The first statement fails the test unless the chance is more than
    0.5 and less than 1 (so 0.5 itself is refused, whatever the message
    says); [self.fail] raises, so nothing is measured then. *)
Definition run_test (input_size : Z) (desired_success_chance : QArith_base.Q)
  : result (list bool) :=
  if QArith_base.Qle_bool desired_success_chance (QArith_base.Qmake 1 2)
     || QArith_base.Qle_bool (QArith_base.Qmake 1 1) desired_success_chance
  then Raise AssertionError_chance
  else run_test_rounds input_size (ceil_log desired_success_chance).

End RunTest.

End SimonTests.

(** ** Forest/ForestOracles/q_math.py and Simon/simon.py: the test oracles

    The oracles build a pyQuil [Program] by appending gates to it.  A
    program is the list of its gates, a [QubitPlaceholder] is named by
    the register it belongs to and its position there, and a register is
    the list of its placeholders. *)

Module Simon.

Inductive qubit : Type :=
  | InputQubit (i : nat)
  | OutputQubit (i : nat).

#[global] Instance qubit_eq_dec : EqDecision qubit.
Proof. solve_decision. Defined.

Inductive gate : Type :=
  | X (q : qubit)
  | CNOT (control target : qubit)
  | CCNOT (control1 control2 target : qubit).

Definition program : Type := list gate.

(** The two ways an oracle can fail. *)
Inductive error : Type :=
  | RegisterLengthError   (* ValueError("Input and output registers must
                             have the same length.") *)
  | RegisterIndexError.   (* IndexError: a register indexed past its end *)

Inductive outcome (A : Type) : Type :=
  | Done (a : A)
  | Failed (e : error).
Arguments Done {A} a.
Arguments Failed {A} e.

#[global] Instance outcome_ret : MRet outcome := λ A a, Done a.
#[global] Instance outcome_bind : MBind outcome := λ A B f m,
  match m with
  | Done a => f a
  | Failed e => Failed e
  end.

(** [register[i]] *)
Definition qubit_at (register : list qubit) (i : nat) : outcome qubit :=
  match register !! i with
  | Some q => Done q
  | None => Failed RegisterIndexError
  end.

(** [program += CNOT(input[input_index], output[output_index])] *)
Definition add_cnot (program : program) (input output : list qubit)
    (input_index output_index : nat) : outcome Simon.program :=
  control ← qubit_at input input_index;
  target ← qubit_at output output_index;
  Done (program ++ [CNOT control target]).

(** [q_math.left_shift]: the loop
    [for input_index in range(amount, len(input))]. *)
Fixpoint left_shift_loop (input_indices : list nat) (program : program)
    (input output : list qubit) (amount : nat) : outcome Simon.program :=
  match input_indices with
  | [] => Done program
  | input_index :: rest =>
      let output_index := (input_index - amount)%nat in
      program ← add_cnot program input output input_index output_index;
      left_shift_loop rest program input output amount
  end.

Definition left_shift (program : program) (input output : list qubit)
    (amount : nat) : outcome Simon.program :=
  if negb (length input =? length output)%nat then Failed RegisterLengthError
  else left_shift_loop (seq amount (length input - amount))
         program input output amount.

(** [q_math.right_shift]: the loop
    [for input_index in range(0, len(input) - amount)]. *)
Fixpoint right_shift_loop (input_indices : list nat) (program : program)
    (input output : list qubit) (amount : nat) : outcome Simon.program :=
  match input_indices with
  | [] => Done program
  | input_index :: rest =>
      let output_index := (input_index + amount)%nat in
      program ← add_cnot program input output input_index output_index;
      right_shift_loop rest program input output amount
  end.

Definition right_shift (program : program) (input output : list qubit)
    (amount : nat) : outcome Simon.program :=
  if negb (length input =? length output)%nat then Failed RegisterLengthError
  else right_shift_loop (seq 0 (length input - amount))
         program input output amount.

(** [simon.identity]: [for i in range(0, len(input))]. *)
Fixpoint identity_loop (indices : list nat) (program : program)
    (input output : list qubit) : outcome Simon.program :=
  match indices with
  | [] => Done program
  | i :: rest =>
      program ← add_cnot program input output i i;
      identity_loop rest program input output
  end.

Definition identity (program : program) (input output : list qubit)
  : outcome Simon.program :=
  identity_loop (seq 0 (length input)) program input output.

Definition left_shift_by_1 (program : program) (input output : list qubit)
  : outcome Simon.program :=
  left_shift program input output 1.

Definition right_shift_by_1 (program : program) (input output : list qubit)
  : outcome Simon.program :=
  right_shift program input output 1.

(** [simon.wiki_test_function]: the loop [for i in range(0, 3)], and
    the function. *)
Fixpoint first_answer_loop (indices : list nat) (program : program)
    (input output : list qubit) : outcome Simon.program :=
  match indices with
  | [] => Done program
  | i :: rest =>
      program ← add_cnot program input output i 0;
      first_answer_loop rest program input output
  end.

Definition wiki_test_function (program : program) (input output : list qubit)
  : outcome Simon.program :=
  (* Prepare the first answer qubit *)
  input_0 ← qubit_at input 0;
  let program := program ++ [X input_0] in
  program ← first_answer_loop (seq 0 3) program input output;
  input_0 ← qubit_at input 0;
  let program := program ++ [X input_0] in
  (* Prepare the second answer qubit *)
  program ← add_cnot program input output 2 1;
  (* Prepare the third answer qubit *)
  output_1 ← qubit_at output 1;
  let program := program ++ [X output_1] in
  output_0 ← qubit_at output 0;
  output_1 ← qubit_at output 1;
  output_2 ← qubit_at output 2;
  let program := program ++ [CCNOT output_0 output_1 output_2] in
  output_1 ← qubit_at output 1;
  Done (program ++ [X output_1]).

(** *** Running a program on a classical input

    [run_function_in_classical_mode] prepares the input register with X
    gates, appends the oracle, measures the output register and runs the
    program on the QVM.  The three gates map basis states to basis
    states, so the run is deterministic: the state is the value of each
    qubit, every qubit starts at 0, X flips its qubit, CNOT flips its
    target when the control is 1, and CCNOT flips its target when both
    controls are 1.  (For an empty input the source asks for a QVM of 0
    qubits; nothing proved below is about that case.) *)

Definition state : Type := qubit → bool.

Definition flip (q : qubit) (b : bool) (st : state) : state :=
  λ q', if decide (q' = q) then xorb (st q') b else st q'.

Definition apply_gate (st : state) (g : gate) : state :=
  match g with
  | X q => flip q true st
  | CNOT control target => flip target (st control) st
  | CCNOT control1 control2 target =>
      flip target (st control1 && st control2) st
  end.

Definition execute (program : program) (st : state) : state :=
  foldl apply_gate st program.

(** [for i in range(0, input_size): if input[i]: program += X(input_register[i])] *)
Fixpoint prepare (indices : list nat) (program : program)
    (input : list bool) (input_register : list qubit)
  : outcome Simon.program :=
  match indices with
  | [] => Done program
  | i :: rest =>
      match input !! i with
      | None => Failed RegisterIndexError
      | Some true =>
          q ← qubit_at input_register i;
          prepare rest (program ++ [X q]) input input_register
      | Some false => prepare rest program input input_register
      end
  end.

Definition run_function_in_classical_mode
    (function : program → list qubit → list qubit → outcome program)
    (input : list bool) : outcome (list bool) :=
  let input_size := length input in
  let input_register := InputQubit <$> seq 0 input_size in
  let output := OutputQubit <$> seq 0 input_size in
  program ← prepare (seq 0 input_size) [] input input_register;
  program ← function program input_register output;
  let result := execute program (λ _, false) in
  Done ((λ i, result (OutputQubit i)) <$> seq 0 input_size).

End Simon.

(** ** Cirq/CirqOracles/Simon/simon_tests.py: the test cases

    Each test runs [run_test] on one oracle and compares the string it
    returns with the expected answer.  [run_test] evaluates the oracle
    through [simon.run_function_in_classical_mode] and has no handler
    for an exception of that call; [classical_mode] is that evaluation
    as the total function the driver above takes, with the empty string
    standing for a failed run (none of the four oracles fails on a
    register of the size its test uses). *)

Module SimonTestCases.

Section Tests.

(** The strings the quantum step returns for the oracle under test. *)
Variable simon_quantum_step : nat → list bool.

(** [math.ceil(math.log(1 / (1 - desired_success_chance), 2))], as in
    [SimonTests]. *)
Variable ceil_log : QArith_base.Q → Z.

(** The float [0.99], the chance every test asks for. *)
Definition chance_99 : QArith_base.Q :=
  QArith_base.Qmake 4458563631096791 4503599627370496.

Definition classical_mode
    (function : Simon.program → list Simon.qubit → list Simon.qubit →
                Simon.outcome Simon.program)
    (input : list bool) : list bool :=
  match Simon.run_function_in_classical_mode function input with
  | Simon.Done output => output
  | Simon.Failed _ => []
  end.

(** [self.assertEqual(answer, secret)] *)
Definition assertEqual (answer secret : list bool) : result unit :=
  if decide (answer = secret) then Ok tt else Raise AssertionError.

Definition left_shift_test (number_of_bits : Z) : result unit :=
  let answer := replicate (Z.to_nat number_of_bits) false in
  answer ← MatrixMath.assign answer 0 true;
  secret ← SimonTests.run_test simon_quantum_step
              (classical_mode Simon.left_shift_by_1) ceil_log
              number_of_bits chance_99;
  assertEqual answer secret.

(** [answer[-1] = True] writes the last entry, and raises [IndexError]
    on the empty list. *)
Definition right_shift_test (number_of_bits : Z) : result unit :=
  let answer := replicate (Z.to_nat number_of_bits) false in
  answer ← MatrixMath.assign answer (length answer - 1) true;
  secret ← SimonTests.run_test simon_quantum_step
              (classical_mode Simon.right_shift_by_1) ceil_log
              number_of_bits chance_99;
  assertEqual answer secret.

Definition identity_test (number_of_bits : Z) : result unit :=
  let answer := replicate (Z.to_nat number_of_bits) false in
  secret ← SimonTests.run_test simon_quantum_step
              (classical_mode Simon.identity) ceil_log
              number_of_bits chance_99;
  assertEqual answer secret.

Definition test_wiki_example : result unit :=
  let answer := [true; true; false] in
  secret ← SimonTests.run_test simon_quantum_step
              (classical_mode Simon.wiki_test_function) ceil_log
              3 chance_99;
  assertEqual answer secret.

End Tests.

End SimonTestCases.

(** * Properties *)

(** ** The modular arithmetic library *)

Section ShorMathFacts.
Import ShorMath.

Lemma sign_mul_abs (a : Z) : a * sign a = Z.abs a.
Proof.
  unfold sign.
  destruct (Z.ltb_spec a 0); [lia|].
  destruct (Z.eqb_spec a 0); lia.
Qed.

(** The invariant of the Euclidean recursion: both remainders are the
    combinations of [A] and [B] that the running coefficients describe. *)
Lemma gcd_recursion_bezout (sign_a sign_b : Z) (r s t : Z * Z) (A B : Z) :
  r.1 = s.1 * A + t.1 * B →
  r.2 = s.2 * A + t.2 * B →
  0 ≤ r.1 → 0 ≤ r.2 →
  ∃ s' t',
    gcd_recursion sign_a sign_b r s t = (s' * sign_a, t' * sign_b)
    ∧ s' * A + t' * B = Z.gcd r.1 r.2.
Proof.
  funelim (gcd_recursion sign_a sign_b r s t); simpl; intros Hr1 Hr2 Hp1 Hp2.
  - exists s_1, t_1. split; [done|].
    subst r_2. rewrite Z.gcd_0_r. lia.
  - match goal with
    | IH : ∀ A B : Z, _ |- _ =>
        destruct (IH A B) as (s' & t' & Hrec & Hg); simpl
    end.
    + lia.
    + lia.
    + lia.
    + assert (r_1 - r_1 / r_2 * r_2 = r_1 mod r_2) as ->
        by (rewrite Z.mod_eq by done; lia).
      apply Z.mod_pos_bound. lia.
    + exists s', t'. split; [exact Hrec|].
      rewrite Hg. simpl.
      assert (r_1 - r_1 / r_2 * r_2 = r_1 mod r_2) as ->
        by (rewrite Z.mod_eq by done; lia).
      rewrite (Z.gcd_comm r_2), Z.gcd_mod by done. apply Z.gcd_comm.
Qed.

Lemma extended_gcd_bezout (a b : Z) :
  ∀ u v, extended_gcd a b = (u, v) → u * a + v * b = Z.gcd a b.
Proof.
  intros u v. unfold extended_gcd.
  destruct (gcd_recursion_bezout (sign a) (sign b)
              (a * sign a, b * sign b) (1, 0) (0, 1) (Z.abs a) (Z.abs b))
    as (s' & t' & Heq & Hg); simpl.
  - rewrite sign_mul_abs. lia.
  - rewrite sign_mul_abs. lia.
  - rewrite sign_mul_abs. lia.
  - rewrite sign_mul_abs. lia.
  - rewrite Heq. intros [= <- <-]. simpl in Hg.
    rewrite !sign_mul_abs, Z.gcd_abs_l, Z.gcd_abs_r in Hg.
    rewrite <- Hg, <- !sign_mul_abs. lia.
Qed.

Lemma get_modulus_residue_pos (value modulus : Z) :
  0 < modulus → get_modulus_residue value modulus = Ok (value mod modulus).
Proof.
  intros Hm. unfold get_modulus_residue.
  destruct (Z.leb_spec modulus 0); [lia|].
  pose proof (Z.mod_pos_bound value modulus Hm).
  destruct (Z.ltb_spec (value mod modulus) 0); [lia|done].
Qed.

(** What [inverse_mod] does on every input, by cases on the gcd and on
    the sign of the modulus. *)
Lemma inverse_mod_cases (a modulus : Z) :
  inverse_mod a modulus =
    if negb (Z.gcd a modulus =? 1) then Raise ValueError_not_coprime
    else if modulus <=? 0 then Raise ValueError_modulus
    else Ok ((extended_gcd a modulus).1 mod modulus).
Proof.
  unfold inverse_mod.
  destruct (extended_gcd a modulus) as [u v] eqn:E.
  rewrite (extended_gcd_bezout _ _ _ _ E). simpl.
  destruct (negb (Z.gcd a modulus =? 1)); [done|].
  destruct (Z.leb_spec modulus 0) as [Hle|Hlt].
  - unfold get_modulus_residue.
    destruct (Z.leb_spec modulus 0); [done|lia].
  - by apply get_modulus_residue_pos.
Qed.

(** C2, as the claim states it, fails for the pair (0, 0): the function
    returns (0, 0), and the combination 0*0 + 0*0 is 0, which is the gcd
    of 0 and 0 but is not positive. *)
Lemma extended_gcd_zero_zero_not_positive :
  ¬ (let '(u, v) := extended_gcd 0 0 in
     u * 0 + v * 0 = Z.gcd 0 0 ∧ 0 < Z.gcd 0 0).
Proof. vm_compute. intros [_ H]. discriminate H. Qed.

(** C2 (amended): for all integers [a] and [b], of either sign and
    including zero, [extended_gcd a b] is a pair [(u, v)] with
    [u*a + v*b = gcd a b], where the gcd is never negative, and is
    positive unless [a] and [b] are both zero. *)
Theorem extended_gcd_spec (a b : Z) :
  let '(u, v) := extended_gcd a b in
  u * a + v * b = Z.gcd a b
  ∧ 0 ≤ Z.gcd a b
  ∧ (a ≠ 0 ∨ b ≠ 0 → 0 < Z.gcd a b).
Proof.
  destruct (extended_gcd a b) as [u v] eqn:E.
  split; [by apply extended_gcd_bezout|].
  pose proof (Z.gcd_nonneg a b) as Hnn.
  split; [done|].
  intros Hab.
  destruct (Z.eq_dec (Z.gcd a b) 0) as [H0|H0]; [|lia].
  apply Z.gcd_eq_0 in H0. lia.
Qed.

Lemma extended_gcd_spec_witness :
  let '(u, v) := extended_gcd 35 15 in
  u * 35 + v * 15 = 5 ∧ 0 < Z.gcd 35 15.
Proof.
  pose proof (extended_gcd_spec 35 15) as H.
  destruct (extended_gcd 35 15) as [u v].
  destruct H as (H1 & _ & H3).
  split; [exact H1 | apply H3; left; discriminate].
Defined.

(** C5, as the claim states it, fails for the modulus 1: 5 and 1 are
    coprime, [inverse_mod 5 1] returns 0, and (5 * 0) mod 1 is 0, not 1. *)
Lemma inverse_mod_modulus_one_counterexample :
  Z.gcd 5 1 = 1 ∧ inverse_mod 5 1 = Ok 0 ∧ (5 * 0) mod 1 ≠ 1.
Proof. vm_compute. repeat split; discriminate. Qed.

(** C5 (amended): for all coprime pairs [(a, modulus)] with
    [modulus >= 2], [inverse_mod a modulus] returns an integer [b] in
    [0, modulus) with [(a * b) mod modulus = 1]; and for every pair whose
    gcd (the value [u*a + v*modulus] of the Bezout coefficients) is not
    1 it raises the not-coprime [ValueError]. *)
Theorem inverse_mod_spec (a modulus : Z) :
  (Z.gcd a modulus = 1 → 2 ≤ modulus →
     ∃ b, inverse_mod a modulus = Ok b
          ∧ 0 ≤ b < modulus ∧ (a * b) mod modulus = 1)
  ∧ (Z.gcd a modulus ≠ 1 →
       inverse_mod a modulus = Raise ValueError_not_coprime).
Proof.
  rewrite inverse_mod_cases. split.
  - intros Hg Hm.
    destruct (Z.eqb_spec (Z.gcd a modulus) 1); [simpl|done].
    destruct (Z.leb_spec modulus 0); [lia|].
    eexists. split; [done|].
    split; [apply Z.mod_pos_bound; lia|].
    destruct (extended_gcd a modulus) as [u v] eqn:E. simpl.
    pose proof (extended_gcd_bezout _ _ _ _ E) as Hb.
    rewrite Zmult_mod_idemp_r.
    replace (a * u) with (1 + (- v) * modulus) by lia.
    rewrite Z_mod_plus_full. apply Z.mod_small. lia.
  - intros Hg.
    by destruct (Z.eqb_spec (Z.gcd a modulus) 1).
Qed.

Lemma inverse_mod_spec_witness :
  ∃ b, inverse_mod 3 7 = Ok b ∧ 0 ≤ b < 7 ∧ (3 * b) mod 7 = 1.
Proof.
  apply (proj1 (inverse_mod_spec 3 7)); [reflexivity | lia].
Defined.

End ShorMathFacts.

(** ** Continued-fraction convergents *)

Section ConvergentFacts.
Import ContinuedFraction Shor.

Lemma coefficients_step (P Q : Z) :
  Q ≠ 0 → coefficients P Q = P / Q :: coefficients Q (P mod Q).
Proof.
  intros HQ. rewrite coefficients_equation_1.
  destruct (Z.eq_dec Q 0); [done|]. reflexivity.
Qed.

Lemma coefficients_zero (P : Z) : coefficients P 0 = [].
Proof. rewrite coefficients_equation_1. reflexivity. Qed.

Lemma coefficients_nil (P Q : Z) : coefficients P Q = [] ↔ Q = 0.
Proof.
  split.
  - intros H. destruct (Z.eq_dec Q 0) as [|HQ]; [done|].
    by rewrite coefficients_step in H.
  - intros ->. apply coefficients_zero.
Qed.

Lemma convergent_loop_step (T P Q n1 n2 d1 d2 : Z) :
  Q ≠ 0 →
  convergent_loop T P Q n1 n2 d1 d2 =
    if (P / Q * d1 + d2 >? T) || (P mod Q =? 0)
    then if P / Q * d1 + d2 >? T
         then Ok (n1, d1)
         else Ok (P / Q * n1 + n2, P / Q * d1 + d2)
    else convergent_loop T Q (P mod Q)
           (P / Q * n1 + n2) n1 (P / Q * d1 + d2) d1.
Proof.
  intros HQ. rewrite convergent_loop_equation_1.
  destruct (Z.eq_dec Q 0); [done|]. reflexivity.
Qed.

(** The loop is the walk [pick] over the recurrence [forward] run on the
    Euclidean coefficients: in particular it returns, for every non-zero
    denominator. *)
Lemma convergent_loop_pick (T : Z) (cs : list Z) :
  ∀ P Q n1 n2 d1 d2,
    Q ≠ 0 → coefficients P Q = cs →
    convergent_loop T P Q n1 n2 d1 d2
    = Ok (pick T (n1, d1) (forward cs n1 n2 d1 d2)).
Proof.
  induction cs as [|a cs IH]; intros P Q n1 n2 d1 d2 HQ Hcs.
  - by apply coefficients_nil in Hcs.
  - rewrite coefficients_step in Hcs by done.
    injection Hcs as <- Hcs'.
    rewrite convergent_loop_step by done. simpl.
    destruct (P / Q * d1 + d2 >? T) eqn:Hgt; simpl; [done|].
    destruct (Z.eqb_spec (P mod Q) 0) as [Hr|Hr].
    + rewrite Hr, coefficients_zero in Hcs'. by subst cs.
    + rewrite (IH Q (P mod Q)) by done.
      destruct cs as [|a' cs']; [by apply coefficients_nil in Hcs'|].
      reflexivity.
Qed.

Lemma forward_length (cs : list Z) :
  ∀ n1 n2 d1 d2, length (forward cs n1 n2 d1 d2) = length cs.
Proof. induction cs as [|a cs IH]; intros; simpl; [done|]. by rewrite IH. Qed.

(** The recurrence computes the continued-fraction values: started from
    any pair of seeds, its [i]-th entry is the seed matrix applied to the
    value of the first [i+1] coefficients. *)
Lemma forward_lookup (cs : list Z) :
  ∀ n1 n2 d1 d2 (i : nat),
    (i < length cs)%nat →
    forward cs n1 n2 d1 d2 !! i
    = Some (n1 * (value (take (S i) cs)).1 + n2 * (value (take (S i) cs)).2,
            d1 * (value (take (S i) cs)).1 + d2 * (value (take (S i) cs)).2).
Proof.
  induction cs as [|a cs IH]; intros n1 n2 d1 d2 i Hi; simpl in Hi; [lia|].
  destruct i as [|i].
  - simpl. rewrite ?take_0. simpl. do 2 f_equal; lia.
  - change (forward (a :: cs) n1 n2 d1 d2 !! S i)
      with (forward cs (a * n1 + n2) n1 (a * d1 + d2) d1 !! i).
    rewrite IH by lia.
    change (take (S (S i)) (a :: cs)) with (a :: take (S i) cs).
    simpl value. destruct (value (take (S i) cs)) as [x y]. simpl.
    do 2 f_equal; lia.
Qed.

Lemma convergents_forward (P Q : Z) :
  convergents P Q = forward (coefficients P Q) 1 0 0 1.
Proof.
  unfold convergents. apply list_eq. intros i.
  destruct (decide (i < length (coefficients P Q))%nat) as [Hi|Hi].
  - rewrite forward_lookup by done.
    rewrite list_lookup_fmap, lookup_seq_lt by done. simpl.
    destruct (value _) as [x y]. simpl. do 2 f_equal; lia.
  - rewrite !lookup_ge_None_2; [done| |].
    + rewrite forward_length. lia.
    + rewrite length_fmap, length_seq. lia.
Qed.

(** From the second coefficient on, every coefficient is at least 1. *)
Lemma coefficients_tail_ge_1 (cs : list Z) :
  ∀ P Q, (Q = 0 ∨ 0 < Q ≤ P ∨ P ≤ Q < 0) →
         coefficients P Q = cs → Forall (λ a, 1 ≤ a) cs.
Proof.
  induction cs as [|a cs IH]; intros P Q HPQ Hcs; [constructor|].
  destruct (Z.eq_dec Q 0) as [->|HQ];
    [by rewrite coefficients_zero in Hcs|].
  rewrite coefficients_step in Hcs by done.
  injection Hcs as <- Hcs'.
  constructor.
  - destruct HPQ as [?|[?|?]]; [done| |].
    + apply Z.div_le_lower_bound; lia.
    + rewrite <- Z.div_opp_opp by done.
      apply Z.div_le_lower_bound; lia.
  - apply (IH Q (P mod Q)); [|done].
    destruct (Z.eq_dec (P mod Q) 0); [by left|right].
    destruct (Z_lt_le_dec 0 Q).
    + pose proof (Z.mod_pos_bound P Q ltac:(lia)). lia.
    + pose proof (Z.mod_neg_bound P Q ltac:(lia)). lia.
Qed.

(** With coefficients that are at least 1 and non-negative seeds, the
    denominators never go down, and none is below the seed [d1]. *)
Lemma forward_denominators_mono (cs : list Z) :
  ∀ n1 n2 d1 d2,
    Forall (λ a, 1 ≤ a) cs → 0 ≤ d1 → 0 ≤ d2 →
    ∀ (i j : nat) ni di nj dj,
      (i ≤ j)%nat →
      forward cs n1 n2 d1 d2 !! i = Some (ni, di) →
      forward cs n1 n2 d1 d2 !! j = Some (nj, dj) →
      d1 ≤ di ∧ di ≤ dj.
Proof.
  induction cs as [|a cs IH];
    intros n1 n2 d1 d2 Hcs Hd1 Hd2 i j ni di nj dj Hij Hi Hj; [done|].
  apply Forall_cons in Hcs as [Ha Hcs].
  assert (d1 ≤ a * d1 + d2) as Hstep by nia.
  assert (0 ≤ a * d1 + d2) as Hnn by lia.
  destruct i as [|i], j as [|j]; simpl in Hi, Hj; try lia.
  - injection Hi as <- <-. injection Hj as <- <-. lia.
  - injection Hi as <- <-.
    destruct (IH _ _ _ _ Hcs Hnn Hd1 j j nj dj nj dj (Nat.le_refl j) Hj Hj)
      as [? _].
    lia.
  - destruct (IH _ _ _ _ Hcs Hnn Hd1 i j ni di nj dj ltac:(lia) Hi Hj)
      as [? ?].
    lia.
Qed.

(** Where the walk stops. *)
Lemma pick_spec (T : Z) (fs : list (Z * Z)) :
  ∀ prev n0 d0 rest,
    fs = (n0, d0) :: rest → d0 ≤ T →
    ∃ (k : nat) n d,
      pick T prev fs = (n, d) ∧ fs !! k = Some (n, d)
      ∧ (∀ (j : nat) n' d', (j ≤ k)%nat → fs !! j = Some (n', d') → d' ≤ T)
      ∧ ((∃ n' d', fs !! S k = Some (n', d') ∧ T < d')
         ∨ S k = length fs).
Proof.
  induction fs as [|[n d] fs IH]; intros prev n0 d0 rest Hfs Hd0; [done|].
  injection Hfs as -> -> ->.
  simpl. destruct (Z.gtb_spec d0 T) as [|_]; [lia|].
  destruct rest as [|[n1 d1] rest'].
  - exists 0%nat, n0, d0. repeat split; [|by right].
    intros j n' d' Hj. assert (j = 0%nat) as -> by lia.
    simpl. by intros [= <- <-].
  - destruct (Z.gtb_spec d1 T) as [Hgt|Hle].
    + exists 0%nat, n0, d0. split; [by simpl; destruct (Z.gtb_spec d1 T); [|lia]|].
      split; [done|]. split.
      * intros j n' d' Hj. assert (j = 0%nat) as -> by lia.
        simpl. by intros [= <- <-].
      * left. by exists n1, d1.
    + destruct (IH (n0, d0) n1 d1 rest' eq_refl Hle)
        as (k & n & d & Hp & Hk & Hall & Hend).
      exists (S k), n, d. split; [exact Hp|]. split; [exact Hk|]. split.
      * intros [|j] n' d' Hj; simpl.
        -- by intros [= <- <-].
        -- apply Hall. lia.
      * destruct Hend as [Hend|Hend]; [by left|right].
        simpl in *. lia.
Qed.

(** The quantities [n1*P + n2*Q] and [d1*P + d2*Q] are conserved by the
    loop, so the last convergent is the input fraction itself. *)
Lemma forward_last_exact (cs : list Z) :
  ∀ P Q n1 n2 d1 d2 n d,
    coefficients P Q = cs →
    forward cs n1 n2 d1 d2 !! pred (length cs) = Some (n, d) →
    n * (d1 * P + d2 * Q) = (n1 * P + n2 * Q) * d.
Proof.
  induction cs as [|a cs IH]; intros P Q n1 n2 d1 d2 n d Hcs Hlast; [done|].
  destruct (Z.eq_dec Q 0) as [->|HQ];
    [by rewrite coefficients_zero in Hcs|].
  rewrite coefficients_step in Hcs by done.
  injection Hcs as <- Hcs'.
  pose proof (Z.div_mod P Q HQ) as Hdm.
  destruct cs as [|a' cs'].
  - apply coefficients_nil in Hcs'.
    simpl in Hlast. injection Hlast as <- <-.
    rewrite Hcs' in Hdm. nia.
  - change (forward (P / Q :: a' :: cs') n1 n2 d1 d2
              !! pred (length (P / Q :: a' :: cs')))
      with (forward (a' :: cs') (P / Q * n1 + n2) n1 (P / Q * d1 + d2) d1
              !! pred (length (a' :: cs'))) in Hlast.
    specialize (IH _ _ _ _ _ _ _ _ Hcs' Hlast). nia.
Qed.

Lemma convergents_length (P Q : Z) :
  length (convergents P Q) = length (coefficients P Q).
Proof. unfold convergents. by rewrite length_fmap, length_seq. Qed.

(** The denominators of the convergents of a fraction start at 1 and
    never go down. *)
Lemma convergents_denominators_mono (P Q : Z) (i j : nat) ni di nj dj :
  Q ≠ 0 → (i ≤ j)%nat →
  convergents P Q !! i = Some (ni, di) →
  convergents P Q !! j = Some (nj, dj) →
  1 ≤ di ∧ di ≤ dj.
Proof.
  intros HQ Hij. rewrite convergents_forward.
  pose proof (coefficients_step P Q HQ) as Hcs. rewrite Hcs.
  assert (Forall (λ a, 1 ≤ a) (coefficients Q (P mod Q))) as Htail.
  { apply (coefficients_tail_ge_1 _ Q (P mod Q)); [|done].
    destruct (Z.eq_dec (P mod Q) 0); [by left|right].
    destruct (Z_lt_le_dec 0 Q).
    - pose proof (Z.mod_pos_bound P Q ltac:(lia)). lia.
    - pose proof (Z.mod_neg_bound P Q ltac:(lia)). lia. }
  simpl forward.
  assert (P / Q * 0 + 1 = 1) as -> by lia.
  pose proof (forward_denominators_mono _ (P / Q * 1 + 0) 1 1 0
                Htail ltac:(lia) ltac:(lia)) as Hmono.
  destruct i as [|i], j as [|j]; simpl; intros Hi Hj; try lia.
  - injection Hi as <- <-. injection Hj as <- <-. lia.
  - injection Hi as <- <-.
    destruct (Hmono j j nj dj nj dj (Nat.le_refl j) Hj Hj). lia.
  - destruct (Hmono i j ni di nj dj ltac:(lia) Hi Hj). lia.
Qed.

(** C1, as the claim states it, fails for the threshold 0: on the fraction
    1/2 the very first denominator (1) already exceeds the threshold, so
    the function returns the seed pair (1, 0) of the recurrence, which is
    not a convergent of 1/2 (those are 0/1 and 1/2). *)
Lemma find_convergent_threshold_zero_counterexample :
  find_continued_fraction_convergent 1 2 0 = Ok (1, 0)
  ∧ convergents 1 2 = [(0, 1); (1, 2)]
  ∧ (1, 0) ∉ convergents 1 2.
Proof.
  assert (convergents 1 2 = [(0, 1); (1, 2)]) as Hc by (by vm_compute).
  split; [by vm_compute|]. split; [exact Hc|].
  rewrite Hc. intros Hin.
  apply elem_of_cons in Hin as [Hin|Hin]; [discriminate Hin|].
  apply elem_of_cons in Hin as [Hin|Hin]; [discriminate Hin|].
  by apply elem_of_nil in Hin.
Qed.

(** The search is correct for a non-zero denominator and a threshold of
    at least 1. *)
Lemma convergent_search_correct (p q T : Z) :
  q ≠ 0 → 1 ≤ T →
  ∃ (k : nat) n d,
    find_continued_fraction_convergent p q T = Ok (n, d)
    ∧ convergents p q !! k = Some (n, d)
    ∧ d ≤ T
    ∧ (∀ (j : nat) n' d',
         convergents p q !! j = Some (n', d') → d' ≤ T → d' ≤ d)
    ∧ ((∃ n' d', convergents p q !! S k = Some (n', d') ∧ T < d')
       ∨ (S k = length (convergents p q) ∧ n * q = p * d)).
Proof.
  intros Hq HT.
  pose proof (coefficients_step p q Hq) as Hcs.
  pose proof (convergents_forward p q) as Hfw.
  destruct (pick_spec T (convergents p q) (1, 0)
              (p / q * 1 + 0) (p / q * 0 + 1)
              (forward (coefficients q (p mod q))
                 (p / q * 1 + 0) 1 (p / q * 0 + 1) 0))
    as (k & n & d & Hp & Hk & Hall & Hend).
  { rewrite Hfw, Hcs. reflexivity. }
  { lia. }
  exists k, n, d.
  split.
  { unfold find_continued_fraction_convergent.
    rewrite (convergent_loop_pick T (coefficients p q)) by done.
    by rewrite <- Hfw, Hp. }
  split; [exact Hk|].
  split; [by apply (Hall k n d)|].
  split.
  - intros j n' d' Hj Hd'.
    destruct (decide (j ≤ k)%nat) as [Hjk|Hjk].
    + by destruct (convergents_denominators_mono p q j k n' d' n d Hq Hjk Hj Hk).
    + destruct Hend as [(n'' & d'' & Hnext & Hgt)|Hlen].
      * destruct (convergents_denominators_mono p q (S k) j n'' d'' n' d'
                    Hq ltac:(lia) Hnext Hj).
        lia.
      * apply lookup_lt_Some in Hj. lia.
  - destruct Hend as [Hnext|Hlen]; [by left|right].
    split; [exact Hlen|].
    assert (forward (coefficients p q) 1 0 0 1
              !! pred (length (coefficients p q)) = Some (n, d)) as Hlast.
    { rewrite <- Hfw. rewrite <- convergents_length, <- Hlen. exact Hk. }
    pose proof (forward_last_exact _ p q 1 0 0 1 n d eq_refl Hlast). lia.
Qed.

(** C1 (amended): for every fraction [p/q] (with [q <> 0]) and every
    threshold [T >= 1], [find_continued_fraction_convergent p q T]
    terminates and returns a pair [(n, d)] that is a convergent of the
    continued-fraction expansion of [p/q] (the one of index [k]) with
    [d <= T] and [d] maximal among the convergents whose denominator does
    not exceed [T]; either the next convergent exists and its denominator
    exceeds [T] (the function returned the previous one the moment that
    happened), or [(n, d)] is the last convergent, reached when the
    Euclidean remainder is 0, and it is exact: [n/d = p/q]. *)
Theorem find_continued_fraction_convergent_spec (p q T : Z) :
  q ≠ 0 → 1 ≤ T →
  ∃ (k : nat) n d,
    find_continued_fraction_convergent p q T = Ok (n, d)
    ∧ convergents p q !! k = Some (n, d)
    ∧ d ≤ T
    ∧ (∀ (j : nat) n' d',
         convergents p q !! j = Some (n', d') → d' ≤ T → d' ≤ d)
    ∧ ((∃ n' d', convergents p q !! S k = Some (n', d') ∧ T < d')
       ∨ (S k = length (convergents p q) ∧ n * q = p * d)).
Proof. apply convergent_search_correct. Qed.

Lemma find_continued_fraction_convergent_spec_witness :
  ∃ (k : nat) n d,
    find_continued_fraction_convergent 171 1024 21 = Ok (n, d)
    ∧ convergents 171 1024 !! k = Some (n, d)
    ∧ d ≤ 21
    ∧ (∀ (j : nat) n' d',
         convergents 171 1024 !! j = Some (n', d') → d' ≤ 21 → d' ≤ d)
    ∧ ((∃ n' d', convergents 171 1024 !! S k = Some (n', d') ∧ 21 < d')
       ∨ (S k = length (convergents 171 1024) ∧ n * 1024 = 171 * d)).
Proof.
  apply (find_continued_fraction_convergent_spec 171 1024 21); lia.
Defined.

End ConvergentFacts.

(** ** The period finder *)

Section PeriodFinderFacts.
Import ContinuedFraction Shor Measurements.

(** Whatever the threshold, a returned denominator is not negative; with
    a threshold of at least 1 it is at least 1. *)
Lemma convergent_denominator_nonneg (p q T n d : Z) :
  find_continued_fraction_convergent p q T = Ok (n, d) →
  0 ≤ d ∧ (1 ≤ T → 1 ≤ d).
Proof.
  intros Hret.
  destruct (Z.eq_dec q 0) as [->|Hq].
  { unfold find_continued_fraction_convergent in Hret.
    by rewrite convergent_loop_equation_1 in Hret. }
  destruct (Z_lt_le_dec T 1) as [HT|HT].
  - unfold find_continued_fraction_convergent in Hret.
    rewrite convergent_loop_step in Hret by done.
    destruct (Z.gtb_spec (p / q * 0 + 1) T) as [_|?]; [|lia].
    simpl in Hret. injection Hret as <- <-. lia.
  - destruct (convergent_search_correct p q T Hq HT)
      as (k & n' & d' & Hret' & Hk & _).
    rewrite Hret in Hret'. injection Hret' as <- <-.
    destruct (convergents_denominators_mono p q k k n d n d Hq
                (Nat.le_refl k) Hk Hk). lia.
Qed.

Lemma convergent_zero_denominator (p T : Z) :
  find_continued_fraction_convergent p 0 T = Raise ZeroDivisionError.
Proof.
  unfold find_continued_fraction_convergent.
  by rewrite convergent_loop_equation_1.
Qed.

(** [factor_of_period * period // math.gcd(factor_of_period, period)] is
    the least common multiple, and is no smaller than [period]. *)
Lemma lcm_update (d p : Z) :
  1 ≤ d → 1 ≤ p →
  floordiv (d * p) (Z.gcd d p) = Ok (Z.lcm p d) ∧ p ≤ Z.lcm p d.
Proof.
  intros Hd Hp.
  assert (Z.gcd d p ≠ 0) as Hg by (intros H%Z.gcd_eq_0; lia).
  split.
  - unfold floordiv. destruct (Z.eqb_spec (Z.gcd d p) 0); [done|].
    f_equal. unfold Z.lcm.
    rewrite (Z.mul_comm d p), (Z.gcd_comm d p).
    rewrite Z.gcd_comm in Hg.
    rewrite Z.divide_div_mul_exact by (done || apply Z.gcd_divide_r).
    symmetry. apply Z.abs_eq.
    apply Z.mul_nonneg_nonneg; [lia|].
    apply Z.div_pos; [lia|].
    pose proof (Z.gcd_nonneg p d). lia.
  - apply Z.divide_pos_le; [|apply Z.divide_lcm_l].
    pose proof (Z.lcm_nonneg p d).
    destruct (Z.eq_dec (Z.lcm p d) 0) as [H0|]; [|lia].
    apply Z.lcm_eq_0 in H0. lia.
Qed.

Lemma while_loop_cons (N g : Z) (st : locals) (m : Z * Z)
    (rest : list (Z * Z)) :
  while_loop N g st (m :: rest) =
    if remainder st =? 1 then Finished (period st)
    else match loop_body N g st m with
         | Next st' => while_loop N g st' rest
         | Return value => Finished value
         | Throw e => Raised e
         end.
Proof. reflexivity. Qed.

Lemma while_loop_nil (N g : Z) (st : locals) :
  while_loop N g st [] =
    if remainder st =? 1 then Finished (period st) else Pending st.
Proof. reflexivity. Qed.

Lemma while_loop_app (N g : Z) (ms1 ms2 : list (Z * Z)) :
  ∀ st,
    while_loop N g st (ms1 ++ ms2) =
      match while_loop N g st ms1 with
      | Pending st' => while_loop N g st' ms2
      | r => r
      end.
Proof.
  induction ms1 as [|m ms1 IH]; intros st; simpl.
  - destruct (remainder st =? 1) eqn:E; [|done].
    destruct ms2; simpl; by rewrite E.
  - destruct (remainder st =? 1); [done|].
    destruct (loop_body N g st m); [apply IH|done|done].
Qed.

(** A run that is still asking for measurements has not seen the
    remainder 1. *)
Lemma while_loop_pending_remainder (N g : Z) (ms : list (Z * Z)) :
  ∀ st st', while_loop N g st ms = Pending st' → remainder st' ≠ 1.
Proof.
  induction ms as [|m ms IH]; intros st st'; simpl.
  - destruct (Z.eqb_spec (remainder st) 1); [done|]. by intros [= <-].
  - destruct (remainder st =? 1); [done|].
    destruct (loop_body N g st m); [apply IH|done|done].
Qed.

(** One pass through the loop body, case by case. *)
Lemma loop_body_zero (N g : Z) (st : locals) (n : Z) :
  loop_body N g st (0, n) =
    if number_of_zero_measurements st + 1 =? 3 then Return (-1)
    else Next (Locals (period st) (remainder st)
                 (number_of_zero_measurements st + 1)).
Proof. reflexivity. Qed.

Lemma loop_body_period_nonneg (N g : Z) (st st' : locals) (m : Z * Z) :
  0 ≤ period st → loop_body N g st m = Next st' → 0 ≤ period st'.
Proof.
  intros Hp. destruct m as [x n]. unfold loop_body.
  destruct (x =? 0).
  - destruct (_ =? 3); [done|]. by intros [= <-].
  - destruct (find_continued_fraction_convergent x n N) as [[n' d]|e] eqn:Hc;
      [|done].
    apply convergent_denominator_nonneg in Hc as [Hd _].
    unfold floordiv.
    destruct (Z.eqb_spec (Z.gcd d (period st)) 0) as [|Hg]; [done|].
    destruct (pow g _ N); [|done].
    intros [= <-]. simpl.
    apply Z.div_pos; [nia|].
    pose proof (Z.gcd_nonneg d (period st)). lia.
Qed.

Lemma loop_body_counter (N g : Z) (st st' : locals) (x n : Z) :
  loop_body N g st (x, n) = Next st' →
  number_of_zero_measurements st' =
    number_of_zero_measurements st + (if x =? 0 then 1 else 0).
Proof.
  unfold loop_body. destruct (x =? 0).
  - destruct (_ =? 3); [done|]. by intros [= <-].
  - destruct (find_continued_fraction_convergent x n N) as [[n' d]|e];
      [|done].
    destruct (floordiv _ _); [|done].
    destruct (pow g _ N); [|done].
    intros [= <-]. simpl. lia.
Qed.

(** The counter of a running loop is the number of zero measurements it
    has been given, and its period candidate stays non-negative. *)
Lemma while_loop_pending_counter (N g : Z) (ms : list (Z * Z)) :
  ∀ st st',
    while_loop N g st ms = Pending st' →
    number_of_zero_measurements st' =
      number_of_zero_measurements st + Z.of_nat (zero_measurements ms)
    ∧ (0 ≤ period st → 0 ≤ period st').
Proof.
  induction ms as [|[x n] ms IH]; intros st st'.
  - rewrite while_loop_nil.
    destruct (remainder st =? 1); [done|]. intros [= <-].
    split; [simpl; lia|auto].
  - rewrite while_loop_cons.
    destruct (remainder st =? 1); [done|].
    destruct (loop_body N g st (x, n)) as [st1| |] eqn:Hb; [|done|done].
    intros Hrun. destruct (IH _ _ Hrun) as [Hc Hp].
    pose proof (loop_body_counter _ _ _ _ _ _ Hb) as Hc1.
    split.
    + rewrite Hc, Hc1. simpl. destruct (x =? 0); lia.
    + intros H0. apply Hp. by eapply loop_body_period_nonneg.
Qed.

(** The loop returns -1 only through the abort, at a zero measurement
    that brings the counter to 3. *)
Lemma while_loop_abort (N g : Z) (ms : list (Z * Z)) :
  ∀ st,
    0 ≤ period st →
    while_loop N g st ms = Finished (-1) →
    ∃ pre n post st',
      ms = pre ++ (0, n) :: post
      ∧ while_loop N g st pre = Pending st'
      ∧ number_of_zero_measurements st' = 2.
Proof.
  induction ms as [|[x n] ms IH]; intros st Hp.
  - rewrite while_loop_nil.
    destruct (remainder st =? 1); [|done]. intros [= Hm]. lia.
  - rewrite while_loop_cons.
    destruct (Z.eqb_spec (remainder st) 1) as [|Hr]; [intros [= Hm]; lia|].
    destruct (loop_body N g st (x, n)) as [st1|v|] eqn:Hb; [| |done].
    + intros Hrun.
      destruct (IH st1 ltac:(by eapply loop_body_period_nonneg) Hrun)
        as (pre & n' & post & st' & -> & Hpre & Hc).
      exists ((x, n) :: pre), n', post, st'.
      split; [done|]. split; [|done].
      rewrite while_loop_cons.
      destruct (Z.eqb_spec (remainder st) 1); [done|].
      by rewrite Hb.
    + intros [= ->].
      unfold loop_body in Hb.
      destruct (Z.eqb_spec x 0) as [->|Hx].
      * destruct (Z.eqb_spec (number_of_zero_measurements st + 1) 3);
          [|done].
        exists [], n, ms, st. split; [done|]. split; [|lia].
        rewrite while_loop_nil.
        by destruct (Z.eqb_spec (remainder st) 1).
      * destruct (find_continued_fraction_convergent x n N) as [[n' d]|e];
          [|done].
        destruct (floordiv _ _); [|done].
        by destruct (pow g _ N).
Qed.

(** C3, as the claim states it, fails: on the measurements
    0, 512/1024, 0, 512/1024, 0 for the number 21 and the guess 11 the
    finder returns -1 at the fifth measurement (it was still running
    after four), although no three consecutive measurements were 0: the
    non-zero measurements in between do not reset the counter. *)
Lemma abort_without_consecutive_zeros :
  let ms := [(0, 1024); (512, 1024); (0, 1024); (512, 1024)] in
  find_period_of_modular_exponentiation 21 11 (ms ++ [(0, 1024)])
    = Finished (-1)
  ∧ find_period_of_modular_exponentiation 21 11 ms = Pending (Locals 2 16 2)
  ∧ three_consecutive_zeros (ms ++ [(0, 1024)]) = false.
Proof. by vm_compute. Qed.

(** C3 (amended): for every sequence of measurement results, each
    measurement that is exactly 0 increments the zero-counter, which is
    never reset by the non-zero measurements processed in between, so that
    the counter of a running finder is the number of zero measurements it
    has received; and the finder returns the sentinel -1 exactly when it
    receives a zero measurement after two earlier zero measurements
    (consecutive or not) while it is still running: the abort bound is
    the constant 3. *)
Theorem zero_measurement_abort (N g : Z) (ms : list (Z * Z)) :
  (∀ st, find_period_of_modular_exponentiation N g ms = Pending st →
         number_of_zero_measurements st = Z.of_nat (zero_measurements ms))
  ∧ (find_period_of_modular_exponentiation N g ms = Finished (-1)
     ↔ ∃ pre n post st,
         ms = pre ++ (0, n) :: post
         ∧ zero_measurements pre = 2%nat
         ∧ find_period_of_modular_exponentiation N g pre = Pending st).
Proof.
  unfold find_period_of_modular_exponentiation. split.
  - intros st Hrun.
    by destruct (while_loop_pending_counter _ _ _ _ _ Hrun) as [-> _].
  - split.
    + intros Hrun.
      destruct (while_loop_abort N g ms (Locals 1 0 0) ltac:(simpl; lia) Hrun)
        as (pre & n & post & st' & -> & Hpre & Hc).
      exists pre, n, post, st'. split; [done|]. split; [|done].
      destruct (while_loop_pending_counter _ _ _ _ _ Hpre) as [Hc' _].
      simpl in Hc'. lia.
    + intros (pre & n & post & st & -> & Hz & Hpre).
      rewrite while_loop_app, Hpre.
      pose proof (while_loop_pending_remainder _ _ _ _ _ Hpre) as Hr.
      destruct (while_loop_pending_counter _ _ _ _ _ Hpre) as [Hc _].
      simpl in Hc. rewrite while_loop_cons.
      destruct (Z.eqb_spec (remainder st) 1); [done|].
      rewrite loop_body_zero.
      by destruct (Z.eqb_spec (number_of_zero_measurements st + 1) 3); [|lia].
Qed.

(** The period candidate of a running finder is at least 1 when the
    number to factor is. *)
Lemma while_loop_pending_period (N g : Z) (ms : list (Z * Z)) :
  1 ≤ N →
  ∀ st st', 1 ≤ period st →
            while_loop N g st ms = Pending st' → 1 ≤ period st'.
Proof.
  intros HN. induction ms as [|[x n] ms IH]; intros st st' Hp.
  - rewrite while_loop_nil. destruct (remainder st =? 1); [done|].
    by intros [= <-].
  - rewrite while_loop_cons. destruct (remainder st =? 1); [done|].
    destruct (loop_body N g st (x, n)) as [st1| |] eqn:Hb; [|done|done].
    apply IH. unfold loop_body in Hb.
    destruct (x =? 0).
    + destruct (_ =? 3); [done|]. by injection Hb as <-.
    + destruct (find_continued_fraction_convergent x n N) as [[n' d]|e] eqn:Hc;
        [|done].
      apply convergent_denominator_nonneg in Hc as [_ Hd].
      destruct (lcm_update d (period st) (Hd HN) Hp) as [Hdiv Hle].
      rewrite Hdiv in Hb.
      destruct (pow g _ N); [|done].
      injection Hb as <-. simpl. lia.
Qed.

(** C9: in a run of the period finder on a number to factor [N >= 1],
    take any point where the loop is still running, with candidate
    [period st], and give it one more measurement [m].  A zero measurement
    leaves the candidate as it is.  A non-zero measurement [X'/M] makes
    the candidate [lcm (period st) d], for [d] the denominator of the
    convergent of [X'/M] bounded by [N]; the new candidate is at least
    the previous one; and the finder returns it exactly when
    [guess ^ candidate mod N = 1], going round the loop again with it
    otherwise. *)
Theorem period_candidate_update (N g : Z) (ms : list (Z * Z))
    (st : locals) (m : Z * Z) :
  1 ≤ N →
  find_period_of_modular_exponentiation N g ms = Pending st →
  1 ≤ period st
  ∧ (m.1 = 0 →
       find_period_of_modular_exponentiation N g (ms ++ [m]) =
         if number_of_zero_measurements st + 1 =? 3 then Finished (-1)
         else Pending (Locals (period st) (remainder st)
                         (number_of_zero_measurements st + 1)))
  ∧ (m.1 ≠ 0 → m.2 ≠ 0 →
       ∃ n d,
         find_continued_fraction_convergent m.1 m.2 N = Ok (n, d)
         ∧ period st ≤ Z.lcm (period st) d
         ∧ find_period_of_modular_exponentiation N g (ms ++ [m]) =
             if g ^ Z.lcm (period st) d mod N =? 1
             then Finished (Z.lcm (period st) d)
             else Pending (Locals (Z.lcm (period st) d)
                             (g ^ Z.lcm (period st) d mod N)
                             (number_of_zero_measurements st))).
Proof.
  unfold find_period_of_modular_exponentiation. intros HN Hrun.
  pose proof (while_loop_pending_period N g ms HN (Locals 1 0 0) st
                (Z.le_refl 1) Hrun) as Hp.
  pose proof (while_loop_pending_remainder _ _ _ _ _ Hrun) as Hr.
  split; [exact Hp|].
  destruct m as [x M]. simpl fst. simpl snd.
  rewrite while_loop_app, Hrun, while_loop_cons.
  destruct (Z.eqb_spec (remainder st) 1); [done|].
  split.
  - intros ->. rewrite loop_body_zero.
    destruct (_ =? 3); [done|].
    rewrite while_loop_nil. simpl.
    by destruct (Z.eqb_spec (remainder st) 1).
  - intros Hx HM.
    destruct (find_continued_fraction_convergent x M N) as [[n' d]|e] eqn:Hc.
    + exists n', d. split; [done|].
      pose proof Hc as Hd.
      apply convergent_denominator_nonneg in Hd as [_ Hd].
      destruct (lcm_update d (period st) (Hd HN) Hp) as [Hdiv Hle].
      split; [exact Hle|].
      unfold loop_body.
      destruct (Z.eqb_spec x 0); [done|].
      rewrite Hc, Hdiv.
      unfold pow.
      destruct (Z.eqb_spec N 0); [lia|].
      destruct (Z.ltb_spec (Z.lcm (period st) d) 0); [lia|].
      rewrite while_loop_nil. simpl.
      by destruct (_ =? 1).
    + exfalso.
      destruct (Z_lt_le_dec N 1); [lia|].
      destruct (convergent_search_correct x M N HM ltac:(lia))
        as (k & n' & d' & Hret & _).
      rewrite Hc in Hret. discriminate Hret.
Qed.

Lemma period_candidate_update_witness :
  1 ≤ period (Locals 2 16 0)
  ∧ ∃ n d,
      find_continued_fraction_convergent 171 1024 21 = Ok (n, d)
      ∧ 2 ≤ Z.lcm 2 d
      ∧ find_period_of_modular_exponentiation 21 11
          [(512, 1024); (171, 1024)] =
          if 11 ^ Z.lcm 2 d mod 21 =? 1
          then Finished (Z.lcm 2 d)
          else Pending (Locals (Z.lcm 2 d) (11 ^ Z.lcm 2 d mod 21) 0).
Proof.
  destruct (period_candidate_update 21 11 [(512, 1024)] (Locals 2 16 0)
              (171, 1024) ltac:(lia) ltac:(by vm_compute))
    as (H1 & _ & H3).
  split; [exact H1|].
  apply H3; simpl; lia.
Defined.

End PeriodFinderFacts.

(** ** The classical factoring loop *)

Section RunShorFacts.
Import ShorTests.

Variable find_period : Z → Z → Z.

Lemma gcd_mod_shift (N x c : Z) :
  N ≠ 0 → Z.gcd N (x mod N + c) = Z.gcd N (x + c).
Proof.
  intros HN.
  rewrite (Z.div_mod x N HN) at 2.
  replace (N * (x / N) + x mod N + c) with (x mod N + c + (x / N) * N)
    by lia.
  by rewrite Z.gcd_add_mult_diag_r.
Qed.

(** The three sanity checks of the source ([factor < 2 or factor > N] for
    both factors, then the product) accept exactly the pairs of factors
    in [2, N) whose product is [N]. *)
Lemma sanity_checks_iff (N a b : Z) :
  ((a <? 2) || (a >? N) = false
   ∧ (b <? 2) || (b >? N) = false
   ∧ negb (a * b =? N) = false)
  ↔ (2 ≤ a < N ∧ 2 ≤ b < N ∧ a * b = N).
Proof.
  rewrite !orb_false_iff, negb_false_iff.
  rewrite !Z.ltb_ge, !Z.gtb_ltb, !Z.ltb_ge, Z.eqb_eq.
  split; [intros ((Ha1 & Ha2) & (Hb1 & Hb2) & Hab)|intros (Ha & Hb & Hab)].
  - repeat split; try lia; nia.
  - repeat split; lia.
Qed.

(** C4: when the period finder returns, for a guess coprime to [N], a
    period that is not the abort sentinel, is even, and is not degenerate
    ([guess ^ (period / 2) mod N] is neither 1 nor [N - 1]), the two
    candidate factors are [gcd N (guess ^ (period / 2) + 1)] and
    [gcd N (guess ^ (period / 2) - 1)]; the loop returns this pair if
    both lie in [2, N) and their product is [N], and otherwise it
    carries on with the next guess, whatever check failed. *)
Theorem run_shor_factor_check (N guess : Z) (rest : list Z) :
  let period := find_period N guess in
  let factor_a := Z.gcd N (guess ^ (period / 2) + 1) in
  let factor_b := Z.gcd N (guess ^ (period / 2) - 1) in
  0 < N →
  Z.gcd N guess = 1 →
  0 ≤ period →
  period mod 2 ≠ 1 →
  guess ^ (period / 2) mod N ≠ 1 →
  guess ^ (period / 2) mod N ≠ N - 1 →
  guess_loop find_period N (guess :: rest) =
    if decide (2 ≤ factor_a < N ∧ 2 ≤ factor_b < N ∧ factor_a * factor_b = N)
    then Ok (factor_a, factor_b)
    else guess_loop find_period N rest.
Proof.
  intros period factor_a factor_b HN Hg Hp Heven Hb1 Hb2.
  cbn [guess_loop]. fold period.
  rewrite Hg. simpl negb. cbv iota.
  destruct (Z.eqb_spec period (-1)); [lia|].
  destruct (Z.eqb_spec (period mod 2) 1); [done|].
  unfold pow.
  destruct (Z.eqb_spec N 0); [lia|].
  destruct (Z.ltb_spec (period / 2) 0) as [Hneg|_].
  { pose proof (Z.div_pos period 2 Hp ltac:(lia)). lia. }
  destruct (Z.eqb_spec (guess ^ (period / 2) mod N) 1); [done|].
  destruct (Z.eqb_spec (guess ^ (period / 2) mod N) (N - 1)); [done|].
  simpl orb. cbv iota.
  rewrite (gcd_mod_shift N _ 1) by done.
  replace (guess ^ (period / 2) mod N - 1)
    with (guess ^ (period / 2) mod N + (-1)) by lia.
  rewrite (gcd_mod_shift N _ (-1)) by done.
  replace (guess ^ (period / 2) + -1) with (guess ^ (period / 2) - 1) by lia.
  fold factor_a factor_b.
  pose proof (sanity_checks_iff N factor_a factor_b) as Hiff.
  destruct ((factor_a <? 2) || (factor_a >? N)) eqn:Ea.
  { destruct (decide _) as [Hyes|]; [|done].
    apply Hiff in Hyes as [? _]. done. }
  destruct ((factor_b <? 2) || (factor_b >? N)) eqn:Eb.
  { destruct (decide _) as [Hyes|]; [|done].
    apply Hiff in Hyes as (_ & ? & _). done. }
  destruct (negb (factor_a * factor_b =? N)) eqn:Eab.
  { destruct (decide _) as [Hyes|]; [|done].
    apply Hiff in Hyes as (_ & _ & ?). done. }
  destruct (decide _) as [|Hno]; [done|].
  exfalso. apply Hno, Hiff. done.
Qed.

End RunShorFacts.

(** On 15, with a period finder that answers 4 for every guess, the
    guess 7 passes every check: 7^2 mod 15 = 4, and the factors are
    gcd(15, 50) = 5 and gcd(15, 48) = 3. *)
Lemma run_shor_factor_check_witness :
  ShorTests.guess_loop (λ _ _, 4) 15 [7; 8] = Ok (5, 3).
Proof.
  rewrite (run_shor_factor_check (λ _ _, 4) 15 7 [8]);
    [reflexivity | lia | reflexivity | simpl; lia | | | ];
    by vm_compute.
Defined.

(** ** Gaussian elimination: the index-based code and the recursion on rows *)

Section EliminationRefinement.
Import MatrixMath GF2.

Implicit Types (r p : list bool) (m rows : list (list bool)).

Lemma index_lookup {A : Type} (l : list A) (i : nat) (x : A) :
  l !! i = Some x → index l i = Ok x.
Proof. unfold index. by intros ->. Qed.

Lemma index_middle {A : Type} (l1 l2 : list A) (x : A) :
  index (l1 ++ x :: l2) (length l1) = Ok x.
Proof. apply index_lookup. by apply list_lookup_middle. Qed.

Lemma assign_lt {A : Type} (l : list A) (i : nat) (x : A) :
  (i < length l)%nat → assign l i x = Ok (<[i := x]> l).
Proof. intros Hi. unfold assign. by destruct (decide _). Qed.

Lemma assign_middle {A : Type} (l1 l2 : list A) (x y : A) :
  assign (l1 ++ x :: l2) (length l1) y = Ok (l1 ++ y :: l2).
Proof.
  rewrite assign_lt by (rewrite length_app; simpl; lia).
  f_equal.
  replace (length l1) with (length l1 + 0)%nat at 1 by lia.
  by rewrite insert_app_r.
Qed.

(** *** Finding the pivot *)

Lemma split_pivot_Some (c : nat) rows pre p post :
  split_pivot c rows = Some (pre, p, post) →
  rows = pre ++ p :: post
  ∧ p !! c = Some true
  ∧ Forall (λ r, r !! c ≠ Some true) pre.
Proof.
  revert pre. induction rows as [|r rows IH]; intros pre; simpl; [done|].
  destruct (r !! c) as [[|]|] eqn:Hr.
  - intros [= <- <- <-]. by repeat split.
  - destruct (split_pivot c rows) as [[[pre' p'] post']|]; [|done].
    intros [= <- <- <-].
    destruct (IH pre' eq_refl) as (-> & Hp & Hpre).
    repeat split; [done|]. constructor; [congruence|done].
  - destruct (split_pivot c rows) as [[[pre' p'] post']|]; [|done].
    intros [= <- <- <-].
    destruct (IH pre' eq_refl) as (-> & Hp & Hpre).
    repeat split; [done|]. constructor; [congruence|done].
Qed.

Lemma split_pivot_None (c : nat) rows :
  split_pivot c rows = None → Forall (λ r, r !! c ≠ Some true) rows.
Proof.
  induction rows as [|r rows IH]; simpl; [constructor|].
  destruct (r !! c) as [[|]|] eqn:Hr; [done| |];
    (destruct (split_pivot c rows) as [[[pre' p'] post']|]; [done|]);
    intros _; (constructor; [congruence|by apply IH]).
Qed.

Lemma find_pivot_row_from_split (c : nat) rows :
  Forall (λ r, c < length r)%nat rows →
  ∀ i,
    find_pivot_row_from rows c i =
      Ok (match split_pivot c rows with
          | Some (pre, _, _) => Some (i + length pre)%nat
          | None => None
          end).
Proof.
  induction 1 as [|r rows Hr _ IH]; intros i; simpl; [done|].
  apply lookup_lt_is_Some_2 in Hr as [b Hb].
  rewrite (index_lookup _ _ _ Hb). simpl. rewrite Hb.
  destruct b.
  - do 2 f_equal. simpl. lia.
  - rewrite IH.
    destruct (split_pivot c rows) as [[[pre p] post]|]; [|done].
    do 2 f_equal. simpl. lia.
Qed.

Lemma find_pivot_row_split (c : nat) (above rows : list (list bool)) :
  Forall (λ r, c < length r)%nat rows →
  find_pivot_row (above ++ rows) c (length above) =
    Ok (match split_pivot c rows with
        | Some (pre, _, _) => Some (length above + length pre)%nat
        | None => None
        end).
Proof.
  intros Hrows. unfold find_pivot_row.
  rewrite drop_app_length. by apply find_pivot_row_from_split.
Qed.

(** *** Swapping *)

Lemma swap_rows_middle (A B C : list (list bool)) (x y : list bool) :
  swap_rows (A ++ x :: B ++ y :: C) (length A + S (length B)) (length A)
  = Ok (A ++ y :: B ++ x :: C).
Proof.
  unfold swap_rows.
  assert ((A ++ x :: B ++ y :: C) !! (length A + S (length B))%nat = Some y)
    as Hy.
  { rewrite lookup_app_r by lia.
    replace (length A + S (length B) - length A)%nat with (S (length B))
      by lia.
    simpl. by apply list_lookup_middle. }
  rewrite (index_lookup _ _ _ Hy). cbn [mbind result_bind].
  rewrite index_middle. cbn [mbind result_bind].
  rewrite assign_lt
    by (rewrite !length_app; simpl; rewrite length_app; simpl; lia).
  cbn [mbind result_bind].
  rewrite insert_app_r.
  change (<[S (length B):=x]> (x :: B ++ y :: C))
    with (x :: <[length B:=x]> (B ++ y :: C)).
  replace (length B) with (length B + 0)%nat at 1 by lia.
  rewrite insert_app_r.
  change (<[0%nat:=x]> (y :: C)) with (x :: C).
  by rewrite assign_middle.
Qed.

(** *** XORing the pivot row into a row *)

Lemma xor_columns_from (n : nat) :
  ∀ (c : nat) (t s : list bool),
    length t = length s → (c + n)%nat = length s →
    xor_columns (seq c n) t s = Ok (xor_from c t s).
Proof.
  induction n as [|n IH]; intros c t s Hts Hcn; simpl.
  - unfold xor_from. rewrite take_ge, !drop_ge by lia.
    by rewrite app_nil_r.
  - destruct (lookup_lt_is_Some_2 t c ltac:(lia)) as [tc Htc].
    destruct (lookup_lt_is_Some_2 s c ltac:(lia)) as [sc Hsc].
    rewrite (index_lookup _ _ _ Htc), (index_lookup _ _ _ Hsc). simpl.
    rewrite assign_lt by lia. simpl.
    rewrite IH by (rewrite ?length_insert; lia).
    f_equal. unfold xor_from.
    rewrite (take_S_r (<[c:=xorb tc sc]> t) c (xorb tc sc))
      by (apply list_lookup_insert_eq; lia).
    rewrite take_insert_ge, drop_insert_lt by lia.
    rewrite (drop_S t tc c Htc), (drop_S s sc c Hsc).
    by rewrite <- app_assoc.
Qed.

Lemma reduce_rows_loop_map (c w : nat) (p : list bool) rest :
  length p = w → (c < w)%nat → rectangular w rest →
  ∀ pfx,
    reduce_rows_loop (seq (length pfx) (length rest)) (pfx ++ rest) p c
    = Ok (pfx ++ (reduce_row c p <$> rest)).
Proof.
  intros Hp Hc. induction 1 as [|r rest Hr _ IH]; intros pfx; simpl.
  - done.
  - rewrite index_middle. simpl.
    destruct (lookup_lt_is_Some_2 r c ltac:(lia)) as [b Hb].
    rewrite (index_lookup _ _ _ Hb). simpl.
    assert (∀ r', pfx ++ r' :: rest = (pfx ++ [r']) ++ rest) as Hassoc
      by (intros; by rewrite <- app_assoc).
    assert (S (length pfx) = length (pfx ++ [r])) as Hlen
      by (rewrite length_app; simpl; lia).
    unfold reduce_row at 1. rewrite Hb.
    destruct b.
    + rewrite xor_columns_from by lia. simpl.
      rewrite assign_middle. simpl.
      rewrite (Hassoc (xor_from c r p)).
      replace (S (length pfx)) with (length (pfx ++ [xor_from c r p]))
        by (rewrite length_app; simpl; lia).
      rewrite IH. by rewrite <- app_assoc.
    + cbn [mbind result_bind].
      rewrite Hlen, (Hassoc r), IH. by rewrite <- app_assoc.
Qed.

Lemma reduce_rows_map (c w : nat) (above rest : list (list bool))
    (p : list bool) :
  length p = w → (c < w)%nat → rectangular w rest →
  reduce_rows (above ++ p :: rest) (length above) c
  = Ok (above ++ p :: (reduce_row c p <$> rest)).
Proof.
  intros Hp Hc Hrest. unfold reduce_rows.
  rewrite index_middle. simpl.
  replace (length (above ++ p :: rest) - S (length above))%nat
    with (length rest) by (rewrite length_app; simpl; lia).
  replace (S (length above)) with (length (above ++ [p]))
    by (rewrite length_app; simpl; lia).
  replace (above ++ p :: rest) with ((above ++ [p]) ++ rest)
    by (by rewrite <- app_assoc).
  rewrite (reduce_rows_loop_map c w) by done.
  by rewrite <- app_assoc.
Qed.

(** *** The whole loop *)

Lemma eliminate_nil (cols : list nat) : eliminate cols [] = [].
Proof. induction cols as [|c cols IH]; simpl; done. Qed.

Lemma length_xor_from (c : nat) (t s : list bool) :
  length t = length s → length (xor_from c t s) = length t.
Proof.
  intros Hts. unfold xor_from, xor_row.
  rewrite length_app, length_take, length_zip_with, !length_drop. lia.
Qed.

Lemma length_reduce_row (c : nat) (p r : list bool) :
  length r = length p → length (reduce_row c p r) = length r.
Proof.
  intros Hrp. unfold reduce_row.
  destruct (r !! c) as [[|]|]; [|done|done].
  by apply length_xor_from.
Qed.

Lemma rectangular_reduce (c w : nat) (p : list bool) rows :
  length p = w → rectangular w rows →
  rectangular w (reduce_row c p <$> rows).
Proof.
  intros Hp Hrows. apply Forall_fmap. eapply Forall_impl; [exact Hrows|].
  intros r Hr. simpl. rewrite length_reduce_row; congruence.
Qed.

Lemma below_pivot_perm (pre post : list (list bool)) :
  below_pivot pre post ≡ₚ pre ++ post.
Proof.
  destruct pre as [|top pre]; simpl; [done|].
  by rewrite Permutation_middle.
Qed.

Lemma rectangular_split (w : nat) (pre post : list (list bool))
    (p : list bool) :
  rectangular w (pre ++ p :: post) →
  length p = w ∧ rectangular w (below_pivot pre post).
Proof.
  unfold rectangular. rewrite Forall_app, Forall_cons.
  intros (Hpre & Hp & Hpost). split; [done|].
  rewrite below_pivot_perm. by apply Forall_app.
Qed.

Lemma rectangular_eliminate (w : nat) (cols : list nat) :
  ∀ rows, rectangular w rows → rectangular w (eliminate cols rows).
Proof.
  induction cols as [|c cols IH]; intros rows Hrows; simpl; [done|].
  destruct (split_pivot c rows) as [[[pre p] post]|] eqn:Hs; [|by apply IH].
  apply split_pivot_Some in Hs as (-> & _ & _).
  apply rectangular_split in Hrows as [Hp Hbelow].
  constructor; [done|]. apply IH. by apply rectangular_reduce.
Qed.

Lemma length_eliminate (cols : list nat) :
  ∀ rows, length (eliminate cols rows) = length rows.
Proof.
  induction cols as [|c cols IH]; intros rows; simpl; [done|].
  destruct (split_pivot c rows) as [[[pre p] post]|] eqn:Hs; [|by apply IH].
  apply split_pivot_Some in Hs as (-> & _ & _).
  simpl. rewrite IH, length_fmap, below_pivot_perm, !length_app. simpl. lia.
Qed.

(** On a matrix whose rows from [current_row] on all have [w] entries,
    the column loop never raises, leaves the rows above [current_row] as
    they are, and eliminates in the rows below. *)
Lemma column_loop_eliminate (w : nat) (cols : list nat) :
  Forall (λ c, c < w)%nat cols →
  ∀ above rows,
    rectangular w rows →
    column_loop cols (length above + length rows) (length above) (above ++ rows)
    = Ok (above ++ eliminate cols rows).
Proof.
  induction 1 as [|c cols Hc _ IH]; intros above rows Hrows; [done|].
  cbn [column_loop eliminate].
  rewrite find_pivot_row_split
    by (eapply Forall_impl; [exact Hrows|]; simpl; intros; lia).
  cbn [mbind result_bind].
  destruct (split_pivot c rows) as [[[pre p] post]|] eqn:Hs; [|by apply IH].
  apply split_pivot_Some in Hs as (-> & _ & _).
  destruct (rectangular_split _ _ _ _ Hrows) as [Hp Hbelow].
  assert ((if decide (length above < length above + length pre)%nat
           then swap_rows (above ++ pre ++ p :: post)
                  (length above + length pre) (length above)
           else Ok (above ++ pre ++ p :: post))
          = Ok (above ++ p :: below_pivot pre post)) as ->.
  { destruct pre as [|top pre]; simpl.
    - destruct (decide _); [lia|done].
    - destruct (decide _); [|lia]. apply swap_rows_middle. }
  cbn [mbind result_bind].
  rewrite (reduce_rows_map c w) by done.
  cbn [mbind result_bind].
  pose proof (below_pivot_perm pre post) as Hperm.
  apply Permutation_length in Hperm.
  rewrite !length_app in *. simpl in *.
  destruct (decide (S (length above) = length above + (length pre + S (length post)))%nat)
    as [Hlast|Hmore].
  - assert (below_pivot pre post = []) as -> by (apply nil_length_inv; lia).
    simpl. by rewrite eliminate_nil.
  - specialize (IH (above ++ [p]) (reduce_row c p <$> below_pivot pre post)
                  (rectangular_reduce c w p _ Hp Hbelow)).
    rewrite length_app, length_fmap in IH. simpl in IH.
    replace (length above + 1 + length (below_pivot pre post))%nat
      with (length above + (length pre + S (length post)))%nat in IH by lia.
    replace (length above + 1)%nat with (S (length above)) in IH by lia.
    rewrite <- app_assoc in IH. simpl in IH.
    rewrite IH. by rewrite <- app_assoc.
Qed.

(** The reduction of a non-empty matrix with rows of equal length returns,
    and what it returns is [eliminate] over all columns. *)
Lemma convert_eliminate (w : nat) (m : list (list bool)) :
  m ≠ [] → rectangular w m →
  convert_to_reduced_row_echelon_form m = Ok (eliminate (seq 0 w) m).
Proof.
  intros Hne Hm. unfold convert_to_reduced_row_echelon_form.
  destruct m as [|r0 m']; [done|].
  cbn [index lookup list_lookup mbind result_bind].
  pose proof (Forall_inv Hm) as Hr0. simpl in Hr0. rewrite Hr0.
  apply (column_loop_eliminate w (seq 0 w)
           ltac:(apply Forall_seq; intros; lia) [] (r0 :: m') Hm).
Qed.

Lemma convert_empty : convert_to_reduced_row_echelon_form [] = Raise IndexError.
Proof. reflexivity. Qed.

End EliminationRefinement.

(** ** The result of the elimination is in echelon form, and stays put *)

Section EchelonFacts.
Import MatrixMath GF2.

Implicit Types (r p : list bool) (m rows : list (list bool)).

Lemma leading_None_no_true r (j : nat) :
  leading r = None → r !! j ≠ Some true.
Proof.
  revert j. induction r as [|b r IH]; intros j; simpl; [done|].
  destruct b; [done|].
  destruct (leading r) eqn:Hl; [done|]. intros _.
  destruct j as [|j]; simpl; [done|]. by apply IH.
Qed.

Lemma leading_Some_lookup r (k : nat) :
  leading r = Some k → r !! k = Some true.
Proof.
  revert k. induction r as [|b r IH]; intros k; simpl; [done|].
  destruct b; [by intros [= <-]|].
  destruct (leading r) as [k'|] eqn:Hl; [|done].
  intros [= <-]. simpl. by apply IH.
Qed.

Lemma leading_Some_no_true_before r (k j : nat) :
  leading r = Some k → (j < k)%nat → r !! j ≠ Some true.
Proof.
  revert k j. induction r as [|b r IH]; intros k j; simpl; [done|].
  destruct b; [intros [= <-]; lia|].
  destruct (leading r) as [k'|] eqn:Hl; [|done].
  intros [= <-] Hj.
  destruct j as [|j]; simpl; [done|]. apply (IH k'); [done|lia].
Qed.

Lemma leading_zero (w : nat) : leading (zero w) = None.
Proof.
  unfold zero. induction w as [|w IH]; simpl; [done|]. by rewrite IH.
Qed.

Lemma leading_None_zero r : leading r = None → r = zero (length r).
Proof.
  induction r as [|b r IH]; simpl; [done|].
  destruct b; [done|].
  destruct (leading r); [done|]. intros _. unfold zero in *. simpl.
  f_equal. by apply IH.
Qed.

(** A row of [w] entries whose first [c] entries are 0 and whose entry [c]
    is 1 has its leading 1 in column [c]. *)
Lemma leading_pivot r (c : nat) :
  zeros_before c r → r !! c = Some true → leading r = Some c.
Proof.
  unfold zeros_before, zero.
  revert c. induction r as [|b r IH]; intros c; [done|].
  destruct c as [|c]; simpl.
  - by intros _ [= ->].
  - intros [= -> Hz] Hc. by rewrite (IH c Hz Hc).
Qed.

Lemma zeros_before_all r (w : nat) :
  length r = w → zeros_before w r → leading r = None.
Proof.
  unfold zeros_before. intros <- Hz.
  rewrite take_ge in Hz by lia. rewrite Hz. apply leading_zero.
Qed.

Lemma zeros_before_S r (c : nat) :
  zeros_before c r → r !! c = Some false → zeros_before (S c) r.
Proof.
  unfold zeros_before, zero. intros Hz Hc.
  rewrite (take_S_r r c false Hc), Hz.
  by rewrite <- replicate_S_end.
Qed.

Lemma lookup_not_true r (c : nat) :
  (c < length r)%nat → r !! c ≠ Some true → r !! c = Some false.
Proof.
  intros Hc Hn. destruct (lookup_lt_is_Some_2 r c Hc) as [[|] Hb]; done.
Qed.

Lemma reduce_row_zeros (c : nat) (p r : list bool) :
  length r = length p → (c < length p)%nat →
  p !! c = Some true → zeros_before c r →
  zeros_before (S c) (reduce_row c p r).
Proof.
  intros Hlen Hc Hp Hz. unfold reduce_row.
  destruct (r !! c) as [[|]|] eqn:Hr.
  - unfold zeros_before, zero in *. unfold xor_from.
    rewrite (drop_S r true c Hr), (drop_S p true c Hp). simpl.
    rewrite take_app_ge by (rewrite length_take; lia).
    rewrite length_take.
    replace (S c - c `min` length r)%nat with 1%nat by lia.
    simpl. rewrite take_0, Hz. by rewrite <- replicate_S_end.
  - by apply zeros_before_S.
  - apply lookup_ge_None in Hr. lia.
Qed.

Lemma reduce_row_id (c : nat) (p r : list bool) :
  r !! c ≠ Some true → reduce_row c p r = r.
Proof. unfold reduce_row. by destruct (r !! c) as [[|]|]. Qed.

Lemma echelon_from_zero_rows (c : nat) rows :
  Forall (λ r, leading r = None) rows → echelon_from c rows = true.
Proof.
  intros Hrows. destruct Hrows as [|r rows Hr Hrows]; simpl; [done|].
  rewrite Hr. apply Is_true_true, forallb_True, Forall_impl with (1 := Hrows).
  intros r' Hr'. by apply bool_decide_pack.
Qed.

Lemma echelon_from_le (c c' : nat) rows :
  (c ≤ c')%nat → echelon_from c' rows = true → echelon_from c rows = true.
Proof.
  intros Hle. destruct rows as [|r rows]; simpl; [done|].
  destruct (leading r) as [k|]; [|done].
  rewrite !andb_true_iff, !bool_decide_eq_true. intros [? ?]. split; [lia|done].
Qed.

(** The elimination from column [c] on, applied to rows that are zero
    before column [c], yields an echelon matrix. *)
Lemma eliminate_echelon (w n : nat) :
  ∀ (c : nat) rows,
    (c + n)%nat = w → rectangular w rows →
    Forall (zeros_before c) rows →
    echelon_from c (eliminate (seq c n) rows) = true.
Proof.
  induction n as [|n IH]; intros c rows Hcn Hrect Hz.
  - simpl. apply echelon_from_zero_rows.
    apply Forall_impl with (P := λ r, length r = w ∧ zeros_before c r).
    { clear -Hrect Hz. induction Hrect; inversion Hz; subst; constructor; auto. }
    intros r [Hr Hzr]. apply (zeros_before_all r w); [done|].
    by replace w with c by lia.
  - cbn [seq eliminate].
    destruct (split_pivot c rows) as [[[pre p] post]|] eqn:Hs.
    + apply split_pivot_Some in Hs as (-> & Hp & Hpre).
      destruct (rectangular_split _ _ _ _ Hrect) as [Hlp Hbelow].
      assert (Forall (zeros_before c) (p :: below_pivot pre post)) as Hz'.
      { rewrite below_pivot_perm, Permutation_middle. done. }
      apply Forall_cons in Hz' as [Hzp Hzb].
      cbn [echelon_from]. rewrite (leading_pivot p c Hzp Hp).
      apply andb_true_iff. split; [apply bool_decide_eq_true; lia|].
      apply IH; [lia|by apply rectangular_reduce|].
      apply Forall_fmap.
      apply Forall_impl with (P := λ r, length r = w ∧ zeros_before c r).
      { clear -Hbelow Hzb.
        induction Hbelow; inversion Hzb; subst; constructor; auto. }
      intros r [Hr Hzr]. simpl. apply reduce_row_zeros; [congruence|lia|done|done].
    + apply split_pivot_None in Hs.
      apply (echelon_from_le c (S c)); [lia|].
      apply IH; [lia|done|].
      apply Forall_impl with
        (P := λ r, length r = w ∧ zeros_before c r ∧ r !! c ≠ Some true).
      { clear -Hrect Hz Hs.
        induction Hrect; inversion Hz; inversion Hs; subst; constructor; auto. }
      intros r (Hr & Hzr & Hnt). apply zeros_before_S; [done|].
      apply lookup_not_true; [lia|done].
Qed.

(** The rows of an echelon matrix from column [c] on have no 1 before
    column [c]. *)
Lemma echelon_from_no_true (rows : list (list bool)) :
  ∀ (c j : nat),
    echelon_from c rows = true → (j < c)%nat →
    Forall (λ r, r !! j ≠ Some true) rows.
Proof.
  induction rows as [|r rows IH]; intros c j Hech Hj; [constructor|].
  simpl in Hech. destruct (leading r) as [k|] eqn:Hl.
  - apply andb_true_iff in Hech as [Hck Hrest].
    apply bool_decide_eq_true in Hck.
    constructor.
    + apply (leading_Some_no_true_before r k); [done|lia].
    + apply (IH (S k)); [done|lia].
  - constructor; [by apply leading_None_no_true|].
    apply Is_true_true, forallb_True in Hech.
    apply Forall_impl with (1 := Hech).
    intros r' Hr'. apply bool_decide_unpack in Hr'.
    by apply leading_None_no_true.
Qed.

Lemma split_pivot_no_true (c : nat) rows :
  Forall (λ r, r !! c ≠ Some true) rows → split_pivot c rows = None.
Proof.
  induction 1 as [|r rows Hr _ IH]; simpl; [done|].
  rewrite IH. by destruct (r !! c) as [[|]|].
Qed.

Lemma fmap_reduce_row_id (c : nat) (p : list bool) rows :
  Forall (λ r, r !! c ≠ Some true) rows → reduce_row c p <$> rows = rows.
Proof.
  induction 1 as [|r rows Hr _ IH]; [done|].
  by rewrite fmap_cons, reduce_row_id, IH.
Qed.

(** Eliminating in an echelon matrix changes nothing. *)
Lemma eliminate_echelon_id (n : nat) :
  ∀ (c : nat) rows,
    echelon_from c rows = true → eliminate (seq c n) rows = rows.
Proof.
  induction n as [|n IH]; intros c rows Hech; [done|].
  cbn [seq eliminate].
  destruct rows as [|r rows]; [by rewrite eliminate_nil|].
  pose proof Hech as Hech'. simpl in Hech'.
  destruct (leading r) as [k|] eqn:Hl.
  - apply andb_true_iff in Hech' as [Hck Hrest].
    apply bool_decide_eq_true in Hck.
    destruct (decide (c = k)) as [->|Hne].
    + simpl. rewrite (leading_Some_lookup r k Hl). simpl.
      rewrite fmap_reduce_row_id
        by (apply (echelon_from_no_true rows (S k)); [done|lia]).
      by rewrite IH.
    + rewrite split_pivot_no_true.
      * apply IH. simpl. rewrite Hl.
        apply andb_true_iff. split; [apply bool_decide_eq_true; lia|done].
      * constructor.
        -- apply (leading_Some_no_true_before r k); [done|lia].
        -- apply (echelon_from_no_true rows (S k)); [done|lia].
  - rewrite split_pivot_no_true.
    + apply IH. simpl. by rewrite Hl.
    + constructor; [by apply leading_None_no_true|].
      apply Is_true_true, forallb_True in Hech'.
      apply Forall_impl with (1 := Hech').
      intros r' Hr'. apply bool_decide_unpack in Hr'.
      by apply leading_None_no_true.
Qed.

(** C8: the mod-2 Gaussian elimination is idempotent.  On every matrix
    (non-empty, with rows of equal length) the reduction returns a matrix
    in echelon form, and running the reduction again on that result
    returns it unchanged: reducing twice is the same as reducing once. *)
Theorem convert_to_reduced_row_echelon_form_idempotent
    (w : nat) (m : list (list bool)) :
  m ≠ [] → rectangular w m →
  ∃ m',
    convert_to_reduced_row_echelon_form m = Ok m'
    ∧ echelon m' = true
    ∧ convert_to_reduced_row_echelon_form m' = Ok m'.
Proof.
  intros Hne Hrect.
  exists (eliminate (seq 0 w) m).
  assert (echelon (eliminate (seq 0 w) m) = true) as Hech.
  { apply (eliminate_echelon w w 0 m); [lia|done|].
    apply Forall_forall. intros r _. unfold zeros_before. by rewrite take_0. }
  split; [by apply convert_eliminate|]. split; [exact Hech|].
  rewrite (convert_eliminate w).
  - f_equal. by apply eliminate_echelon_id.
  - intros Hnil. apply (f_equal length) in Hnil.
    rewrite length_eliminate in Hnil. by destruct m.
  - by apply rectangular_eliminate.
Qed.

Lemma convert_to_reduced_row_echelon_form_idempotent_witness :
  ∃ m',
    convert_to_reduced_row_echelon_form
      [[false; true; true]; [true; true; false]; [true; false; true]] = Ok m'
    ∧ echelon m' = true
    ∧ convert_to_reduced_row_echelon_form m' = Ok m'.
Proof.
  apply (convert_to_reduced_row_echelon_form_idempotent 3); [done|].
  repeat constructor.
Defined.

End EchelonFacts.

(** ** Linear combinations and independence over GF(2) *)

Section SpanFacts.
Import MatrixMath GF2.

Implicit Types (r p v : list bool) (m rows : list (list bool)).
Implicit Types (l : list (bool * list bool)).

(** *** The algebra of XOR on rows *)

Lemma xor_row_comm (a b : list bool) : xor_row a b = xor_row b a.
Proof.
  unfold xor_row. revert b. induction a as [|x a IH]; intros [|y b]; simpl;
    [done..|].
  by rewrite IH, xorb_comm.
Qed.

Lemma xor_row_assoc (a b c : list bool) :
  xor_row a (xor_row b c) = xor_row (xor_row a b) c.
Proof.
  unfold xor_row. revert b c.
  induction a as [|x a IH]; intros [|y b] [|z c]; simpl; [done..|].
  by rewrite IH, xorb_assoc.
Qed.

Lemma xor_row_zero_r (a : list bool) (w : nat) :
  (length a ≤ w)%nat → xor_row a (zero w) = a.
Proof.
  unfold xor_row, zero. revert w.
  induction a as [|x a IH]; intros [|w] Hw; simpl in *; [done|done|lia|].
  rewrite IH by lia. by rewrite xorb_false_r.
Qed.

Lemma xor_row_self (a : list bool) : xor_row a a = zero (length a).
Proof.
  unfold xor_row, zero. induction a as [|x a IH]; simpl; [done|].
  by rewrite IH, xorb_nilpotent.
Qed.

Lemma length_xor_row (a b : list bool) :
  length a = length b → length (xor_row a b) = length a.
Proof. intros H. unfold xor_row. by rewrite length_zip_with_l_eq. Qed.

Lemma xor_row_cancel (p v : list bool) :
  length v = length p → xor_row p (xor_row p v) = v.
Proof.
  intros Hlen. rewrite xor_row_assoc, xor_row_self, xor_row_comm.
  apply xor_row_zero_r. lia.
Qed.

Lemma xor_row_eq_zero (a b : list bool) (w : nat) :
  length a = w → length b = w → xor_row a b = zero w → a = b.
Proof.
  intros Ha Hb Hz.
  rewrite <- (xor_row_cancel a b) by lia. rewrite Hz.
  symmetry. apply xor_row_zero_r. lia.
Qed.

(** With a source row that is zero before column [c], the partial XOR of
    the code is the sum of the two rows. *)
Lemma xor_from_xor_row (c : nat) (t s : list bool) :
  length t = length s → zeros_before c s → xor_from c t s = xor_row t s.
Proof.
  intros Hlen Hz. unfold xor_from, xor_row, zeros_before in *.
  assert (zip_with xorb t s
          = zip_with xorb (take c t ++ drop c t) (take c s ++ drop c s))
    as -> by (by rewrite !take_drop).
  rewrite zip_with_app by (rewrite !length_take; lia).
  f_equal. rewrite Hz.
  symmetry. apply (xor_row_zero_r (take c t) c).
  rewrite length_take. lia.
Qed.

(** *** Weighted sums *)

Lemma weighted_sum_cons (w : nat) (b : bool) r l :
  weighted_sum w ((b, r) :: l) =
    if b then xor_row r (weighted_sum w l) else weighted_sum w l.
Proof. reflexivity. Qed.

Lemma length_weighted_sum (w : nat) l :
  rectangular w l.*2 → length (weighted_sum w l) = w.
Proof.
  induction l as [|[b r] l IH]; intros Hrect.
  - unfold weighted_sum, zero. simpl. by rewrite length_replicate.
  - rewrite fmap_cons in Hrect. apply Forall_cons in Hrect as [Hr Hl].
    rewrite weighted_sum_cons. specialize (IH Hl).
    destruct b; [|done]. simpl in Hr.
    rewrite length_xor_row; lia.
Qed.

Lemma weighted_sum_perm (w : nat) l l' :
  l ≡ₚ l' → weighted_sum w l = weighted_sum w l'.
Proof.
  induction 1 as [|[b r] l l' _ IH|[b1 r1] [b2 r2] l|l1 l2 l3 _ IH1 _ IH2].
  - done.
  - rewrite !weighted_sum_cons. by rewrite IH.
  - rewrite !weighted_sum_cons. destruct b1, b2; try done.
    rewrite !xor_row_assoc. f_equal. apply xor_row_comm.
  - by rewrite IH1.
Qed.

Lemma weighted_sum_all_false (w : nat) l :
  Forall (λ x, x.1 = false) l → weighted_sum w l = zero w.
Proof.
  induction 1 as [|[b r] l Hb _ IH]; [done|].
  simpl in Hb. subst b. by rewrite weighted_sum_cons.
Qed.

Lemma weighted_sum_no_true (w k : nat) l :
  Forall (λ x, x.2 !! k ≠ Some true) l →
  weighted_sum w l !! k ≠ Some true.
Proof.
  induction 1 as [|[b r] l Hr _ IH].
  - unfold weighted_sum, zero. simpl.
    intros H%lookup_replicate. by destruct H.
  - rewrite weighted_sum_cons. destruct b; [|done].
    unfold xor_row. rewrite lookup_zip_with. simpl in Hr.
    destruct (r !! k) as [[|]|]; [done| |done]. simpl.
    destruct (weighted_sum w l !! k) as [[|]|]; done.
Qed.

(** *** Independence and span through weighted lists *)

Lemma coefficient_vectors_length (n : nat) (cs : list bool) :
  cs ∈ coefficient_vectors n ↔ length cs = n.
Proof.
  revert cs. induction n as [|n IH]; intros cs; simpl.
  - rewrite list_elem_of_singleton. split; [by intros ->|].
    by intros ?%nil_length_inv.
  - rewrite elem_of_app, !list_elem_of_fmap. split.
    + intros [(cs' & -> & Hcs)|(cs' & -> & Hcs)]; simpl; f_equal; by apply IH.
    + destruct cs as [|[|] cs]; simpl; [done| |]; intros [= Hlen].
      * right. exists cs. split; [done|]. by apply IH.
      * left. exists cs. split; [done|]. by apply IH.
Qed.

Lemma independent_weighted (w : nat) rows :
  independent w rows ↔
  ∀ l, l.*2 = rows → weighted_sum w l = zero w →
       Forall (λ x, x.1 = false) l.
Proof.
  unfold independent, combination. rewrite Forall_forall. split.
  - intros Hind l <- Hsum.
    specialize (Hind (l.*1)).
    rewrite coefficient_vectors_length, !length_fmap, zip_fst_snd in Hind.
    specialize (Hind eq_refl Hsum).
    apply Forall_fmap with (f := fst) (P := λ b, b = false).
    rewrite Hind. apply Forall_forall. by intros b [-> _]%elem_of_replicate.
  - intros Hind cs Hlen%coefficient_vectors_length Hsum.
    specialize (Hind (zip cs rows)).
    rewrite snd_zip in Hind by lia.
    specialize (Hind eq_refl Hsum).
    apply Forall_fmap with (f := fst) (P := λ b, b = false) in Hind.
    rewrite fst_zip in Hind by lia.
    symmetry. apply replicate_as_Forall. split; [done|].
    eapply Forall_impl; [exact Hind|]. by intros b ->.
Qed.

Lemma in_span_weighted (w : nat) v rows :
  in_span w v rows ↔ ∃ l, l.*2 = rows ∧ weighted_sum w l = v.
Proof.
  unfold in_span, combination. rewrite Exists_exists. split.
  - intros (cs & Hlen%coefficient_vectors_length & Hsum).
    exists (zip cs rows). split; [|done]. apply snd_zip. lia.
  - intros (l & <- & Hsum). exists (l.*1). split.
    + apply coefficient_vectors_length. by rewrite !length_fmap.
    + by rewrite zip_fst_snd.
Qed.

Lemma independent_perm (w : nat) rows rows' :
  rows ≡ₚ rows' → independent w rows → independent w rows'.
Proof.
  rewrite !independent_weighted. intros Hperm Hind l' Hl' Hsum.
  rewrite <- Hl' in Hperm.
  apply Permutation_map_inv in Hperm as (l & -> & Hll).
  rewrite (weighted_sum_perm w l' l Hll) in Hsum.
  rewrite Hll. by apply Hind.
Qed.

#[global] Instance independent_proper (w : nat) :
  Proper ((≡ₚ) ==> iff) (independent w).
Proof.
  intros rows rows' Hperm. split; apply independent_perm; [done|].
  by symmetry.
Qed.

#[global] Instance rectangular_proper (w : nat) :
  Proper ((≡ₚ) ==> iff) (rectangular w).
Proof. intros rows rows' Hperm. unfold rectangular. by rewrite Hperm. Qed.

Lemma independent_cons (w : nat) p rows :
  length p = w → rectangular w rows →
  independent w (p :: rows) ↔ independent w rows ∧ ¬ in_span w p rows.
Proof.
  intros Hp Hrect. rewrite !independent_weighted, in_span_weighted. split.
  - intros Hind. split.
    + intros l Hl Hsum.
      specialize (Hind ((false, p) :: l)).
      rewrite fmap_cons, Hl, weighted_sum_cons in Hind.
      specialize (Hind eq_refl Hsum). by apply Forall_cons in Hind as [_ ?].
    + intros (l & Hl & Hsum).
      specialize (Hind ((true, p) :: l)).
      rewrite fmap_cons, Hl, weighted_sum_cons, Hsum in Hind.
      rewrite xor_row_self, Hp in Hind.
      specialize (Hind eq_refl eq_refl).
      by apply Forall_cons in Hind as [? _].
  - intros [Hind Hspan] l Hl Hsum.
    destruct l as [|[b r] l]; [done|].
    rewrite fmap_cons in Hl. injection Hl as -> Hl.
    rewrite weighted_sum_cons in Hsum.
    assert (length (weighted_sum w l) = w) as Hlen
      by (apply length_weighted_sum; by rewrite Hl).
    destruct b.
    + exfalso. apply Hspan. exists l. split; [done|].
      symmetry. by apply (xor_row_eq_zero p _ w).
    + constructor; [done|]. by apply Hind.
Qed.

Lemma independent_nil (w : nat) : independent w [].
Proof.
  apply independent_weighted. intros l Hl _.
  apply fmap_nil_inv in Hl as ->. constructor.
Qed.

Lemma independent_app_r (w : nat) rows1 rows2 :
  rectangular w (rows1 ++ rows2) →
  independent w (rows1 ++ rows2) → independent w rows2.
Proof.
  induction rows1 as [|r rows1 IH]; [done|]. simpl.
  intros Hrect Hind. apply Forall_cons in Hrect as [Hr Hrect].
  apply IH; [done|].
  by apply (independent_cons w r) in Hind as [? _].
Qed.

(** An independent family has no zero row. *)
Lemma independent_no_zero (w : nat) rows :
  rectangular w rows → independent w rows →
  Forall (λ r, leading r ≠ None) rows.
Proof.
  intros Hrect Hind. apply Forall_forall. intros r Hr Hlead.
  apply elem_of_Permutation in Hr as [rest Hperm].
  rewrite Hperm in Hind, Hrect.
  apply Forall_cons in Hrect as [Hlen Hrect].
  apply (independent_cons w r) in Hind as [_ Hspan]; [|done|done].
  apply Hspan, in_span_weighted.
  exists (zip (replicate (length rest) false) rest). split.
  - apply snd_zip. by rewrite length_replicate.
  - rewrite weighted_sum_all_false.
    + apply leading_None_zero in Hlead. by rewrite Hlead, Hlen.
    + apply Forall_forall. intros [b r'] Hin.
      apply elem_of_zip_l in Hin. by apply elem_of_replicate in Hin as [-> _].
Qed.

End SpanFacts.

(** ** The elimination preserves linear independence *)

Section IndependenceFacts.
Import MatrixMath GF2.

Implicit Types (r p v : list bool) (m rows above : list (list bool)).
Implicit Types (l : list (bool * list bool)).

(** Adding the row [p] to some of the rows [X] changes a weighted sum by
    at most one copy of [p]. *)
Lemma xor_in_sum (w : nat) p (X Y : list (list bool)) :
  length p = w →
  Forall2 (row_step w p) X Y →
  ∀ cs : list bool,
    ∃ b : bool,
      (Forall (eq false) cs → b = false)
      ∧ weighted_sum w (zip cs Y) =
          if b then xor_row p (weighted_sum w (zip cs X))
          else weighted_sum w (zip cs X).
Proof.
  intros Hp. induction 1 as [|x y X Y [Hx Hxy] HXY IH]; intros cs.
  - exists false. split; [done|]. by destruct cs.
  - destruct cs as [|c cs]; [by exists false|].
    destruct (IH cs) as (b' & Hb' & Hsum).
    assert (length (weighted_sum w (zip cs X)) = w) as HlenS.
    { apply length_weighted_sum.
      apply Forall_forall. intros r Hr.
      apply list_elem_of_fmap in Hr as ([b0 r0] & -> & Hin).
      apply elem_of_zip_r in Hin. simpl.
      apply (Forall2_Forall_l (row_step w p) (λ x, length x = w) X Y) in HXY.
      - by apply (proj1 (Forall_forall _ _) HXY).
      - apply Forall_forall. intros y0 _ x0 [? _]. done. }
    change (zip (c :: cs) (y :: Y)) with ((c, y) :: zip cs Y).
    change (zip (c :: cs) (x :: X)) with ((c, x) :: zip cs X).
    rewrite !weighted_sum_cons, Hsum.
    destruct c.
    + destruct Hxy as [->| ->].
      * exists b'. split; [by intros H%Forall_cons_1; destruct H|].
        destruct b'; [|done].
        rewrite !xor_row_assoc. f_equal. apply xor_row_comm.
      * exists (negb b'). split; [by intros H%Forall_cons_1; destruct H|].
        destruct b'; simpl.
        -- rewrite <- xor_row_assoc. f_equal. apply xor_row_cancel. lia.
        -- rewrite (xor_row_comm x p), <- xor_row_assoc. done.
    + exists b'. split; [|done].
      intros H%Forall_cons_1. apply Hb'. by destruct H.
Qed.

Lemma xor_in_independent (w : nat) p (X Y : list (list bool)) :
  length p = w →
  Forall2 (row_step w p) X Y →
  independent w (p :: X) → independent w (p :: Y).
Proof.
  intros Hp HXY. rewrite !independent_weighted. intros Hind l Hl Hsum.
  destruct l as [|[c0 p'] l1]; [done|].
  rewrite fmap_cons in Hl. injection Hl as -> HY.
  destruct (xor_in_sum w p X Y Hp HXY (l1.*1)) as (b & Hb & Hsum1).
  rewrite <- HY, zip_fst_snd in Hsum1.
  pose proof (Forall2_length _ _ _ HXY) as HlenXY.
  assert (length (l1.*1) = length X) as Hlencs
    by (rewrite HlenXY, <- HY, !length_fmap; done).
  assert (length (weighted_sum w (zip (l1.*1) X)) = w) as HlenS.
  { apply length_weighted_sum. rewrite snd_zip by lia.
    apply (Forall2_Forall_l (row_step w p) (λ x, length x = w) X Y) in HXY;
      [done|].
    apply Forall_forall. intros y0 _ x0 [? _]. done. }
  specialize (Hind ((xorb c0 b, p) :: zip (l1.*1) X)).
  rewrite fmap_cons, snd_zip in Hind by lia.
  specialize (Hind eq_refl).
  rewrite weighted_sum_cons in Hind, Hsum.
  rewrite Hsum1 in Hsum.
  assert (Forall (λ x, x.1 = false) ((xorb c0 b, p) :: zip l1.*1 X)) as Hall.
  { apply Hind. destruct c0, b; simpl; try done.
    rewrite xor_row_cancel in Hsum by lia. done. }
  apply Forall_cons in Hall as [Hc0b Hcs]. simpl in Hc0b.
  apply Forall_fmap with (f := fst) (P := λ b, b = false) in Hcs.
  rewrite fst_zip in Hcs by lia.
  assert (b = false) as ->.
  { apply Hb. eapply Forall_impl; [exact Hcs|]. by intros ? ->. }
  rewrite xorb_false_r in Hc0b. subst c0.
  constructor; [done|].
  by apply Forall_fmap with (f := fst) (P := λ b, b = false).
Qed.

(** The row operations of one step of the elimination. *)
Lemma reduce_rows_related (w c : nat) p rows :
  length p = w → zeros_before c p → rectangular w rows →
  Forall2 (row_step w p)
    rows (reduce_row c p <$> rows).
Proof.
  intros Hp Hz. induction 1 as [|r rows Hr _ IH]; [constructor|].
  rewrite fmap_cons. constructor; [|done].
  split; [done|]. unfold reduce_row.
  destruct (r !! c) as [[|]|]; [right|by left|by left].
  apply xor_from_xor_row; [lia|done].
Qed.

Lemma related_sym (w : nat) p (X Y : list (list bool)) :
  length p = w →
  Forall2 (row_step w p) X Y →
  Forall2 (row_step w p) Y X.
Proof.
  intros Hp. induction 1 as [|x y X Y [Hx Hxy] _ IH]; constructor; [|done].
  destruct Hxy as [->| ->]; [by split; [|left]|].
  split; [rewrite length_xor_row; lia|]. right.
  rewrite (xor_row_comm (xor_row x p) p), (xor_row_comm x p).
  symmetry. apply xor_row_cancel. lia.
Qed.

Lemma related_refl (w : nat) p (X : list (list bool)) :
  rectangular w X →
  Forall2 (row_step w p) X X.
Proof. induction 1; constructor; [|done]. split; [done|by left]. Qed.

Lemma step_zeros (w c : nat) pre post p :
  (c < w)%nat → rectangular w (pre ++ p :: post) →
  Forall (zeros_before c) (pre ++ p :: post) → p !! c = Some true →
  Forall (zeros_before (S c)) (reduce_row c p <$> below_pivot pre post).
Proof.
  intros Hc Hrect Hz Hp.
  destruct (rectangular_split _ _ _ _ Hrect) as [Hlp Hbelow].
  assert (Forall (zeros_before c) (p :: below_pivot pre post)) as Hz'
    by (by rewrite below_pivot_perm, Permutation_middle).
  apply Forall_cons in Hz' as [Hzp Hzb].
  apply Forall_fmap.
  apply Forall_impl with (P := λ r, length r = w ∧ zeros_before c r).
  { clear -Hbelow Hzb.
    induction Hbelow; inversion Hzb; subst; constructor; auto. }
  intros r [Hr Hzr]. simpl.
  apply reduce_row_zeros; [congruence|lia|done|done].
Qed.

Lemma skip_zeros (w c : nat) rows :
  (c < w)%nat → rectangular w rows → Forall (zeros_before c) rows →
  Forall (λ r, r !! c ≠ Some true) rows →
  Forall (zeros_before (S c)) rows.
Proof.
  intros Hc Hrect Hz Hs.
  apply Forall_impl with
    (P := λ r, length r = w ∧ zeros_before c r ∧ r !! c ≠ Some true).
  { clear -Hrect Hz Hs.
    induction Hrect; inversion Hz; inversion Hs; subst; constructor; auto. }
  intros r (Hr & Hzr & Hnt). apply zeros_before_S; [done|].
  apply lookup_not_true; [lia|done].
Qed.

(** *** Properties that row operations preserve

    A property of a list of rows that does not depend on their order and
    survives adding one row to others is preserved by every step of the
    elimination, hence by the elimination. *)

Section RowOperations.

Variable w : nat.
Variable P : list (list bool) → Prop.
Hypothesis P_perm : ∀ rows rows', rows ≡ₚ rows' → P rows → P rows'.
Hypothesis P_row_step :
  ∀ p (X Y : list (list bool)),
    length p = w → Forall2 (row_step w p) X Y → P (p :: X) → P (p :: Y).

(** One step of the elimination, seen from the whole matrix: moving the
    pivot row [p] below the rows [above] and reducing the rows under
    it. *)
Lemma step_invariant (c : nat) above pre post p :
  rectangular w above → rectangular w (pre ++ p :: post) →
  zeros_before c p →
  P (above ++ pre ++ p :: post) ↔
  P ((above ++ [p]) ++ (reduce_row c p <$> below_pivot pre post)).
Proof.
  intros Habove Hrows Hz.
  destruct (rectangular_split _ _ _ _ Hrows) as [Hp Hbelow].
  assert (above ++ pre ++ p :: post ≡ₚ p :: (above ++ below_pivot pre post))
    as Hperm1.
  { rewrite below_pivot_perm, (app_assoc above pre (p :: post)).
    symmetry. apply Permutation_cons_app. by rewrite app_assoc. }
  assert ((above ++ [p]) ++ (reduce_row c p <$> below_pivot pre post)
          ≡ₚ p :: (above ++ (reduce_row c p <$> below_pivot pre post)))
    as Hperm2.
  { rewrite <- app_assoc. symmetry. by apply Permutation_cons_app. }
  assert (Forall2 (row_step w p)
            (above ++ below_pivot pre post)
            (above ++ (reduce_row c p <$> below_pivot pre post))) as Hrel.
  { apply Forall2_app; [by apply related_refl|].
    by apply (reduce_rows_related w c). }
  split; intros HP.
  - apply (P_perm _ _ (symmetry Hperm2)).
    apply (P_row_step p _ _ Hp Hrel).
    by apply (P_perm _ _ Hperm1).
  - apply (P_perm _ _ (symmetry Hperm1)).
    apply (P_row_step p _ _ Hp (related_sym w p _ _ Hp Hrel)).
    by apply (P_perm _ _ Hperm2).
Qed.

Lemma eliminate_invariant (n : nat) :
  ∀ (c : nat) above rows,
    (c + n)%nat = w →
    rectangular w above → rectangular w rows →
    Forall (zeros_before c) rows →
    P (above ++ rows) ↔ P (above ++ eliminate (seq c n) rows).
Proof.
  induction n as [|n IH]; intros c above rows Hcn Habove Hrect Hz; [done|].
  cbn [seq eliminate].
  destruct (split_pivot c rows) as [[[pre p] post]|] eqn:Hs.
  - apply split_pivot_Some in Hs as (-> & Hp & Hpre).
    destruct (rectangular_split _ _ _ _ Hrect) as [Hlp Hbelow].
    assert (zeros_before c p) as Hzp.
    { apply Forall_app in Hz as [_ Hz]. by apply Forall_cons in Hz as [? _]. }
    rewrite (step_invariant c) by done.
    rewrite (IH (S c) (above ++ [p])
               (reduce_row c p <$> below_pivot pre post)).
    + by rewrite <- app_assoc.
    + lia.
    + apply Forall_app. split; [done|]. by constructor.
    + by apply rectangular_reduce.
    + apply (step_zeros w); [lia|done..].
  - apply split_pivot_None in Hs.
    apply IH; [lia|done|done|].
    apply (skip_zeros w); [lia|done..].
Qed.

End RowOperations.

Lemma step_independent (w c : nat) above pre post p :
  rectangular w above → rectangular w (pre ++ p :: post) →
  zeros_before c p →
  independent w (above ++ pre ++ p :: post) ↔
  independent w ((above ++ [p]) ++ (reduce_row c p <$> below_pivot pre post)).
Proof.
  apply (step_invariant w (independent w)).
  - apply independent_perm.
  - apply xor_in_independent.
Qed.

(** The elimination of the rows from [current_row] on keeps the whole
    matrix independent, or dependent. *)
Lemma eliminate_independent (w n : nat) :
  ∀ (c : nat) above rows,
    (c + n)%nat = w →
    rectangular w above → rectangular w rows →
    Forall (zeros_before c) rows →
    independent w (above ++ rows) ↔
    independent w (above ++ eliminate (seq c n) rows).
Proof.
  apply (eliminate_invariant w (independent w)).
  - apply independent_perm.
  - apply xor_in_independent.
Qed.

(** Non-zero rows in echelon form are independent. *)
Lemma echelon_nonzero_independent (w : nat) rows :
  ∀ c : nat,
    rectangular w rows → echelon_from c rows = true →
    Forall (λ r, leading r ≠ None) rows → independent w rows.
Proof.
  induction rows as [|r rows IH]; intros c Hrect Hech Hnz.
  - apply independent_nil.
  - apply Forall_cons in Hrect as [Hr Hrect].
    apply Forall_cons in Hnz as [Hlr Hnz].
    simpl in Hech. destruct (leading r) as [k|] eqn:Hl; [|done].
    apply andb_true_iff in Hech as [_ Hech].
    apply independent_cons; [done|done|]. split; [by apply (IH (S k))|].
    intros (l & Hl2 & Hsum)%in_span_weighted.
    apply (weighted_sum_no_true w k l).
    + apply Forall_fmap with (f := snd) (P := λ r, r !! k ≠ Some true).
      rewrite Hl2. apply (echelon_from_no_true rows (S k)); [done|lia].
    + rewrite Hsum. by apply leading_Some_lookup.
Qed.

(** In an echelon matrix the zero rows come last: if the last row is not
    zero, no row is. *)
Lemma echelon_last_nonzero rows :
  ∀ (c : nat) r,
    echelon_from c rows = true → last rows = Some r → leading r ≠ None →
    Forall (λ r, leading r ≠ None) rows.
Proof.
  induction rows as [|r0 rows IH]; intros c r Hech Hlast Hr; [constructor|].
  simpl in Hech. destruct (leading r0) as [k|] eqn:Hl.
  - apply andb_true_iff in Hech as [_ Hech].
    constructor; [by rewrite Hl|].
    destruct rows as [|r1 rows']; [constructor|].
    apply (IH (S k) r); [done| |done].
    by rewrite last_cons_cons in Hlast.
  - exfalso. destruct rows as [|r1 rows'].
    + simpl in Hlast. injection Hlast as <-. done.
    + rewrite last_cons_cons in Hlast.
      apply Is_true_true, forallb_True in Hech.
      apply last_Some_elem_of in Hlast.
      apply (proj1 (Forall_forall _ _) Hech) in Hlast.
      by apply bool_decide_unpack in Hlast.
Qed.

End IndependenceFacts.

(** ** check_linear_independence *)

Section CheckFacts.
Import MatrixMath GF2.

Implicit Types (r p v x : list bool) (m rows above : list (list bool)).

Lemma split_pivot_snoc (c : nat) rows x :
  split_pivot c (rows ++ [x]) =
    match split_pivot c rows with
    | Some (pre, p, post) => Some (pre, p, post ++ [x])
    | None =>
        match x !! c with
        | Some true => Some (rows, x, [])
        | _ => None
        end
    end.
Proof.
  induction rows as [|r rows IH]; simpl.
  - by destruct (x !! c) as [[|]|].
  - rewrite IH.
    destruct (r !! c) as [[|]|]; [done| |];
      (destruct (split_pivot c rows) as [[[pre p] post]|]; [done|]);
      by destruct (x !! c) as [[|]|].
Qed.

Lemma below_pivot_snoc (pre post : list (list bool)) x :
  below_pivot pre (post ++ [x]) = below_pivot pre post ++ [x].
Proof. destruct pre; simpl; [done|]. by rewrite app_comm_cons, app_assoc. Qed.

Lemma any_element_leading r : any_element r = true ↔ leading r ≠ None.
Proof.
  induction r as [|b r IH]; simpl; [done|].
  destruct b; [done|]. rewrite IH.
  by destruct (leading r).
Qed.

Lemma last_eliminate_nonzero (w n c : nat) rows :
  (c + n)%nat = w → rows ≠ [] → rectangular w rows →
  Forall (zeros_before c) rows → independent w rows →
  ∃ r, last (eliminate (seq c n) rows) = Some r ∧ leading r ≠ None.
Proof.
  intros Hcn Hne Hrect Hz Hind.
  assert (independent w (eliminate (seq c n) rows)) as HindE.
  { by apply (eliminate_independent w n c [] rows Hcn
                (Forall_nil_2 _) Hrect Hz). }
  apply independent_no_zero in HindE; [|by apply rectangular_eliminate].
  destruct (last (eliminate (seq c n) rows)) as [r|] eqn:Hlast.
  - exists r. split; [done|].
    apply last_Some_elem_of in Hlast.
    by apply (proj1 (Forall_forall _ _) HindE).
  - apply last_None in Hlast. apply (f_equal length) in Hlast.
    rewrite length_eliminate in Hlast. by destruct rows.
Qed.

(** Appending a row to independent rows and eliminating: either the new
    row is never chosen as a pivot, and the other rows are reduced exactly
    as they would be without it, or the last row of the result is not
    zero. *)
Lemma eliminate_snoc (w n : nat) :
  ∀ (c : nat) above rows x,
    (c + n)%nat = w →
    rectangular w above → rectangular w rows → length x = w →
    Forall (zeros_before c) rows → zeros_before c x →
    independent w (above ++ rows) →
    (∃ x', eliminate (seq c n) (rows ++ [x])
           = eliminate (seq c n) rows ++ [x'])
    ∨ (∃ r, last (eliminate (seq c n) (rows ++ [x])) = Some r
            ∧ leading r ≠ None).
Proof.
  induction n as [|n IH];
    intros c above rows x Hcn Habove Hrect Hx Hz Hzx Hind.
  { left. by exists x. }
  cbn [seq eliminate]. rewrite split_pivot_snoc.
  destruct (split_pivot c rows) as [[[pre p] post]|] eqn:Hs.
  - apply split_pivot_Some in Hs as (-> & Hp & Hpre).
    destruct (rectangular_split _ _ _ _ Hrect) as [Hlp Hbelow].
    assert (zeros_before c p) as Hzp.
    { apply Forall_app in Hz as [_ Hz]. by apply Forall_cons in Hz as [? _]. }
    rewrite below_pivot_snoc, fmap_app. simpl.
    destruct (IH (S c) (above ++ [p])
                (reduce_row c p <$> below_pivot pre post)
                (reduce_row c p x))
      as [[x' Heq]|[r [Hlast Hr]]].
    + lia.
    + apply Forall_app. split; [done|]. by constructor.
    + by apply rectangular_reduce.
    + rewrite length_reduce_row; lia.
    + apply (step_zeros w); [lia|done..].
    + apply reduce_row_zeros; [lia|lia|done|done].
    + by apply (step_independent w c).
    + left. exists x'. by rewrite Heq.
    + right. exists r. split; [|done].
      destruct (eliminate _ _) eqn:E; [done|].
      by rewrite last_cons_cons.
  - apply split_pivot_None in Hs.
    assert (Forall (zeros_before (S c)) rows) as Hz'
      by (apply (skip_zeros w); [lia|done..]).
    destruct (x !! c) as [[|]|] eqn:Hxc.
    + right. simpl.
      destruct rows as [|top pre'].
      * simpl. rewrite eliminate_nil. exists x. split; [done|].
        rewrite (leading_pivot x c Hzx Hxc). done.
      * simpl.
        assert (pre' ++ [top] ≡ₚ top :: pre') as Hperm
          by (by rewrite <- Permutation_cons_append).
        rewrite fmap_reduce_row_id by (by rewrite Hperm).
        destruct (last_eliminate_nonzero w n (S c) (pre' ++ [top]))
          as (r & Hlast & Hr).
        -- lia.
        -- by destruct pre'.
        -- by rewrite Hperm.
        -- by rewrite Hperm.
        -- rewrite Hperm.
           apply (independent_app_r w above); [|done].
           by apply Forall_app.
        -- exists r. split; [|done].
           destruct (eliminate _ _) eqn:E; [done|].
           by rewrite last_cons_cons.
    + apply (IH (S c) above); try done; [lia|].
      by apply zeros_before_S.
    + apply lookup_ge_None in Hxc. lia.
Qed.

(** What [check_linear_independence] returns on a matrix with rows of
    equal length: the flag says whether the last row of the reduced
    matrix is non-zero, and the matrix keeps it only then. *)
Lemma check_linear_independence_eliminate (w : nat) x m :
  rectangular w m → length x = w →
  ∃ E last_row,
    E = eliminate (seq 0 w) (m ++ [x])
    ∧ last E = Some last_row
    ∧ check_linear_independence x m =
        Ok (any_element last_row,
            if any_element last_row then E else removelast E).
Proof.
  intros Hrect Hx.
  assert (rectangular w (m ++ [x])) as Hrect'
    by (apply Forall_app; split; [done|by constructor]).
  exists (eliminate (seq 0 w) (m ++ [x])).
  destruct (last (eliminate (seq 0 w) (m ++ [x]))) as [lr|] eqn:Hlast.
  - exists lr. split; [done|]. split; [done|].
    unfold check_linear_independence.
    rewrite (convert_eliminate w) by (done || by destruct m).
    cbn [mbind result_bind]. rewrite Hlast. cbn [mbind result_bind].
    by destruct (any_element lr).
  - apply last_None in Hlast. apply (f_equal length) in Hlast.
    rewrite length_eliminate, length_app in Hlast. simpl in Hlast. lia.
Qed.

Lemma zeros_before_0 rows : Forall (zeros_before 0) rows.
Proof. apply Forall_forall. intros r _. unfold zeros_before. by rewrite take_0. Qed.

(** The flag is true exactly when the rows of the matrix and the
    candidate are, all together, linearly independent. *)
Lemma check_linear_independence_flag (w : nat) x m b m' :
  rectangular w m → length x = w →
  check_linear_independence x m = Ok (b, m') →
  (b = true ↔ independent w (m ++ [x]))
  ∧ length m' = (if b then S (length m) else length m)
  ∧ rectangular w m'.
Proof.
  intros Hrect Hx Hcheck.
  destruct (check_linear_independence_eliminate w x m Hrect Hx)
    as (E & lr & HE & Hlast & Heq).
  rewrite Heq in Hcheck. injection Hcheck as <- <-.
  assert (rectangular w (m ++ [x])) as Hrect'
    by (apply Forall_app; split; [done|by constructor]).
  assert (rectangular w E) as HrectE
    by (subst E; by apply rectangular_eliminate).
  assert (length E = S (length m)) as HlenE
    by (subst E; rewrite length_eliminate, length_app; simpl; lia).
  assert (echelon_from 0 E = true) as Hech.
  { subst E. apply (eliminate_echelon w w 0); [lia|done|apply zeros_before_0]. }
  assert (independent w (m ++ [x]) ↔ independent w E) as Hiff.
  { subst E.
    apply (eliminate_independent w w 0 [] (m ++ [x]) eq_refl
             (Forall_nil_2 _) Hrect' (zeros_before_0 _)). }
  split; [|split].
  - rewrite any_element_leading, Hiff. split.
    + intros Hlr. apply (echelon_nonzero_independent w E 0); [done..|].
      by apply (echelon_last_nonzero E 0 lr).
    + intros HindE. apply independent_no_zero in HindE; [|done].
      apply last_Some_elem_of in Hlast.
      by apply (proj1 (Forall_forall _ _) HindE).
  - destruct (any_element lr); [done|].
    destruct (last_is_Some E) as [_ Hsome].
    destruct E as [|r0 E'] using rev_ind; [done|].
    rewrite removelast_last. rewrite length_app in HlenE. simpl in HlenE. lia.
  - destruct (any_element lr); [done|].
    destruct E as [|r0 E' _] using rev_ind; [done|].
    rewrite removelast_last. by apply Forall_app in HrectE as [? _].
Qed.

(** On independent rows: the flag tells whether the candidate is outside
    their span, and the matrix is left reduced, independent, with the
    candidate's reduced row at the bottom when the flag is true and as
    the reduction of the old matrix otherwise. *)
Lemma check_linear_independence_independent (w : nat) x m b m' :
  rectangular w m → length x = w → independent w m →
  check_linear_independence x m = Ok (b, m') →
  (b = true ↔ ¬ in_span w x m)
  ∧ m' = (if b then eliminate (seq 0 w) (m ++ [x])
          else eliminate (seq 0 w) m)
  ∧ independent w m'
  ∧ echelon m' = true.
Proof.
  intros Hrect Hx Hind Hcheck.
  destruct (check_linear_independence_flag w x m b m' Hrect Hx Hcheck)
    as (Hflag & Hlen & Hrect').
  destruct (check_linear_independence_eliminate w x m Hrect Hx)
    as (E & lr & HE & Hlast & Heq).
  rewrite Heq in Hcheck. injection Hcheck as Hb Hm'.
  assert (independent w (m ++ [x]) ↔ ¬ in_span w x m) as Hspan.
  { rewrite <- Permutation_cons_append.
    rewrite (independent_cons w x m Hx Hrect). tauto. }
  assert (rectangular w (m ++ [x])) as HrectMx
    by (apply Forall_app; split; [done|by constructor]).
  split; [by rewrite Hflag|].
  destruct b.
  - rewrite Hb in Hm'. subst m' E.
    split; [done|].
    split.
    + apply (eliminate_independent w w 0 [] (m ++ [x]) eq_refl
               (Forall_nil_2 _) HrectMx (zeros_before_0 _)).
      by apply Hflag.
    + apply (eliminate_echelon w w 0); [lia|done|apply zeros_before_0].
  - rewrite Hb in Hm'.
    assert (leading lr = None) as Hlr.
    { destruct (leading lr) eqn:Hl; [|done].
      assert (any_element lr = true) as Hany
        by (apply any_element_leading; by rewrite Hl).
      congruence. }
    destruct (eliminate_snoc w w 0 [] m x eq_refl (Forall_nil_2 _) Hrect Hx
                (zeros_before_0 _) eq_refl Hind)
      as [[x' Hsnoc]|[r [Hlast' Hr]]].
    + rewrite <- HE in Hsnoc. rewrite Hsnoc, removelast_last in Hm'.
      subst m'. split; [done|]. split.
      * by apply (eliminate_independent w w 0 [] m eq_refl
                    (Forall_nil_2 _) Hrect (zeros_before_0 _)).
      * apply (eliminate_echelon w w 0); [lia|done|apply zeros_before_0].
    + rewrite <- HE, Hlast in Hlast'. injection Hlast' as <-. done.
Qed.

(** C7, as the claim states it, fails on a matrix whose rows are not
    themselves independent: for the matrix with the two equal rows 10 and
    10 and the candidate 01, which is not a linear combination of the two
    rows, the function returns False (the reduction leaves 10, 01, 00,
    the last row is zero and it is the one popped). *)
Lemma check_linear_independence_dependent_matrix_counterexample :
  check_linear_independence [false; true] [[true; false]; [true; false]]
    = Ok (false, [[true; false]; [false; true]])
  ∧ rectangular 2 [[true; false]; [true; false]]
  ∧ ¬ in_span 2 [false; true] [[true; false]; [true; false]].
Proof.
  split; [by vm_compute|]. split; [repeat constructor|].
  apply (bool_decide_eq_false_1 (in_span 2 _ _)). by vm_compute.
Qed.

(** C7 (amended): for every matrix of equal-length GF(2) rows and every
    candidate row of that length, [check_linear_independence] returns,
    and returns True exactly when the rows of the matrix together with
    the candidate are linearly independent; when the rows already in the
    matrix are linearly independent, that is exactly when the candidate
    is linearly independent of them (not in their span).  The matrix ends
    with exactly one more row when the result is True, and with as many
    rows as it started with otherwise. *)
Theorem check_linear_independence_spec (w : nat)
    (candidate : list bool) (matrix : list (list bool)) :
  rectangular w matrix → length candidate = w →
  ∃ (b : bool) (matrix' : list (list bool)),
    check_linear_independence candidate matrix = Ok (b, matrix')
    ∧ (b = true ↔ independent w (matrix ++ [candidate]))
    ∧ (independent w matrix → (b = true ↔ ¬ in_span w candidate matrix))
    ∧ length matrix' = (if b then S (length matrix) else length matrix).
Proof.
  intros Hrect Hx.
  destruct (check_linear_independence_eliminate w candidate matrix Hrect Hx)
    as (E & lr & HE & Hlast & Heq).
  eexists _, _. split; [exact Heq|].
  destruct (check_linear_independence_flag w _ _ _ _ Hrect Hx Heq)
    as (Hflag & Hlen & _).
  split; [exact Hflag|]. split; [|exact Hlen].
  intros Hind.
  by destruct (check_linear_independence_independent w _ _ _ _
                 Hrect Hx Hind Heq) as [? _].
Qed.

Lemma check_linear_independence_spec_witness :
  ∃ (b : bool) (matrix' : list (list bool)),
    check_linear_independence [true; true; false] [[true; false; true]]
      = Ok (b, matrix')
    ∧ (b = true ↔ independent 3 ([[true; false; true]] ++ [[true; true; false]]))
    ∧ (independent 3 [[true; false; true]] →
       (b = true ↔ ¬ in_span 3 [true; true; false] [[true; false; true]]))
    ∧ length matrix' =
        (if b then S (length [[true; false; true]])
         else length [[true; false; true]]).
Proof.
  apply (check_linear_independence_spec 3); [repeat constructor|reflexivity].
Defined.

End CheckFacts.

(** ** Completing the basis *)

Section CompleteFacts.
Import MatrixMath GF2.

Implicit Types (r p v x : list bool) (m rows : list (list bool)).

Lemma leading_lt r (k : nat) : leading r = Some k → (k < length r)%nat.
Proof.
  intros H%leading_Some_lookup. by apply lookup_lt_Some in H.
Qed.

Lemma leading_unit_row (w i : nat) :
  (i < w)%nat → leading (unit_row w i) = Some i.
Proof.
  intros Hi. apply leading_pivot.
  - unfold zeros_before, unit_row, zero.
    rewrite take_insert_ge, take_replicate by lia.
    f_equal. lia.
  - unfold unit_row, zero. apply list_lookup_insert_eq.
    by rewrite length_replicate.
Qed.

(** Non-zero rows in echelon form from column [c] on need a column each. *)
Lemma echelon_nonzero_length (w : nat) rows :
  ∀ c : nat,
    rectangular w rows → echelon_from c rows = true →
    Forall (λ r, leading r ≠ None) rows →
    rows ≠ [] → (c + length rows ≤ w)%nat.
Proof.
  induction rows as [|r rows IH]; intros c Hrect Hech Hnz Hne; [done|].
  apply Forall_cons in Hrect as [Hr Hrect].
  apply Forall_cons in Hnz as [Hr0 Hnz].
  simpl in Hech. destruct (leading r) as [k|] eqn:Hl; [|done].
  apply andb_true_iff in Hech as [Hck Hech].
  apply bool_decide_eq_true in Hck.
  apply leading_lt in Hl.
  destruct rows as [|r1 rows']; [simpl; lia|].
  specialize (IH (S k) Hrect Hech Hnz ltac:(done)). simpl in *. lia.
Qed.

Lemma echelon_head_bound (w c k : nat) r rows :
  rectangular w (r :: rows) → leading r = Some k →
  echelon_from (S k) rows = true →
  Forall (λ r, leading r ≠ None) rows →
  (k + length rows < w)%nat.
Proof.
  intros Hrect Hl Hech Hnz.
  apply Forall_cons in Hrect as [Hr Hrect].
  apply leading_lt in Hl.
  destruct rows as [|r1 rows']; [simpl; lia|].
  pose proof (echelon_nonzero_length w (r1 :: rows') (S k) Hrect Hech Hnz
                ltac:(done)).
  lia.
Qed.

(** With as many non-zero rows as columns left, the leading 1 of each row
    is on the diagonal. *)
Lemma echelon_tight (w : nat) rows :
  ∀ c : nat,
    rectangular w rows → echelon_from c rows = true →
    Forall (λ r, leading r ≠ None) rows →
    (c + length rows)%nat = w →
    ∀ (j : nat) row, rows !! j = Some row → leading row = Some (c + j)%nat.
Proof.
  induction rows as [|r rows IH]; intros c Hrect Hech Hnz Hlen j row Hj;
    [done|].
  pose proof Hrect as Hrect0.
  apply Forall_cons in Hrect as [Hr Hrect].
  apply Forall_cons in Hnz as [Hr0 Hnz].
  simpl in Hech. destruct (leading r) as [k|] eqn:Hl; [|done].
  apply andb_true_iff in Hech as [Hck Hech].
  apply bool_decide_eq_true in Hck.
  pose proof (echelon_head_bound w c k r rows Hrect0 Hl Hech Hnz) as Hb.
  simpl in Hlen. assert (k = c) as -> by lia.
  destruct j as [|j]; simpl in Hj.
  - injection Hj as <-. rewrite Hl. f_equal. lia.
  - rewrite (IH (S c) Hrect Hech Hnz ltac:(lia) j row Hj). f_equal. lia.
Qed.

(** With one column more than non-zero rows, the leading 1 is on the
    diagonal up to some row [i], and one column to the right of it from
    row [i] on. *)
Lemma echelon_one_gap (w : nat) rows :
  ∀ c : nat,
    rectangular w rows → echelon_from c rows = true →
    Forall (λ r, leading r ≠ None) rows →
    (c + length rows + 1)%nat = w →
    ∃ i : nat,
      (i ≤ length rows)%nat
      ∧ ∀ (j : nat) row,
          rows !! j = Some row →
          leading row = Some (c + (if decide (j < i)%nat then j else S j))%nat.
Proof.
  induction rows as [|r rows IH]; intros c Hrect Hech Hnz Hlen.
  { exists 0%nat. split; [done|]. by intros j row. }
  pose proof Hrect as Hrect0.
  apply Forall_cons in Hrect as [Hr Hrect].
  apply Forall_cons in Hnz as [Hr0 Hnz].
  simpl in Hech. destruct (leading r) as [k|] eqn:Hl; [|done].
  apply andb_true_iff in Hech as [Hck Hech].
  apply bool_decide_eq_true in Hck.
  pose proof (echelon_head_bound w c k r rows Hrect0 Hl Hech Hnz) as Hb.
  simpl in Hlen.
  destruct (decide (k = c)) as [->|Hne].
  - destruct (IH (S c) Hrect Hech Hnz ltac:(lia)) as (i & Hi & Hlead).
    exists (S i). split; [simpl; lia|].
    intros [|j] row Hj; simpl in Hj.
    + injection Hj as <-. rewrite Hl.
      destruct (decide (0 < S i)%nat); [f_equal; lia|lia].
    + rewrite (Hlead j row Hj).
      destruct (decide (j < i)%nat), (decide (S j < S i)%nat);
        (f_equal; lia) || lia.
  - assert (k = S c) as -> by lia.
    exists 0%nat. split; [lia|].
    intros [|j] row Hj; simpl in Hj.
    + injection Hj as <-. rewrite Hl. simpl. f_equal. lia.
    + rewrite (echelon_tight w rows (S (S c)) Hrect Hech Hnz
                 ltac:(lia) j row Hj).
      simpl. f_equal. lia.
Qed.

(** The scan of the diagonal stops at the first row whose leading 1 is
    not on it. *)
Lemma find_missing_row_gap (i default : nat) rows :
  ∀ j : nat,
    (j ≤ i)%nat → (i ≤ j + length rows)%nat →
    default = (j + length rows)%nat →
    (∀ (t : nat) row,
       rows !! t = Some row →
       leading row
       = Some (if decide (j + t < i)%nat then j + t else S (j + t))%nat) →
    find_missing_row rows j default = Ok i.
Proof.
  induction rows as [|r rows IH]; intros j Hji Hij Hdef Hlead; simpl in *.
  - f_equal. lia.
  - pose proof (Hlead 0%nat r eq_refl) as Hr.
    replace (j + 0)%nat with j in Hr by lia.
    destruct (decide (j < i)%nat) as [Hlt|Hge].
    + rewrite (index_lookup r j true (leading_Some_lookup r j Hr)). simpl.
      apply IH; [lia|lia|lia|].
      intros t row Ht. specialize (Hlead (S t) row Ht).
      replace (S j + t)%nat with (j + S t)%nat by lia. done.
    + assert (r !! j = Some false) as Hrj.
      { apply lookup_not_true.
        - apply leading_lt in Hr. lia.
        - apply (leading_Some_no_true_before r (S j)); [done|lia]. }
      rewrite (index_lookup r j false Hrj). simpl. f_equal. lia.
Qed.

End CompleteFacts.

(** ** Back-substitution *)

Section SolveFacts.
Import MatrixMath GF2.

Implicit Types (r p v x s : list bool) (m rows : list (list bool)).

Lemma dot_cons (a b : bool) r s :
  dot (a :: r) (b :: s) = xorb (a && b) (dot r s).
Proof. reflexivity. Qed.

Lemma dot_insert_false r :
  ∀ (k : nat) s (v : bool),
    r !! k ≠ Some true → dot r (<[k:=v]> s) = dot r s.
Proof.
  induction r as [|a r IH]; intros k s v Hk; [done|].
  destruct s as [|b s]; [done|].
  destruct k as [|k]; simpl in Hk.
  - change (<[0%nat:=v]> (b :: s)) with (v :: s).
    rewrite !dot_cons. by destruct a.
  - change (<[S k:=v]> (b :: s)) with (b :: <[k:=v]> s).
    rewrite !dot_cons. by rewrite IH.
Qed.

Lemma dot_leading r :
  ∀ (k : nat) s (sk : bool),
    leading r = Some k → s !! k = Some sk →
    dot r s = xorb sk (dot (drop (S k) r) (drop (S k) s)).
Proof.
  induction r as [|a r IH]; intros k s sk Hl Hs; [done|].
  destruct s as [|b s]; [done|].
  simpl in Hl. destruct a.
  - injection Hl as <-. simpl in Hs. injection Hs as ->.
    by rewrite dot_cons.
  - destruct (leading r) as [k'|] eqn:Hl'; [|done].
    injection Hl as <-. simpl in Hs.
    rewrite dot_cons. simpl. by apply IH.
Qed.

(** The inner loop adds to the right-hand side the product of the row
    and the secret from column [c] on. *)
Lemma substitute_dot (n : nat) :
  ∀ (c : nat) (row secret : list bool) (v : bool),
    (c + n)%nat = length row → length secret = length row →
    substitute (seq c n) row secret v
    = Ok (xorb v (dot (drop c row) (drop c secret))).
Proof.
  induction n as [|n IH]; intros c row secret v Hc Hlen; simpl.
  - rewrite !drop_ge by lia. by rewrite xorb_false_r.
  - destruct (lookup_lt_is_Some_2 row c ltac:(lia)) as [b Hb].
    destruct (lookup_lt_is_Some_2 secret c ltac:(lia)) as [sc Hsc].
    rewrite (index_lookup _ _ _ Hb). cbn [mbind result_bind].
    rewrite (drop_S row b c Hb), (drop_S secret sc c Hsc), dot_cons.
    destruct b.
    + rewrite (index_lookup _ _ _ Hsc). cbn [mbind result_bind].
      rewrite IH by lia. f_equal.
      by destruct v, sc, (dot (drop (S c) row) (drop (S c) secret)).
    + by rewrite IH by lia.
Qed.

(** Back-substitution on a square matrix whose rows have their leading 1
    on the diagonal solves the system: the product of every row with the
    returned vector is the right-hand side of that row. *)
Lemma solve_rows_solution (n : nat) m (rhs : list bool) :
  length m = n → rectangular n m → length rhs = n →
  (∀ (k : nat) row, m !! k = Some row → leading row = Some k) →
  ∀ (k : nat) (secret : list bool),
    (k ≤ n)%nat → length secret = n →
    (∀ (j : nat) row, (k ≤ j)%nat → m !! j = Some row →
                      Some (dot row secret) = rhs !! j) →
    ∃ secret',
      solve_rows (reverse (seq 0 k)) m rhs secret = Ok secret'
      ∧ length secret' = n
      ∧ ∀ (j : nat) row, m !! j = Some row →
                         Some (dot row secret') = rhs !! j.
Proof.
  intros Hm Hrect Hrhs Hlead.
  induction k as [|k IH]; intros secret Hk Hsec Hinv.
  { exists secret. split; [done|]. split; [done|].
    intros j row. apply Hinv. lia. }
  rewrite seq_S, reverse_snoc. cbn [solve_rows plus].
  destruct (lookup_lt_is_Some_2 m k ltac:(lia)) as [row Hrow].
  destruct (lookup_lt_is_Some_2 rhs k ltac:(lia)) as [v Hv].
  assert (length row = n) as Hlrow
    by (by apply (proj1 (Forall_lookup _ _) Hrect k row)).
  rewrite (index_lookup _ _ _ Hrow). cbn [mbind result_bind].
  rewrite (index_lookup _ _ _ Hv). cbn [mbind result_bind].
  rewrite substitute_dot by lia. cbn [mbind result_bind].
  rewrite assign_lt by lia. cbn [mbind result_bind].
  set (v' := xorb v (dot (drop (S k) row) (drop (S k) secret))).
  apply IH; [lia|by rewrite length_insert|].
  intros j rowj Hkj Hj.
  destruct (decide (j = k)) as [->|Hne].
  - assert (rowj = row) as -> by congruence.
    rewrite (dot_leading row k (<[k:=v']> secret) v' (Hlead k row Hrow))
      by (apply list_lookup_insert_eq; lia).
    rewrite drop_insert_lt by lia. rewrite Hv. f_equal.
    unfold v'.
    by destruct v, (dot (drop (S k) row) (drop (S k) secret)).
  - rewrite dot_insert_false.
    + apply Hinv; [lia|done].
    + apply (leading_Some_no_true_before rowj j); [by apply Hlead|lia].
Qed.

Lemma solve_matrix_solution (n : nat) m (rhs : list bool) :
  length m = n → rectangular n m → length rhs = n →
  (∀ (k : nat) row, m !! k = Some row → leading row = Some k) →
  ∃ secret,
    solve_matrix m rhs = Ok secret
    ∧ length secret = n
    ∧ ∀ (j : nat) row, m !! j = Some row →
                       Some (dot row secret) = rhs !! j.
Proof.
  intros Hm Hrect Hrhs Hlead. unfold solve_matrix. rewrite Hm.
  apply (solve_rows_solution n m rhs Hm Hrect Hrhs Hlead n);
    [lia|by rewrite length_replicate|].
  intros j row Hj Hrow. apply lookup_lt_Some in Hrow. lia.
Qed.

End SolveFacts.

(** ** complete_matrix and solve_matrix on the driver's matrix *)

Section CompleteTheorem.
Import MatrixMath GF2.

Implicit Types (r p v x s : list bool) (m rows : list (list bool)).

Lemma convert_result (w : nat) m0 m :
  rectangular w m0 → convert_to_reduced_row_echelon_form m0 = Ok m →
  m0 ≠ [] ∧ m = eliminate (seq 0 w) m0 ∧ rectangular w m
  ∧ echelon m = true ∧ length m = length m0.
Proof.
  intros Hrect Hconv.
  destruct m0 as [|r0 m0']; [done|].
  rewrite (convert_eliminate w) in Hconv by done.
  injection Hconv as <-.
  split; [done|]. split; [done|].
  split; [by apply rectangular_eliminate|].
  split; [|apply length_eliminate].
  apply (eliminate_echelon w w 0); [lia|done|apply zeros_before_0].
Qed.

(** Completing and solving the matrix the driver has collected. *)
Lemma complete_and_solve (N : nat) (matrix0 matrix : list (list bool)) :
  rectangular N matrix0 →
  convert_to_reduced_row_echelon_form matrix0 = Ok matrix →
  S (length matrix) = N →
  independent N matrix →
  ∃ i : nat,
    (i ≤ length matrix)%nat
    ∧ (∀ (j : nat) row, (j < i)%nat → matrix !! j = Some row →
                        row !! j = Some true)
    ∧ (∀ row, matrix !! i = Some row → row !! i = Some false)
    ∧ complete_matrix matrix
      = Ok (unit_row N i, take i matrix ++ unit_row N i :: drop i matrix)
    ∧ length (take i matrix ++ unit_row N i :: drop i matrix) = N
    ∧ (∀ (k : nat) row,
         (take i matrix ++ unit_row N i :: drop i matrix) !! k = Some row →
         row !! k = Some true ∧ leading row = Some k)
    ∧ ∃ secret_string,
        solve_matrix (take i matrix ++ unit_row N i :: drop i matrix)
          (unit_row N i) = Ok secret_string
        ∧ length secret_string = N
        ∧ ∀ (k : nat) row,
            (take i matrix ++ unit_row N i :: drop i matrix) !! k = Some row →
            dot row secret_string = bool_decide (k = i).
Proof.
  intros Hrect0 Hconv HN Hind.
  destruct (convert_result N matrix0 matrix Hrect0 Hconv)
    as (Hne0 & _ & Hrect & Hech & Hlen0).
  pose proof (independent_no_zero N matrix Hrect Hind) as Hnz.
  destruct (echelon_one_gap N matrix 0 Hrect Hech Hnz ltac:(lia))
    as (i & Hi & Hlead).
  simpl in Hlead.
  set (completed := take i matrix ++ unit_row N i :: drop i matrix).
  assert (length (unit_row N i) = N) as Hlu
    by (unfold unit_row, zero; by rewrite length_insert, length_replicate).
  assert (length completed = N) as Hlc.
  { unfold completed. rewrite length_app, length_take. simpl.
    rewrite length_drop. lia. }
  assert (∀ (k : nat) row, completed !! k = Some row → leading row = Some k)
    as Hdiag.
  { intros k row Hk. unfold completed in Hk.
    destruct (decide (k < i)%nat) as [Hlt|Hge].
    - rewrite lookup_app_l, lookup_take_lt in Hk
        by (rewrite ?length_take; lia).
      rewrite (Hlead k row Hk). by destruct (decide (k < i)%nat).
    - rewrite lookup_app_r, length_take in Hk by (rewrite length_take; lia).
      replace (i `min` length matrix)%nat with i in Hk by lia.
      destruct (k - i)%nat as [|t] eqn:Hki; simpl in Hk.
      + injection Hk as <-.
        replace k with i by lia. apply leading_unit_row. lia.
      + rewrite lookup_drop in Hk.
        rewrite (Hlead (i + t)%nat row Hk).
        destruct (decide (i + t < i)%nat); [lia|]. f_equal. lia. }
  exists i. split; [exact Hi|].
  split.
  { intros j row Hj Hrow. apply leading_Some_lookup.
    rewrite (Hlead j row Hrow). by destruct (decide (j < i)%nat). }
  split.
  { intros row Hrow. pose proof (Hlead i row Hrow) as Hl.
    destruct (decide (i < i)%nat); [lia|].
    apply lookup_not_true.
    - apply leading_lt in Hl. lia.
    - apply (leading_Some_no_true_before row (S i)); [done|lia]. }
  split.
  { unfold complete_matrix.
    rewrite (find_missing_row_gap i (length matrix) matrix 0);
      [|lia|lia|lia|].
    2:{ intros t row Ht. simpl. by apply Hlead. }
    cbn [mbind result_bind].
    destruct matrix as [|r0 matrix'] eqn:Hm; [simpl in Hlen0; by destruct matrix0|].
    cbn [index lookup list_lookup mbind result_bind].
    pose proof (Forall_inv Hrect) as Hr0. simpl in Hr0. rewrite Hr0.
    rewrite assign_lt by (rewrite length_replicate; simpl in *; lia).
    done. }
  split; [exact Hlc|].
  split.
  { intros k row Hk. split; [|by apply Hdiag].
    apply leading_Some_lookup. by apply Hdiag. }
  assert (rectangular N completed) as Hrc.
  { unfold completed. apply Forall_app. split.
    - by apply Forall_take.
    - constructor; [done|]. by apply Forall_drop. }
  destruct (solve_matrix_solution N completed (unit_row N i) Hlc Hrc Hlu Hdiag)
    as (secret & Hsolve & Hls & Hsol).
  exists secret. split; [exact Hsolve|]. split; [exact Hls|].
  intros k row Hk. specialize (Hsol k row Hk).
  assert (k < N)%nat as Hkn
    by (rewrite <- Hlc; by apply (lookup_lt_Some completed k row)).
  unfold unit_row, zero in Hsol.
  destruct (decide (k = i)) as [->|Hne].
  - rewrite list_lookup_insert_eq in Hsol
      by (rewrite length_replicate; lia).
    injection Hsol as ->. by rewrite bool_decide_eq_true_2.
  - rewrite list_lookup_insert_ne, lookup_replicate_2 in Hsol by lia.
    injection Hsol as ->. by rewrite bool_decide_eq_false_2.
Qed.

(** C10: take a matrix of N-1 linearly independent rows of length N, in
    the echelon form that [convert_to_reduced_row_echelon_form] produces.
    Then [complete_matrix] returns; the row it inserts is the unit vector
    with its single True at [i], where [i] is the first index with
    [matrix[i][i]] False, or the number of rows (the row is appended at
    the bottom) if every diagonal entry is True; the vector it returns is
    exactly the inserted row; the resulting matrix has N rows, and every
    row [k] of it has its first True on the diagonal, so that
    [matrix[k][k]] is True for every [k].  On this matrix and right-hand
    side [solve_matrix] returns, and the vector it returns satisfies
    every equation of the system: each secret entry is fixed by the pivot
    of its own row. *)
Theorem complete_matrix_spec (N : nat) (matrix0 matrix : list (list bool)) :
  rectangular N matrix0 →
  convert_to_reduced_row_echelon_form matrix0 = Ok matrix →
  S (length matrix) = N →
  independent N matrix →
  ∃ i : nat,
    (i ≤ length matrix)%nat
    ∧ (∀ (j : nat) row, (j < i)%nat → matrix !! j = Some row →
                        row !! j = Some true)
    ∧ (∀ row, matrix !! i = Some row → row !! i = Some false)
    ∧ complete_matrix matrix
      = Ok (unit_row N i, take i matrix ++ unit_row N i :: drop i matrix)
    ∧ length (take i matrix ++ unit_row N i :: drop i matrix) = N
    ∧ (∀ (k : nat) row,
         (take i matrix ++ unit_row N i :: drop i matrix) !! k = Some row →
         row !! k = Some true ∧ leading row = Some k)
    ∧ ∃ secret_string,
        solve_matrix (take i matrix ++ unit_row N i :: drop i matrix)
          (unit_row N i) = Ok secret_string
        ∧ length secret_string = N
        ∧ ∀ (k : nat) row,
            (take i matrix ++ unit_row N i :: drop i matrix) !! k = Some row →
            dot row secret_string = bool_decide (k = i).
Proof. apply complete_and_solve. Qed.

Lemma complete_matrix_spec_witness :
  ∃ i : nat,
    (i ≤ length [[true; true; false]; [false; false; true]])%nat
    ∧ (∀ (j : nat) row,
         (j < i)%nat →
         [[true; true; false]; [false; false; true]] !! j = Some row →
         row !! j = Some true)
    ∧ (∀ row, [[true; true; false]; [false; false; true]] !! i = Some row →
              row !! i = Some false)
    ∧ complete_matrix [[true; true; false]; [false; false; true]]
      = Ok (unit_row 3 i,
            take i [[true; true; false]; [false; false; true]]
            ++ unit_row 3 i
               :: drop i [[true; true; false]; [false; false; true]])
    ∧ length (take i [[true; true; false]; [false; false; true]]
              ++ unit_row 3 i
                 :: drop i [[true; true; false]; [false; false; true]]) = 3%nat
    ∧ (∀ (k : nat) row,
         (take i [[true; true; false]; [false; false; true]]
          ++ unit_row 3 i
             :: drop i [[true; true; false]; [false; false; true]]) !! k
         = Some row →
         row !! k = Some true ∧ leading row = Some k)
    ∧ ∃ secret_string,
        solve_matrix
          (take i [[true; true; false]; [false; false; true]]
           ++ unit_row 3 i
              :: drop i [[true; true; false]; [false; false; true]])
          (unit_row 3 i) = Ok secret_string
        ∧ length secret_string = 3%nat
        ∧ ∀ (k : nat) row,
            (take i [[true; true; false]; [false; false; true]]
             ++ unit_row 3 i
                :: drop i [[true; true; false]; [false; false; true]]) !! k
            = Some row →
            dot row secret_string = bool_decide (k = i).
Proof.
  apply (complete_matrix_spec 3 [[true; true; false]; [true; true; true]]).
  - repeat constructor.
  - by vm_compute.
  - reflexivity.
  - apply (bool_decide_unpack (independent 3 _)). by vm_compute.
Defined.

End CompleteTheorem.

(** ** The span of the rows, and the Simon driver *)

Section SpanInvariance.
Import MatrixMath GF2.

Implicit Types (r p v x s : list bool) (m rows above : list (list bool)).
Implicit Types (l : list (bool * list bool)).

Lemma in_span_perm (w : nat) v rows rows' :
  rows ≡ₚ rows' → in_span w v rows → in_span w v rows'.
Proof.
  rewrite !in_span_weighted. intros Hperm (l & Hl & Hsum).
  rewrite <- Hl in Hperm. symmetry in Hperm.
  apply Permutation_map_inv in Hperm as (l' & -> & Hll).
  exists l'. split; [done|].
  by rewrite <- (weighted_sum_perm w l l' Hll).
Qed.

Lemma in_span_row_step (w : nat) v p (X Y : list (list bool)) :
  length p = w → Forall2 (row_step w p) X Y →
  in_span w v (p :: X) → in_span w v (p :: Y).
Proof.
  intros Hp HXY. rewrite !in_span_weighted. intros (l & Hl & Hsum).
  destruct l as [|[c0 p'] l1]; [done|].
  rewrite fmap_cons in Hl. injection Hl as -> HX.
  destruct (xor_in_sum w p X Y Hp HXY (l1.*1)) as (b & _ & Hsum1).
  pose proof (Forall2_length _ _ _ HXY) as HlenXY.
  assert (length (l1.*1) = length X) as Hlencs
    by (rewrite <- HX, !length_fmap; done).
  assert (length (weighted_sum w l1) = w) as HlenS.
  { apply length_weighted_sum. rewrite HX.
    apply (Forall2_Forall_l (row_step w p) (λ x, length x = w) X Y) in HXY;
      [done|].
    apply Forall_forall. intros y0 _ x0 [? _]. done. }
  rewrite <- HX, zip_fst_snd in Hsum1.
  exists ((xorb c0 b, p) :: zip (l1.*1) Y). split.
  - rewrite fmap_cons, snd_zip by lia. done.
  - rewrite weighted_sum_cons, Hsum1. rewrite weighted_sum_cons in Hsum.
    destruct c0, b; simpl; try done.
    by rewrite xor_row_cancel by lia.
Qed.

(** The elimination does not change the span of the matrix. *)
Lemma eliminate_span (w : nat) v m :
  rectangular w m →
  in_span w v m ↔ in_span w v (eliminate (seq 0 w) m).
Proof.
  intros Hrect.
  apply (eliminate_invariant w (in_span w v)
           (in_span_perm w v) (in_span_row_step w v) w 0 [] m eq_refl
           (Forall_nil_2 _) Hrect (zeros_before_0 _)).
Qed.

Lemma in_span_cons (w : nat) v x rows :
  length x = w → length v = w → rectangular w rows →
  in_span w v (x :: rows) ↔
  in_span w v rows ∨ in_span w (xor_row x v) rows.
Proof.
  intros Hx Hv Hrect. rewrite !in_span_weighted. split.
  - intros (l & Hl & Hsum).
    destruct l as [|[b x'] l']; [done|].
    rewrite fmap_cons in Hl. injection Hl as -> Hl.
    rewrite weighted_sum_cons in Hsum.
    destruct b; [right|left]; exists l'; (split; [done|]); [|done].
    rewrite <- Hsum. symmetry. apply xor_row_cancel.
    rewrite length_weighted_sum; [lia|by rewrite Hl].
  - intros [(l & Hl & Hsum)|(l & Hl & Hsum)].
    + exists ((false, x) :: l). by rewrite fmap_cons, Hl, weighted_sum_cons.
    + exists ((true, x) :: l).
      rewrite fmap_cons, Hl, weighted_sum_cons, Hsum. split; [done|].
      apply xor_row_cancel. lia.
Qed.

Lemma in_span_snoc_ext (w : nat) x m kept :
  length x = w → rectangular w m → rectangular w kept →
  (∀ v, length v = w → in_span w v m ↔ in_span w v kept) →
  ∀ v, length v = w → in_span w v (m ++ [x]) ↔ in_span w v (kept ++ [x]).
Proof.
  intros Hx Hm Hkept Hspan v Hv.
  assert (∀ rows, in_span w v (rows ++ [x]) ↔ in_span w v (x :: rows)) as Hsn.
  { intros rows. split; apply in_span_perm;
      [symmetry|]; apply Permutation_cons_append. }
  rewrite !Hsn, !in_span_cons by done.
  rewrite (Hspan v Hv), (Hspan (xor_row x v)); [done|].
  rewrite length_xor_row; lia.
Qed.

End SpanInvariance.

(** ** The collection loop of the Simon driver *)

Section SimonDriver.
Import MatrixMath GF2 SimonTests.

Variable simon_quantum_step : nat → list bool.
Variable run_function_in_classical_mode : list bool → list bool.
Variable ceil_log : QArith_base.Q → Z.

Implicit Types (r p v x s : list bool) (m rows kept : list (list bool)).

Local Abbreviation measured := (SimonTests.measured simon_quantum_step).
Local Abbreviation collected := (SimonTests.collected simon_quantum_step).

Lemma accumulate_snoc (w : nat) measured_rows x :
  ∀ kept,
    accumulate w kept (measured_rows ++ [x]) =
      if decide (in_span w x (accumulate w kept measured_rows))
      then accumulate w kept measured_rows
      else accumulate w kept measured_rows ++ [x].
Proof.
  induction measured_rows as [|y ms IH]; intros kept; simpl; [done|].
  destruct (decide (in_span w y kept)); by rewrite IH.
Qed.

Lemma measured_S (k : nat) :
  measured (S k) = measured k ++ [simon_quantum_step k].
Proof. unfold SimonTests.measured. by rewrite seq_S, fmap_app. Qed.

Lemma accumulate_measured_S (w k : nat) :
  accumulate w [] (measured (S k)) =
    if decide (in_span w (simon_quantum_step k) (accumulate w [] (measured k)))
    then accumulate w [] (measured k)
    else accumulate w [] (measured k) ++ [simon_quantum_step k].
Proof. by rewrite measured_S, accumulate_snoc. Qed.


Lemma collected_start (n : nat) : collected n 0 [].
Proof.
  split; [constructor|]. split; [apply independent_nil|].
  split; [constructor|]. done.
Qed.

Lemma collected_step (n i : nat) m (b : bool) m' :
  length (simon_quantum_step i) = n →
  collected n i m →
  check_linear_independence (simon_quantum_step i) m = Ok (b, m') →
  collected n (S i) m'
  ∧ length m' = (if b then S (length m) else length m)
  ∧ (b = true →
     convert_to_reduced_row_echelon_form (m ++ [simon_quantum_step i])
     = Ok m').
Proof.
  intros Hx (Hrect & Hind & Hracc & Hlen & Hspan) Hcheck.
  set (x := simon_quantum_step i) in *.
  destruct (check_linear_independence_flag n x m b m' Hrect Hx Hcheck)
    as (_ & Hlen' & Hrect').
  destruct (check_linear_independence_independent n x m b m'
              Hrect Hx Hind Hcheck) as (Hb & Hm' & Hind' & _).
  assert (rectangular n (m ++ [x])) as Hrmx
    by (apply Forall_app; split; [done|by constructor]).
  split; [|split; [exact Hlen'|]].
  - unfold SimonTests.collected. rewrite accumulate_measured_S. fold x.
    split; [done|]. split; [done|].
    destruct b.
    + assert (¬ in_span n x m) as Hnot by (by apply Hb).
      destruct (decide (in_span n x (accumulate n [] (measured i))))
        as [Hin|_]; [by apply Hspan in Hin|].
      split; [apply Forall_app; split; [done|by constructor]|].
      split; [rewrite Hlen', length_app; simpl; lia|].
      intros v Hv. subst m'.
      rewrite <- (eliminate_span n v (m ++ [x]) Hrmx).
      by apply in_span_snoc_ext.
    + assert (in_span n x m) as Hin.
      { destruct (decide (in_span n x m)) as [|Hnot]; [done|].
        by apply Hb in Hnot. }
      destruct (decide (in_span n x (accumulate n [] (measured i))))
        as [_|Hnot]; [|by apply Hspan in Hin].
      split; [done|]. split; [lia|].
      intros v Hv. subst m'.
      rewrite <- (eliminate_span n v m Hrect). by apply Hspan.
  - intros ->. subst m'.
    apply (convert_eliminate n); [by destruct m|done].
Qed.

(** The loop from iteration [i] on, entered with fewer than [n-1]
    rows. *)
Lemma collect_from (n : nat) (N : Z) (remaining : nat) :
  N = Z.of_nat n → (2 ≤ n)%nat →
  (∀ i, length (simon_quantum_step i) = n) →
  ∀ (i : nat) m,
    collected n i m → (S (length m) < n)%nat →
    ∃ (found : bool) valid (calls : nat),
      collect simon_quantum_step (seq i remaining) N m i
      = Ok (found, valid, calls)
      ∧ collected n calls valid
      ∧ (i ≤ calls ≤ i + remaining)%nat
      ∧ (∀ k, (i ≤ k < calls)%nat →
              (S (length (accumulate n [] (measured k))) < n)%nat)
      ∧ (found = true →
         S (length valid) = n
         ∧ ∃ m0, rectangular n m0
                 ∧ convert_to_reduced_row_echelon_form m0 = Ok valid)
      ∧ (found = false →
         calls = (i + remaining)%nat ∧ (S (length valid) < n)%nat).
Proof.
  intros HN Hn Hsteps.
  induction remaining as [|remaining IH]; intros i m Hinv Hshort.
  { exists false, m, i. simpl. split; [done|]. split; [done|].
    split; [lia|]. split; [intros k; lia|]. split; [done|].
    intros _. split; [lia|done]. }
  cbn [seq collect].
  pose proof Hinv as (Hrect & _ & _ & Hlenacc & _).
  destruct (check_linear_independence_eliminate n (simon_quantum_step i) m
              Hrect (Hsteps i)) as (E & lr & _ & _ & Hcheck).
  rewrite Hcheck. cbn [mbind result_bind].
  destruct (collected_step n i m _ _ (Hsteps i) Hinv Hcheck)
    as (Hinv' & Hlen' & Hconv).
  set (b := any_element lr) in *.
  set (m' := if b then E else removelast E) in *.
  destruct (decide (Z.of_nat (length m') = N - 1)) as [Hstop|Hgo].
  - exists true, m', (S i). split; [done|]. split; [done|].
    split; [lia|]. split.
    { intros k Hk. assert (k = i) as -> by lia. by rewrite <- Hlenacc. }
    split; [|done]. intros _. split; [lia|].
    exists (m ++ [simon_quantum_step i]). split.
    + apply Forall_app. split; [done|]. constructor; [apply Hsteps|done].
    + apply Hconv. destruct b; [done|]. lia.
  - destruct (IH (S i) m' Hinv' ltac:(destruct b; lia))
      as (found & valid & calls & Hrun & Hinvc & Hcalls & Hbefore & Ht & Hf).
    exists found, valid, calls. split; [exact Hrun|]. split; [done|].
    split; [lia|]. split.
    { intros k Hk. destruct (decide (k = i)) as [->|Hne].
      - by rewrite <- Hlenacc.
      - apply Hbefore. lia. }
    split; [done|]. intros Hfound. destruct (Hf Hfound). split; [lia|done].
Qed.



Lemma run_test_accepted (input_size : Z) (chance : QArith_base.Q) :
  QArith_base.Qlt (QArith_base.Qmake 1 2) chance →
  QArith_base.Qlt chance (QArith_base.Qmake 1 1) →
  run_test simon_quantum_step run_function_in_classical_mode ceil_log
    input_size chance
  = run_test_rounds simon_quantum_step run_function_in_classical_mode
      input_size (ceil_log chance).
Proof.
  intros Hlow Hhigh. unfold run_test.
  destruct (QArith_base.Qle_bool chance (QArith_base.Qmake 1 2)) eqn:E1.
  { apply QArith_base.Qle_bool_iff in E1.
    by apply QArith_base.Qlt_not_le in Hlow. }
  destruct (QArith_base.Qle_bool (QArith_base.Qmake 1 1) chance) eqn:E2.
  { apply QArith_base.Qle_bool_iff in E2.
    by apply QArith_base.Qlt_not_le in Hhigh. }
  done.
Qed.

Lemma run_test_returned (input_size : Z) (chance : QArith_base.Q)
    (secret : list bool) :
  run_test simon_quantum_step run_function_in_classical_mode ceil_log
    input_size chance = Ok secret →
  run_test_rounds simon_quantum_step run_function_in_classical_mode
    input_size (ceil_log chance) = Ok secret.
Proof. unfold run_test. by destruct (_ || _). Qed.



End SimonDriver.



(** With a register of one bit, [N - 1 = 0] independent rows are at hand
    before the first measurement, yet the driver calls the quantum step,
    keeps the measured string [1], never sees a matrix of 0 rows again,
    uses its whole budget and fails on insufficient data. *)
Lemma run_test_single_bit :
  Z.of_nat (length (GF2.accumulate 1 []
                      (SimonTests.measured (λ _ : nat, [true]) 0))) = 1 - 1
  ∧ SimonTests.collect_inputs (λ _ : nat, [true]) 1 2
    = Ok (false, [[true]], 3%nat)
  ∧ GF2.independent 1 [[true]]
  ∧ SimonTests.run_test (λ _ : nat, [true]) (λ x : list bool, x)
      (λ _, 2) 1 (QArith_base.Qmake 3 4) = Raise AssertionError.
Proof.
  split; [reflexivity|]. split; [vm_compute; reflexivity|].
  split; [apply (bool_decide_unpack (GF2.independent 1 _)); by vm_compute|].
  vm_compute. reflexivity.
Qed.

(** * Further properties *)

(** ** The modular arithmetic library: residues and inverses *)

Section ShorMathMore.
Import ShorMath.

Lemma gcd_recursion_step (sign_a sign_b r_1 r_2 s_1 s_2 t_1 t_2 : Z) :
  gcd_recursion sign_a sign_b (r_1, r_2) (s_1, s_2) (t_1, t_2) =
    if decide (r_2 = 0) then (s_1 * sign_a, t_1 * sign_b)
    else gcd_recursion sign_a sign_b
           (r_2, r_1 - r_1 / r_2 * r_2)
           (s_2, s_1 - r_1 / r_2 * s_2)
           (t_2, t_1 - r_1 / r_2 * t_2).
Proof.
  rewrite gcd_recursion_equation_1.
  destruct (Z.eq_dec r_2 0), (decide (r_2 = 0)); done.
Qed.

(** The result of the recursion carries the two signs as factors; the
    rest does not depend on them. *)
Lemma gcd_recursion_signs (sign_a sign_b : Z) (r s t : Z * Z) :
  gcd_recursion sign_a sign_b r s t =
    ((gcd_recursion 1 1 r s t).1 * sign_a,
     (gcd_recursion 1 1 r s t).2 * sign_b).
Proof.
  funelim (gcd_recursion sign_a sign_b r s t).
  - rewrite (gcd_recursion_step 1 1). destruct (decide (r_2 = 0)); [|done].
    simpl. f_equal; lia.
  - rewrite (gcd_recursion_step 1 1). destruct (decide (r_2 = 0)); [done|].
    assumption.
Qed.

Lemma sign_opp (a : Z) : sign (- a) = - sign a.
Proof.
  unfold sign.
  destruct (Z.ltb_spec (- a) 0), (Z.ltb_spec a 0),
    (Z.eqb_spec (- a) 0), (Z.eqb_spec a 0); lia.
Qed.

(** Two Bezout coefficients of the same residue class are congruent. *)
Lemma bezout_coefficient_congruent (a m k u v u' v' : Z) :
  u * a + v * m = 1 →
  u' * (a + k * m) + v' * m = 1 →
  u' mod m = u mod m.
Proof.
  intros H1 H2.
  assert (u' = u + (u' * v - u * u' * k - u * v') * m) as ->.
  { transitivity (u' * (u * a + v * m) - u * (u' * (a + k * m) + v' * m) + u).
    - rewrite H1, H2. lia.
    - ring. }
  apply Z_mod_plus_full.
Qed.

(** X1: [get_modulus_residue] returns the canonical residue: the one
    number of [0, modulus) that differs from the value by a multiple of
    the modulus; it raises [ValueError] for a modulus that is not
    positive. *)
Theorem get_modulus_residue_canonical (value modulus : Z) :
  (0 < modulus →
   ∃ r, get_modulus_residue value modulus = Ok r
        ∧ 0 ≤ r < modulus
        ∧ (modulus | value - r)
        ∧ ∀ r', 0 ≤ r' < modulus → (modulus | value - r') → r' = r)
  ∧ (modulus ≤ 0 →
     get_modulus_residue value modulus = Raise ValueError_modulus).
Proof.
  split.
  - intros Hm. exists (value mod modulus).
    split; [by apply get_modulus_residue_pos|].
    split; [by apply Z.mod_pos_bound|].
    split.
    + exists (value / modulus). rewrite Z.mod_eq by lia. lia.
    + intros r' Hr' [c Hc].
      assert (value = r' + c * modulus) as -> by lia.
      rewrite Z_mod_plus_full. symmetry. by apply Z.mod_small.
  - intros Hm. unfold get_modulus_residue.
    destruct (Z.leb_spec modulus 0); [done|lia].
Qed.

Lemma get_modulus_residue_canonical_witness :
  ∃ r, get_modulus_residue (-7) 5 = Ok r
       ∧ 0 ≤ r < 5
       ∧ (5 | -7 - r)
       ∧ ∀ r', 0 ≤ r' < 5 → (5 | -7 - r') → r' = r.
Proof.
  apply (proj1 (get_modulus_residue_canonical (-7) 5)). lia.
Defined.

(** X2: [inverse_mod] depends only on the residue class of its first
    argument: adding a multiple of the modulus changes neither the
    result nor the error. *)
Theorem inverse_mod_residue_class (a k modulus : Z) :
  inverse_mod (a + k * modulus) modulus = inverse_mod a modulus.
Proof.
  rewrite !inverse_mod_cases.
  rewrite (Z.gcd_comm (a + k * modulus)), Z.gcd_add_mult_diag_r,
    (Z.gcd_comm modulus).
  destruct (Z.eqb_spec (Z.gcd a modulus) 1) as [Hg|]; [simpl|done].
  destruct (Z.leb_spec modulus 0); [done|]. f_equal.
  destruct (extended_gcd (a + k * modulus) modulus) as [u' v'] eqn:E1.
  destruct (extended_gcd a modulus) as [u v] eqn:E2.
  apply extended_gcd_bezout in E1, E2. simpl.
  rewrite (Z.gcd_comm (a + k * modulus)), Z.gcd_add_mult_diag_r,
    (Z.gcd_comm modulus), Hg in E1.
  rewrite Hg in E2.
  by apply (bezout_coefficient_congruent a modulus k u v u' v').
Qed.

(** X3: inverting twice gives back the canonical residue of the number:
    whenever [inverse_mod a modulus] returns [b], [inverse_mod b modulus]
    returns [a mod modulus]. *)
Theorem inverse_mod_involutive (a modulus b : Z) :
  inverse_mod a modulus = Ok b →
  inverse_mod b modulus = Ok (a mod modulus).
Proof.
  rewrite !inverse_mod_cases.
  destruct (Z.eqb_spec (Z.gcd a modulus) 1) as [Hg|]; [simpl|done].
  destruct (Z.leb_spec modulus 0) as [|Hm]; [done|].
  intros [= <-].
  destruct (extended_gcd a modulus) as [u v] eqn:E. simpl.
  apply extended_gcd_bezout in E. rewrite Hg in E.
  assert (u mod modulus * a + (v + u / modulus * a) * modulus = 1) as Hb.
  { rewrite Z.mod_eq by lia. lia. }
  assert (Z.gcd (u mod modulus) modulus = 1) as Hg'.
  { apply Z.bezout_1_gcd. exists a, (v + u / modulus * a). lia. }
  rewrite Hg'. simpl.
  destruct (Z.leb_spec modulus 0); [lia|]. f_equal.
  destruct (extended_gcd (u mod modulus) modulus) as [u' v'] eqn:E'. simpl.
  apply extended_gcd_bezout in E'. rewrite Hg' in E'.
  assert (u' = a + (u' * (v + u / modulus * a) - a * v') * modulus) as ->.
  { transitivity
      (u' * (u mod modulus * a + (v + u / modulus * a) * modulus)
       - a * (u' * (u mod modulus) + v' * modulus) + a).
    - rewrite Hb, E'. lia.
    - ring. }
  apply Z_mod_plus_full.
Qed.

Lemma inverse_mod_involutive_witness :
  inverse_mod 10 7 = Ok 5 ∧ inverse_mod 5 7 = Ok (10 mod 7).
Proof.
  split; [reflexivity|].
  apply (inverse_mod_involutive 10 7 5). reflexivity.
Defined.

(** X4: changing the sign of an argument of [extended_gcd] changes the
    sign of the matching coefficient and nothing else. *)
Theorem extended_gcd_opp (a b : Z) :
  extended_gcd (- a) b = (- (extended_gcd a b).1, (extended_gcd a b).2)
  ∧ extended_gcd a (- b) = ((extended_gcd a b).1, - (extended_gcd a b).2).
Proof.
  unfold extended_gcd.
  rewrite !sign_opp.
  replace (- a * - sign a) with (a * sign a) by lia.
  replace (- b * - sign b) with (b * sign b) by lia.
  rewrite (gcd_recursion_signs (- sign a)), (gcd_recursion_signs _ (- sign b)),
    (gcd_recursion_signs (sign a) (sign b)).
  simpl. split; f_equal; lia.
Qed.

End ShorMathMore.

(** ** The convergent search: errors, lowest terms, exact fractions *)

Section ConvergentMore.
Import ContinuedFraction Shor.

(** Consecutive pairs of the recurrence have determinant 1 or -1, so
    every pair it produces is in lowest terms. *)
Lemma forward_coprime (cs : list Z) :
  ∀ n1 n2 d1 d2,
    (n1 * d2 - n2 * d1 = 1 ∨ n1 * d2 - n2 * d1 = -1) →
    Forall (λ nd, Z.gcd nd.1 nd.2 = 1) (forward cs n1 n2 d1 d2).
Proof.
  induction cs as [|a cs IH]; intros n1 n2 d1 d2 Hdet; simpl; [constructor|].
  constructor.
  - simpl. apply Z.bezout_1_gcd.
    destruct Hdet as [Hdet|Hdet].
    + exists (- d1), n1. lia.
    + exists d1, (- n1). lia.
  - apply IH. lia.
Qed.

(** A fraction in lowest terms with a positive denominator is the
    quotient of numerator and denominator by their gcd. *)
Lemma reduced_fraction (p q n d : Z) :
  0 < q → 1 ≤ d → Z.gcd n d = 1 → n * q = p * d →
  n = p / Z.gcd p q ∧ d = q / Z.gcd p q.
Proof.
  intros Hq Hd Hg Heq.
  assert (d | q) as [c Hc].
  { apply (Z.gauss d n q); [|by rewrite Z.gcd_comm].
    exists p. lia. }
  assert (0 < c) as Hcpos by nia.
  assert (p = n * c) as Hp by nia.
  assert (Z.gcd p q = c) as ->.
  { rewrite Hp, Hc, (Z.mul_comm c d), Z.gcd_mul_mono_r_nonneg, Hg by lia.
    lia. }
  subst p q. rewrite (Z.mul_comm c d), !Z.div_mul by lia. done.
Qed.

(** X5: the only error of the convergent search is the division by a
    zero denominator; for any other denominator it returns a pair with a
    non-negative denominator, whatever the threshold, and for a
    threshold below 1 that pair is the seed (1, 0) of the recurrence. *)
Theorem find_continued_fraction_convergent_total (p q T : Z) :
  (q = 0 →
   find_continued_fraction_convergent p q T = Raise ZeroDivisionError)
  ∧ (q ≠ 0 →
     ∃ n d, find_continued_fraction_convergent p q T = Ok (n, d) ∧ 0 ≤ d)
  ∧ (q ≠ 0 → T < 1 →
     find_continued_fraction_convergent p q T = Ok (1, 0)).
Proof.
  split; [intros ->; apply convergent_zero_denominator|].
  split.
  - intros Hq. unfold find_continued_fraction_convergent.
    rewrite (convergent_loop_pick T (coefficients p q)) by done.
    destruct (pick T (1, 0) (forward (coefficients p q) 1 0 0 1))
      as [n d] eqn:E.
    exists n, d. split; [done|].
    apply (convergent_denominator_nonneg p q T n d).
    unfold find_continued_fraction_convergent.
    rewrite (convergent_loop_pick T (coefficients p q)) by done.
    by rewrite E.
  - intros Hq HT. unfold find_continued_fraction_convergent.
    rewrite convergent_loop_step by done.
    destruct (Z.gtb_spec (p / q * 0 + 1) T) as [_|Hle]; [done|lia].
Qed.

Lemma find_continued_fraction_convergent_total_witness :
  ∃ n d, find_continued_fraction_convergent 853 1024 21 = Ok (n, d) ∧ 0 ≤ d.
Proof.
  apply (proj1 (proj2 (find_continued_fraction_convergent_total 853 1024 21))).
  lia.
Defined.

(** X6: for a non-zero denominator and a threshold of at least 1 the
    fraction returned is irreducible, with a positive denominator. *)
Theorem find_continued_fraction_convergent_irreducible (p q T : Z) :
  q ≠ 0 → 1 ≤ T →
  ∃ n d,
    find_continued_fraction_convergent p q T = Ok (n, d)
    ∧ Z.gcd n d = 1 ∧ 1 ≤ d ≤ T.
Proof.
  intros Hq HT.
  destruct (convergent_search_correct p q T Hq HT)
    as (k & n & d & Hrun & Hk & HdT & _).
  exists n, d. split; [exact Hrun|].
  split.
  - rewrite convergents_forward in Hk.
    pose proof (forward_coprime (coefficients p q) 1 0 0 1 ltac:(lia)) as Hall.
    rewrite Forall_lookup in Hall. apply (Hall k (n, d) Hk).
  - split; [|done].
    by destruct (convergent_denominator_nonneg p q T n d Hrun) as [_ ->].
Qed.

Lemma find_continued_fraction_convergent_irreducible_witness :
  ∃ n d,
    find_continued_fraction_convergent 512 1024 21 = Ok (n, d)
    ∧ Z.gcd n d = 1 ∧ 1 ≤ d ≤ 21.
Proof.
  apply (find_continued_fraction_convergent_irreducible 512 1024 21); lia.
Defined.

(** X7: when the threshold is at least the (positive) denominator, the
    search runs to the end of the expansion and returns the fraction
    itself, reduced to lowest terms. *)
Theorem find_continued_fraction_convergent_exact (p q T : Z) :
  0 < q → q ≤ T →
  find_continued_fraction_convergent p q T
  = Ok (p / Z.gcd p q, q / Z.gcd p q).
Proof.
  intros Hq HT.
  assert (q ≠ 0) as Hq0 by lia.
  destruct (convergent_search_correct p q T Hq0 ltac:(lia))
    as (k & n & d & Hrun & Hk & HdT & _ & Hend).
  pose proof (forward_coprime (coefficients p q) 1 0 0 1 ltac:(lia)) as Hall.
  rewrite <- convergents_forward, Forall_lookup in Hall.
  assert (n * q = p * d) as Hexact.
  { destruct Hend as [(n' & d' & Hnext & Hgt)|[_ ?]]; [exfalso|done].
    assert (pred (length (convergents p q)) < length (convergents p q))%nat
      as Hlt by (apply lookup_lt_Some in Hk; lia).
    apply lookup_lt_is_Some in Hlt as [[nL dL] HL].
    assert (S k ≤ pred (length (convergents p q)))%nat as Hle
      by (apply lookup_lt_Some in Hnext; lia).
    destruct (convergents_denominators_mono p q _ _ n' d' nL dL
                Hq0 Hle Hnext HL) as [Hd1 Hd2].
    pose proof (Hall _ _ HL) as HgL. simpl in HgL.
    assert (nL * q = p * dL) as HexL.
    { pose proof HL as HL'.
      rewrite convergents_forward, forward_length in HL'.
      pose proof (forward_last_exact _ p q 1 0 0 1 nL dL eq_refl HL'). lia. }
    destruct (reduced_fraction p q nL dL Hq ltac:(lia) HgL HexL) as [_ HdL].
    assert (dL ≤ q); [|lia].
    rewrite HdL. apply Z.div_le_upper_bound.
    - pose proof (Z.gcd_nonneg p q).
      destruct (Z.eq_dec (Z.gcd p q) 0) as [H0|]; [|lia].
      apply Z.gcd_eq_0 in H0. lia.
    - pose proof (Z.gcd_nonneg p q).
      assert (Z.gcd p q ≠ 0) by (intros H0; apply Z.gcd_eq_0 in H0; lia).
      nia. }
  pose proof (Hall _ _ Hk) as Hg. simpl in Hg.
  destruct (convergent_denominator_nonneg p q T n d Hrun) as [_ Hd1].
  destruct (reduced_fraction p q n d Hq (Hd1 ltac:(lia)) Hg Hexact)
    as [<- <-].
  exact Hrun.
Qed.

Lemma find_continued_fraction_convergent_exact_witness :
  find_continued_fraction_convergent 6 4 9 = Ok (6 / Z.gcd 6 4, 4 / Z.gcd 6 4).
Proof.
  apply (find_continued_fraction_convergent_exact 6 4 9); lia.
Defined.

End ConvergentMore.

(** ** The period finder: what it returns *)

Section PeriodFinderMore.
Import ContinuedFraction Shor.

(** One pass through the loop body keeps the candidate at least 1 and
    the remainder equal to 1 only if the candidate is a period; it
    leaves the function only with -1, and never with an exception. *)
Lemma loop_body_sound (N g : Z) (st : locals) (m : Z * Z) :
  1 ≤ N → m.2 ≠ 0 →
  1 ≤ period st ∧ (remainder st = 1 → g ^ period st mod N = 1) →
  match loop_body N g st m with
  | Next st' =>
      1 ≤ period st' ∧ (remainder st' = 1 → g ^ period st' mod N = 1)
  | Return value => value = -1
  | Throw _ => False
  end.
Proof.
  intros HN Hm [Hp Hr]. destruct m as [x n]. simpl in Hm.
  unfold loop_body.
  destruct (x =? 0).
  { destruct (_ =? 3); [done|]. simpl. done. }
  destruct (convergent_search_correct x n N Hm HN)
    as (k & n' & d & Hrun & _).
  rewrite Hrun.
  destruct (convergent_denominator_nonneg x n N n' d Hrun) as [_ Hd].
  destruct (lcm_update d (period st) (Hd HN) Hp) as [-> Hle].
  unfold pow.
  destruct (Z.eqb_spec N 0); [lia|].
  destruct (Z.ltb_spec (Z.lcm (period st) d) 0); [lia|].
  simpl. split; [lia|done].
Qed.

Lemma while_loop_sound (N g : Z) (ms : list (Z * Z)) :
  1 ≤ N → Forall (λ m, m.2 ≠ 0) ms →
  ∀ st,
    1 ≤ period st ∧ (remainder st = 1 → g ^ period st mod N = 1) →
    match while_loop N g st ms with
    | Finished value => value = -1 ∨ (1 ≤ value ∧ g ^ value mod N = 1)
    | Raised _ => False
    | Pending st' => 1 ≤ period st' ∧ remainder st' ≠ 1
    end.
Proof.
  intros HN Hms. induction Hms as [|m ms Hm Hms IH]; intros st Hst.
  - rewrite while_loop_nil.
    destruct (Z.eqb_spec (remainder st) 1) as [H1|H1].
    + right. destruct Hst. auto.
    + destruct Hst. auto.
  - rewrite while_loop_cons.
    destruct (Z.eqb_spec (remainder st) 1) as [H1|H1].
    { right. destruct Hst. auto. }
    pose proof (loop_body_sound N g st m HN Hm Hst) as Hbody.
    destruct (loop_body N g st m) as [st'|value|e]; [|by left|done].
    by apply IH.
Qed.

(** X8: on a number to factor [N >= 1], with measurement results whose
    number of states is not 0, the period finder never raises, and a
    value it returns is either the sentinel -1 or a number [P >= 1] with
    [guess^P mod N = 1]. *)
Theorem find_period_of_modular_exponentiation_sound
    (N g : Z) (ms : list (Z * Z)) :
  1 ≤ N → Forall (λ m, m.2 ≠ 0) ms →
  match find_period_of_modular_exponentiation N g ms with
  | Finished value => value = -1 ∨ (1 ≤ value ∧ g ^ value mod N = 1)
  | Raised _ => False
  | Pending st => 1 ≤ period st ∧ remainder st ≠ 1
  end.
Proof.
  intros HN Hms. apply while_loop_sound; [done|done|].
  simpl. split; [lia|done].
Qed.

Lemma find_period_of_modular_exponentiation_sound_witness :
  match find_period_of_modular_exponentiation 21 11
          [(0, 1024); (512, 1024); (341, 1024)] with
  | Finished value => value = -1 ∨ (1 ≤ value ∧ 11 ^ value mod 21 = 1)
  | Raised _ => False
  | Pending st => 1 ≤ period st ∧ remainder st ≠ 1
  end.
Proof.
  apply (find_period_of_modular_exponentiation_sound 21 11);
    [lia | repeat constructor; simpl; lia].
Defined.

End PeriodFinderMore.

(** ** The classical factoring loop: soundness, primes, true periods *)

Section RunShorMore.
Import ShorTests.

Variable find_period : Z → Z → Z.

(** The loop returns either the failure pair or a pair that passed the
    three sanity checks. *)
Lemma guess_loop_sound (N : Z) (guesses : list Z) (a b : Z) :
  guess_loop find_period N guesses = Ok (a, b) →
  (a, b) = (-1, -1) ∨ (2 ≤ a < N ∧ 2 ≤ b < N ∧ a * b = N).
Proof.
  induction guesses as [|guess rest IH]; simpl.
  { intros [= <- <-]. by left. }
  destruct (negb (Z.gcd N guess =? 1)); [done|].
  destruct (find_period N guess =? -1); [done|].
  destruct (find_period N guess mod 2 =? 1); [done|].
  destruct (pow guess (find_period N guess / 2) N) as [base|e]; [|done].
  destruct ((base =? 1) || (base =? N - 1)); [done|].
  destruct ((Z.gcd N (base + 1) <? 2) || (Z.gcd N (base + 1) >? N)) eqn:Ea;
    [done|].
  destruct ((Z.gcd N (base - 1) <? 2) || (Z.gcd N (base - 1) >? N)) eqn:Eb;
    [done|].
  destruct (negb (Z.gcd N (base + 1) * Z.gcd N (base - 1) =? N)) eqn:Eab;
    [done|].
  intros [= <- <-]. right.
  by apply sanity_checks_iff.
Qed.

(** With a period finder that returns -1 or a natural number, the loop
    never raises. *)
Lemma guess_loop_total (N : Z) (guesses : list Z) :
  N ≠ 0 → (∀ guess, -1 ≤ find_period N guess) →
  ∃ a b, guess_loop find_period N guesses = Ok (a, b).
Proof.
  intros HN Hfp.
  induction guesses as [|guess rest IH]; simpl; [by eexists _, _|].
  destruct (negb (Z.gcd N guess =? 1)); [done|].
  destruct (Z.eqb_spec (find_period N guess) (-1)) as [|Hne]; [done|].
  destruct (find_period N guess mod 2 =? 1); [done|].
  unfold pow.
  destruct (Z.eqb_spec N 0); [done|].
  destruct (Z.ltb_spec (find_period N guess / 2) 0) as [Hneg|_].
  { pose proof (Hfp guess).
    pose proof (Z.div_pos (find_period N guess) 2 ltac:(lia) ltac:(lia)).
    lia. }
  destruct (_ || _); [done|].
  destruct (_ || _); [done|].
  destruct (_ || _); [done|].
  destruct (negb _); [done|].
  by eexists _, _.
Qed.

(** The first guess is accepted when it passes every test of the loop
    body. *)
Lemma guess_loop_accepts (N guess : Z) (rest : list Z) :
  let x := guess ^ (find_period N guess / 2) mod N in
  N ≠ 0 → Z.gcd N guess = 1 →
  0 ≤ find_period N guess → find_period N guess mod 2 ≠ 1 →
  x ≠ 1 → x ≠ N - 1 →
  2 ≤ Z.gcd N (x + 1) < N → 2 ≤ Z.gcd N (x - 1) < N →
  Z.gcd N (x + 1) * Z.gcd N (x - 1) = N →
  guess_loop find_period N (guess :: rest)
  = Ok (Z.gcd N (x + 1), Z.gcd N (x - 1)).
Proof.
  intros x HN Hg Hp Heven Hx1 Hx2 Ha Hb Hab.
  cbn [guess_loop]. rewrite Hg. simpl negb. cbv iota.
  destruct (Z.eqb_spec (find_period N guess) (-1)); [lia|].
  destruct (Z.eqb_spec (find_period N guess mod 2) 1); [done|].
  unfold pow.
  destruct (Z.eqb_spec N 0); [done|].
  destruct (Z.ltb_spec (find_period N guess / 2) 0) as [Hneg|_].
  { pose proof (Z.div_pos (find_period N guess) 2 Hp ltac:(lia)). lia. }
  fold x.
  destruct (Z.eqb_spec x 1); [done|].
  destruct (Z.eqb_spec x (N - 1)); [done|].
  simpl orb. cbv iota.
  destruct (sanity_checks_iff N (Z.gcd N (x + 1)) (Z.gcd N (x - 1)))
    as [_ Hchecks].
  destruct (Hchecks (conj Ha (conj Hb Hab))) as (-> & -> & ->).
  done.
Qed.

(** For an odd modulus, the two gcds taken from a square root of 1
    multiply to the modulus. *)
Lemma gcd_square_root_of_one (N x : Z) :
  0 < N → N mod 2 = 1 → (N | (x + 1) * (x - 1)) →
  Z.gcd N (x + 1) * Z.gcd N (x - 1) = N.
Proof.
  intros HN Hodd Hdiv.
  set (a := Z.gcd N (x + 1)). set (b := Z.gcd N (x - 1)).
  assert (0 ≤ a) as Ha0 by apply Z.gcd_nonneg.
  assert (0 ≤ b) as Hb0 by apply Z.gcd_nonneg.
  assert (a | N) as HaN by apply Z.gcd_divide_l.
  assert (b | N) as HbN by apply Z.gcd_divide_l.
  assert (Z.gcd b a = 1) as Hcop.
  { pose proof (Z.gcd_nonneg b a) as Hnn.
    assert (Z.gcd b a | 1) as Hone.
    { assert (Z.gcd b a | N) as [n Hn]
        by (etrans; [apply Z.gcd_divide_r|exact HaN]).
      assert (Z.gcd b a | x + 1) as [u Hu]
        by (etrans; [apply Z.gcd_divide_r|apply Z.gcd_divide_r]).
      assert (Z.gcd b a | x - 1) as [v Hv]
        by (etrans; [apply Z.gcd_divide_l|apply Z.gcd_divide_r]).
      exists (n - (N / 2) * (u - v)).
      pose proof (Z.div_mod N 2 ltac:(lia)) as HN2.
      rewrite Hodd in HN2.
      assert (2 = (u - v) * Z.gcd b a) as H2 by lia.
      rewrite Z.mul_sub_distr_r, <- Hn, <- Z.mul_assoc, <- H2. lia. }
    apply Z.divide_1_r_nonneg in Hone; lia. }
  apply Z.divide_antisym_nonneg; [lia|lia| |].
  - destruct HaN as [c Hc].
    assert (b | c) as [e He].
    { apply (Z.gauss b a c); [|exact Hcop]. by rewrite Z.mul_comm, <- Hc. }
    exists e. rewrite Hc, He. ring.
  - destruct (Z.gcd_bezout N (x + 1) a eq_refl) as (α & β & Hαβ).
    destruct (Z.gcd_bezout N (x - 1) b eq_refl) as (γ & δ & Hγδ).
    destruct Hdiv as [k Hk].
    exists (α * γ * N + α * δ * (x - 1) + β * γ * (x + 1) + β * δ * k).
    rewrite <- Hαβ, <- Hγδ.
    transitivity
      (α * γ * N * N + α * δ * (x - 1) * N + β * γ * (x + 1) * N
       + β * δ * ((x + 1) * (x - 1))); [ring|].
    rewrite Hk. ring.
Qed.

(** Below 2^53 an integer is a float. *)
Lemma float_of_int_exact (z : Z) :
  Z.abs z < 2 ^ 53 → float_of_int z = Ok z.
Proof.
  intros Hz. unfold float_of_int, round_to_53_bits.
  assert (Z.log2 (Z.abs z) - 52 ≤ 0) as Hshift.
  { destruct (Z.eq_dec (Z.abs z) 0) as [->|Hne]; [done|].
    assert (Z.log2 (Z.abs z) < 53); [|lia].
    apply Z.log2_lt_pow2; lia. }
  destruct (Z.leb_spec (Z.log2 (Z.abs z) - 52) 0); [|lia].
  assert (Z.abs z < 2 ^ 1024) as Hsmall.
  { eapply Z.lt_trans; [exact Hz|]. by apply Z.pow_lt_mono_r. }
  destruct (Z.abs z >=? 2 ^ 1024) eqn:E; [rewrite Z.geb_le in E; lia|].
  f_equal. destruct z; simpl; lia.
Qed.

(** X9: what [run_shor] returns for an odd number is either the failure
    pair (-1, -1) or a factorisation: both numbers lie in [2, N) and
    their product is the number, whatever the period finder answered,
    a negative number included.  For an even number the first component
    is 2, and the second is the half if the number is below 2^54 in
    absolute value. *)
Theorem run_shor_sound (N a b : Z) :
  run_shor find_period N = Ok (a, b) →
  (N mod 2 = 0 → a = 2 ∧ (Z.abs N < 2 ^ 54 → b = N / 2))
  ∧ (N mod 2 ≠ 0 →
     (a, b) = (-1, -1) ∨ (2 ≤ a < N ∧ 2 ≤ b < N ∧ a * b = N)).
Proof.
  unfold run_shor.
  destruct (Z.eqb_spec (N mod 2) 0) as [Heven|Hodd].
  - intros Hrun. split; [|done]. intros _.
    destruct (float_of_int (N / 2)) as [half|e] eqn:Ehalf; [|done].
    injection Hrun as <- <-. split; [done|]. intros Hsmall.
    rewrite float_of_int_exact in Ehalf; [congruence|].
    change (2 ^ 54) with (2 * 2 ^ 53) in Hsmall.
    pose proof (Z.div_mod N 2 ltac:(lia)). lia.
  - intros Hrun. split; [done|]. intros _.
    by apply (guess_loop_sound N (seqZ 3 (N - 3))).
Qed.

(** X10: for an odd prime, [run_shor] returns the failure pair (-1, -1),
    whatever the period finder answers (-1 or a natural number) for each
    guess. *)
Theorem run_shor_prime (N : Z) :
  Z.prime N → N ≠ 2 → (∀ guess, -1 ≤ find_period N guess) →
  run_shor find_period N = Ok (-1, -1).
Proof.
  intros Hprime HN2 Hfp.
  pose proof (Z.prime_ge_2 N Hprime) as HN.
  assert (N mod 2 ≠ 0) as Hodd.
  { intros H0. apply Z.mod_divide in H0; [|lia].
    apply (Z.divide_prime_prime 2 N Z.prime_2 Hprime) in H0. lia. }
  unfold run_shor.
  destruct (Z.eqb_spec (N mod 2) 0); [done|].
  destruct (guess_loop_total N (seqZ 3 (N - 3)) ltac:(lia) Hfp)
    as (a & b & Hrun).
  rewrite Hrun.
  destruct (guess_loop_sound N _ a b Hrun) as [[= -> ->]|(Ha & Hb & Hab)];
    [done|exfalso].
  destruct Hprime as [_ Hprime]. apply (Hprime a); [lia|].
  exists b. lia.
Qed.

(** X11: a guess for which the period finder returns a true, even period
    whose half power is not 1 or -1 modulo an odd [N] is always
    accepted: the two gcds are factors in [2, N) whose product is [N],
    so the sanity checks of the source cannot fail for it. *)
Theorem run_shor_true_period (N guess : Z) (rest : list Z) :
  let period := find_period N guess in
  let x := guess ^ (period / 2) mod N in
  3 ≤ N → N mod 2 = 1 →
  0 ≤ period → period mod 2 = 0 →
  guess ^ period mod N = 1 →
  x ≠ 1 → x ≠ N - 1 →
  guess_loop find_period N (guess :: rest)
  = Ok (Z.gcd N (x + 1), Z.gcd N (x - 1))
  ∧ Z.gcd N (x + 1) * Z.gcd N (x - 1) = N
  ∧ 2 ≤ Z.gcd N (x + 1) < N
  ∧ 2 ≤ Z.gcd N (x - 1) < N.
Proof.
  intros period x HN Hodd Hp Heven Hperiod Hx1 Hx2.
  set (h := period / 2).
  assert (period = 2 * h) as Hph
    by (pose proof (Z.div_mod period 2 ltac:(lia)); lia).
  assert (0 ≤ h) as Hh by lia.
  assert (0 ≤ x < N) as Hx by (apply Z.mod_pos_bound; lia).
  assert (x * x mod N = 1) as Hsq.
  { unfold x. rewrite <- Z.mul_mod by lia.
    rewrite <- Z.pow_add_r by lia.
    replace (period / 2 + period / 2) with period by (fold h; lia).
    done. }
  assert (N | (x + 1) * (x - 1)) as Hdiv.
  { exists (x * x / N).
    pose proof (Z.div_mod (x * x) N ltac:(lia)) as Hdm.
    rewrite Hsq in Hdm. lia. }
  pose proof (gcd_square_root_of_one N x ltac:(lia) Hodd Hdiv) as Hab.
  assert (1 ≤ Z.gcd N (x + 1)) as Ha1.
  { pose proof (Z.gcd_nonneg N (x + 1)).
    destruct (Z.eq_dec (Z.gcd N (x + 1)) 0) as [H0|]; [|lia].
    apply Z.gcd_eq_0 in H0. lia. }
  assert (1 ≤ Z.gcd N (x - 1)) as Hb1.
  { pose proof (Z.gcd_nonneg N (x - 1)).
    destruct (Z.eq_dec (Z.gcd N (x - 1)) 0) as [H0|]; [|lia].
    apply Z.gcd_eq_0 in H0. lia. }
  assert (Z.gcd N (x + 1) ≠ N) as HaN.
  { intros Heq.
    pose proof (Z.gcd_divide_r N (x + 1)) as [c Hc]. rewrite Heq in Hc.
    assert (c = 1) by nia. lia. }
  assert (Z.gcd N (x - 1) ≠ N) as HbN.
  { intros Heq.
    pose proof (Z.gcd_divide_r N (x - 1)) as [c Hc]. rewrite Heq in Hc.
    assert (c = 0) by nia. lia. }
  assert (2 ≤ Z.gcd N (x + 1) < N ∧ 2 ≤ Z.gcd N (x - 1) < N)
    as [Ha Hb] by nia.
  assert (Z.gcd N guess = 1) as Hg.
  { apply Z.bezout_1_gcd.
    assert (1 ≤ period) as Hp1.
    { destruct (Z.eq_dec period 0) as [H0|]; [|lia].
      exfalso. apply Hx1. unfold x. rewrite H0. simpl.
      apply Z.mod_small. lia. }
    exists (- (guess ^ period / N)), (guess ^ (period - 1)).
    pose proof (Z.div_mod (guess ^ period) N ltac:(lia)) as Hdm.
    rewrite Hperiod in Hdm.
    replace (guess ^ (period - 1) * guess) with (guess ^ period).
    - lia.
    - replace period with (Z.succ (period - 1)) at 1 by lia.
      rewrite Z.pow_succ_r by lia. ring. }
  split; [|done].
  apply guess_loop_accepts; try done; try lia.
  fold period. lia.
Qed.

End RunShorMore.

(** On 15 with a period finder that answers -2 for every guess: the
    guess 3 is not coprime to 15; for the guess 4 the half power is the
    inverse of 4 modulo 15, which is 4, and the factors are gcd(15, 5)
    and gcd(15, 3). *)
Lemma run_shor_sound_witness :
  ShorTests.run_shor (λ _ _, -2) 15 = Ok (5, 3)
  ∧ (15 mod 2 = 0 → 5 = 2 ∧ (Z.abs 15 < 2 ^ 54 → 3 = 15 / 2))
  ∧ (15 mod 2 ≠ 0 →
     (5, 3) = (-1, -1) ∨ (2 ≤ 5 < 15 ∧ 2 ≤ 3 < 15 ∧ 5 * 3 = 15)).
Proof.
  split; [reflexivity|].
  apply (run_shor_sound (λ _ _, -2) 15 5 3). reflexivity.
Defined.

Lemma prime_7 : Z.prime 7.
Proof.
  split; [lia|].
  intros n Hn [c Hc].
  assert (n = 2 ∨ n = 3 ∨ n = 4 ∨ n = 5 ∨ n = 6)
    as [->|[->|[->|[->| ->]]]] by lia; lia.
Qed.

Lemma run_shor_prime_witness :
  ShorTests.run_shor (λ _ guess, Z.abs guess) 7 = Ok (-1, -1).
Proof.
  apply (run_shor_prime (λ _ guess, Z.abs guess) 7);
    [exact prime_7 | lia | intros guess; lia].
Defined.

Lemma run_shor_true_period_witness :
  ShorTests.guess_loop (λ _ _, 4) 15 [7; 8]
  = Ok (Z.gcd 15 (7 ^ (4 / 2) mod 15 + 1), Z.gcd 15 (7 ^ (4 / 2) mod 15 - 1))
  ∧ Z.gcd 15 (7 ^ (4 / 2) mod 15 + 1) * Z.gcd 15 (7 ^ (4 / 2) mod 15 - 1) = 15
  ∧ 2 ≤ Z.gcd 15 (7 ^ (4 / 2) mod 15 + 1) < 15
  ∧ 2 ≤ Z.gcd 15 (7 ^ (4 / 2) mod 15 - 1) < 15.
Proof.
  apply (run_shor_true_period (λ _ _, 4) 15 7 [8]);
    [lia | reflexivity | lia | reflexivity | reflexivity
    | by vm_compute | by vm_compute].
Defined.

(** ** The factoring test on a product of two primes *)

Section RunShorTestMore.
Import ShorTests.

Variable find_period : Z → Z → Z.

(** The factorisations of a product of two primes into two factors of
    at least 2. *)
Lemma semiprime_factors (p q a b : Z) :
  Z.prime p → Z.prime q → 2 ≤ a → 2 ≤ b → a * b = p * q →
  (a = p ∧ b = q) ∨ (a = q ∧ b = p).
Proof.
  intros Hp Hq Ha Hb Hab.
  pose proof (Z.prime_ge_2 p Hp) as Hp2.
  pose proof (Z.prime_ge_2 q Hq) as Hq2.
  assert (p | a * b) as Hdiv by (exists q; lia).
  apply (Z.divide_prime_mul a b p Hp) in Hdiv as [[c Hc]|[c Hc]].
  - assert (c * b = q) as Hcb by nia.
    assert (b | q) as Hbq by (exists c; lia).
    apply (Z.divide_prime_r b q Hq) in Hbq. left. nia.
  - assert (c * a = q) as Hca by nia.
    assert (a | q) as Haq by (exists c; lia).
    apply (Z.divide_prime_r a q Hq) in Haq. right. nia.
Qed.

(** X12: on an odd product of two primes, with a period finder that
    answers -1 or a natural number, [run_shor_test_on_number] can fail
    in one way only: [run_shor] gave up with (-1, -1).  Whenever
    [run_shor] returns anything else, it is the two primes, in one order
    or the other, and the test passes. *)
Theorem run_shor_test_on_semiprime (p q : Z) :
  Z.prime p → Z.prime q → (p * q) mod 2 = 1 →
  (∀ guess, -1 ≤ find_period (p * q) guess) →
  ∃ a b,
    run_shor find_period (p * q) = Ok (a, b)
    ∧ (((a, b) = (-1, -1)
        ∧ run_shor_test_on_number find_period (p * q) p q
          = Raise AssertionError)
       ∨ (((a = p ∧ b = q) ∨ (a = q ∧ b = p))
          ∧ run_shor_test_on_number find_period (p * q) p q = Ok tt)).
Proof.
  intros Hp Hq Hodd Hfp.
  pose proof (Z.prime_ge_2 p Hp) as Hp2.
  pose proof (Z.prime_ge_2 q Hq) as Hq2.
  unfold run_shor_test_on_number, run_shor.
  destruct (Z.eqb_spec ((p * q) mod 2) 0); [lia|].
  destruct (guess_loop_total find_period (p * q)
              (seqZ 3 (p * q - 3)) ltac:(nia) Hfp) as (a & b & Hrun).
  rewrite Hrun. exists a, b. split; [done|].
  cbn [mbind result_bind].
  destruct (guess_loop_sound find_period (p * q) _ a b Hrun)
    as [[= -> ->]|(Ha & Hb & Hab)].
  - left. split; [done|].
    destruct (Z.eqb_spec (-1) p); [lia|].
    destruct (Z.eqb_spec (-1) q); [lia|]. done.
  - right.
    destruct (semiprime_factors p q a b Hp Hq ltac:(lia) ltac:(lia) Hab)
      as [[-> ->]|[-> ->]].
    + split; [by left|]. rewrite !Z.eqb_refl. simpl.
      by destruct (q =? p).
    + split; [by right|]. rewrite !Z.eqb_refl. simpl.
      destruct (q =? p); simpl; done.
Qed.

End RunShorTestMore.

Lemma prime_5 : Z.prime 5.
Proof.
  split; [lia|].
  intros n Hn [c Hc].
  assert (n = 2 ∨ n = 3 ∨ n = 4) as [->|[->| ->]] by lia; lia.
Qed.

Lemma run_shor_test_on_semiprime_witness :
  ∃ a b,
    ShorTests.run_shor (λ _ _, 4) (3 * 5) = Ok (a, b)
    ∧ (((a, b) = (-1, -1)
        ∧ ShorTests.run_shor_test_on_number (λ _ _, 4) (3 * 5) 3 5
          = Raise AssertionError)
       ∨ (((a = 3 ∧ b = 5) ∨ (a = 5 ∧ b = 3))
          ∧ ShorTests.run_shor_test_on_number (λ _ _, 4) (3 * 5) 3 5
            = Ok tt)).
Proof.
  apply (run_shor_test_on_semiprime (λ _ _, 4) 3 5);
    [exact Z.prime_3 | exact prime_5 | reflexivity | intros guess; lia].
Defined.

(** ** The three row operations of the elimination *)

Section RowOperationsMore.
Import MatrixMath GF2.

Implicit Types (r p : list bool) (m rows matrix : list (list bool)).

Lemma index_None {A : Type} (l : list A) (i : nat) :
  (length l ≤ i)%nat → index l i = Raise IndexError.
Proof. intros Hi. unfold index. by rewrite lookup_ge_None_2. Qed.

Lemma rectangular_lookup (w : nat) m (i : nat) r :
  rectangular w m → m !! i = Some r → length r = w.
Proof. intros Hrect Hr. by apply (proj1 (Forall_lookup _ _) Hrect i r). Qed.

Lemma xor_from_lookup (c : nat) (t s : list bool) :
  length t = length s → (c < length s)%nat →
  s !! c = Some true → t !! c = Some true →
  xor_from c t s !! c = Some false.
Proof.
  intros Hlen Hc Hs Ht. unfold xor_from, xor_row.
  rewrite lookup_app_r by (rewrite length_take; lia).
  rewrite length_take. replace (c - c `min` length t)%nat with 0%nat by lia.
  rewrite lookup_zip_with, !lookup_drop, !Nat.add_0_r, Ht, Hs. done.
Qed.

(** X13: [find_pivot_row] returns the index of the first row, from
    [start_row] on, that has a 1 in the column, and -1 (here [None]) if
    there is none, which includes a [start_row] past the last row. *)
Theorem find_pivot_row_first (w : nat) matrix (column start_row : nat) :
  rectangular w matrix → (column < w)%nat →
  ∃ pivot_row,
    find_pivot_row matrix column start_row = Ok pivot_row
    ∧ match pivot_row with
      | Some i =>
          (start_row ≤ i)%nat
          ∧ (∃ row, matrix !! i = Some row ∧ row !! column = Some true)
          ∧ ∀ (j : nat) row,
              (start_row ≤ j < i)%nat → matrix !! j = Some row →
              row !! column = Some false
      | None =>
          ∀ (j : nat) row,
            (start_row ≤ j)%nat → matrix !! j = Some row →
            row !! column = Some false
      end.
Proof.
  intros Hrect Hc. unfold find_pivot_row.
  assert (Forall (λ r, column < length r)%nat (drop start_row matrix)) as Hlen.
  { apply Forall_drop. eapply Forall_impl; [exact Hrect|].
    intros r Hr. simpl in Hr. lia. }
  rewrite find_pivot_row_from_split by done.
  eexists. split; [done|].
  destruct (split_pivot column (drop start_row matrix))
    as [[[pre p] post]|] eqn:E.
  - apply split_pivot_Some in E as (Hdrop & Hp & Hpre).
    split; [lia|]. split.
    + exists p. split; [|done].
      rewrite <- lookup_drop, Hdrop. by apply list_lookup_middle.
    + intros j row Hj Hrow.
      assert (pre !! (j - start_row)%nat = Some row) as Hin.
      { rewrite <- (lookup_app_l pre (p :: post)) by lia.
        rewrite <- Hdrop, lookup_drop. rewrite <- Hrow. f_equal. lia. }
      rewrite Forall_lookup in Hpre.
      apply lookup_not_true; [|by apply (Hpre _ _ Hin)].
      by rewrite (rectangular_lookup w matrix j row).
  - apply split_pivot_None in E.
    intros j row Hj Hrow.
    assert (drop start_row matrix !! (j - start_row)%nat = Some row) as Hin.
    { rewrite lookup_drop. rewrite <- Hrow. f_equal. lia. }
    rewrite Forall_lookup in E.
    apply lookup_not_true; [|by apply (E _ _ Hin)].
    by rewrite (rectangular_lookup w matrix j row).
Qed.

(** X14: [swap_rows] on two indices of the matrix exchanges the two rows
    and leaves every other row where it is, and swapping again restores
    the matrix; an index past the last row raises [IndexError]. *)
Theorem swap_rows_exchange matrix (i j : nat) :
  ((i < length matrix)%nat → (j < length matrix)%nat →
   ∃ swapped,
     swap_rows matrix i j = Ok swapped
     ∧ length swapped = length matrix
     ∧ swapped !! i = matrix !! j
     ∧ swapped !! j = matrix !! i
     ∧ (∀ k : nat, k ≠ i → k ≠ j → swapped !! k = matrix !! k)
     ∧ swap_rows swapped i j = Ok matrix)
  ∧ ((length matrix ≤ i)%nat ∨ (length matrix ≤ j)%nat →
     swap_rows matrix i j = Raise IndexError).
Proof.
  split.
  - intros Hi Hj.
    destruct (lookup_lt_is_Some_2 matrix i Hi) as [x Hx].
    destruct (lookup_lt_is_Some_2 matrix j Hj) as [y Hy].
    assert (∀ (a b : list bool) l (Ha : l !! i = Some a) (Hb : l !! j = Some b),
              swap_rows l i j = Ok (<[j:=a]> (<[i:=b]> l))) as Hswap.
    { intros a b l Ha Hb. unfold swap_rows.
      rewrite (index_lookup _ _ _ Ha), (index_lookup _ _ _ Hb).
      cbn [mbind result_bind].
      rewrite assign_lt by (by apply lookup_lt_Some in Ha).
      cbn [mbind result_bind].
      rewrite assign_lt; [done|].
      rewrite length_insert. by apply lookup_lt_Some in Hb. }
    rewrite (Hswap x y matrix Hx Hy).
    set (swapped := <[j:=x]> (<[i:=y]> matrix)).
    assert (length swapped = length matrix) as Hlen
      by (unfold swapped; by rewrite !length_insert).
    assert (swapped !! j = Some x) as Hsj.
    { unfold swapped. apply list_lookup_insert_eq.
      rewrite length_insert. lia. }
    assert (swapped !! i = Some y) as Hsi.
    { unfold swapped. destruct (decide (i = j)) as [->|Hne].
      - rewrite Hx in Hy. injection Hy as ->. exact Hsj.
      - rewrite list_lookup_insert_ne by done.
        by apply list_lookup_insert_eq. }
    assert (∀ k : nat, k ≠ i → k ≠ j → swapped !! k = matrix !! k) as Hother.
    { intros k Hki Hkj. unfold swapped.
      by rewrite !list_lookup_insert_ne by done. }
    exists swapped.
    split; [done|]. split; [done|]. split; [by rewrite Hsi, Hy|].
    split; [by rewrite Hsj, Hx|]. split; [done|].
    rewrite (Hswap y x swapped Hsi Hsj). f_equal.
    apply list_eq. intros k.
    destruct (decide (k = j)) as [->|Hkj].
    { rewrite list_lookup_insert_eq by (rewrite length_insert; lia).
      by rewrite Hy. }
    rewrite list_lookup_insert_ne by done.
    destruct (decide (k = i)) as [->|Hki].
    { rewrite list_lookup_insert_eq by lia. by rewrite Hx. }
    rewrite list_lookup_insert_ne by done. by apply Hother.
  - intros Hout. unfold swap_rows.
    destruct (decide (length matrix ≤ i)%nat) as [Hi|Hi].
    { rewrite (index_None matrix i) by done. reflexivity. }
    destruct (lookup_lt_is_Some_2 matrix i ltac:(lia)) as [x Hx].
    rewrite (index_lookup _ _ _ Hx). cbn [mbind result_bind].
    rewrite (index_None matrix j) by lia. reflexivity.
Qed.

Lemma swap_rows_exchange_witness :
  ∃ swapped,
    swap_rows [[true]; [false]; [true]] 0 1 = Ok swapped
    ∧ length swapped = length [[true]; [false]; [true]]
    ∧ swapped !! 0%nat = [[true]; [false]; [true]] !! 1%nat
    ∧ swapped !! 1%nat = [[true]; [false]; [true]] !! 0%nat
    ∧ (∀ k : nat, k ≠ 0%nat → k ≠ 1%nat →
                  swapped !! k = [[true]; [false]; [true]] !! k)
    ∧ swap_rows swapped 0 1 = Ok [[true]; [false]; [true]].
Proof.
  apply (proj1 (swap_rows_exchange [[true]; [false]; [true]] 0 1));
    simpl; lia.
Defined.

(** X15: [reduce_rows] leaves the rows up to and including the source row
    as they are; a row below it that has a 1 in the start column is
    XORed with the source row from that column on, every other row is
    left alone; no row changes before the start column, and if the
    source row has a 1 in the start column, every row below it has a 0
    there afterwards. *)
Theorem reduce_rows_clears_column (w : nat) matrix
    (source_row_index start_column : nat) (source_row : list bool) :
  rectangular w matrix → (start_column < w)%nat →
  matrix !! source_row_index = Some source_row →
  ∃ reduced,
    reduce_rows matrix source_row_index start_column = Ok reduced
    ∧ length reduced = length matrix
    ∧ rectangular w reduced
    ∧ take (S source_row_index) reduced = take (S source_row_index) matrix
    ∧ (∀ (k : nat) row,
         (source_row_index < k)%nat → matrix !! k = Some row →
         ∃ row',
           reduced !! k = Some row'
           ∧ row' = (if decide (row !! start_column = Some true)
                     then xor_from start_column row source_row else row)
           ∧ take start_column row' = take start_column row
           ∧ (source_row !! start_column = Some true →
              row' !! start_column = Some false)).
Proof.
  intros Hrect Hc Hsrc.
  pose proof (take_drop_middle matrix source_row_index source_row Hsrc) as Hm.
  remember (take source_row_index matrix) as above eqn:Ea.
  remember (drop (S source_row_index) matrix) as rest eqn:Er.
  assert (length above = source_row_index) as Habove.
  { rewrite Ea, length_take. apply lookup_lt_Some in Hsrc. lia. }
  clear Ea Er Hsrc. subst matrix.
  pose proof Hrect as Hrect'.
  apply Forall_app in Hrect' as [Hra Hrr].
  apply Forall_cons in Hrr as [Hp Hrr].
  exists (above ++ source_row :: (reduce_row start_column source_row <$> rest)).
  split.
  { rewrite <- Habove. by apply (reduce_rows_map start_column w). }
  split.
  { rewrite !length_app. simpl. by rewrite length_fmap. }
  split.
  { apply Forall_app. split; [done|]. constructor; [done|].
    by apply rectangular_reduce. }
  split.
  { replace (S source_row_index) with (length (above ++ [source_row]))
      by (rewrite length_app; simpl; lia).
    rewrite (cons_middle source_row above (_ <$> _)).
    rewrite (cons_middle source_row above rest).
    rewrite !app_assoc. by rewrite !take_app_length. }
  intros k row Hk Hrow.
  assert (length row = w) as Hlrow
    by (by apply (rectangular_lookup w _ k row Hrect)).
  rewrite lookup_app_r in Hrow by lia. rewrite Habove in Hrow.
  replace (k - source_row_index)%nat with (S (k - S source_row_index))
    in Hrow by lia.
  simpl in Hrow. rename Hrow into Hin.
  exists (reduce_row start_column source_row row).
  split.
  { rewrite lookup_app_r by lia. rewrite Habove.
    replace (k - source_row_index)%nat with (S (k - S source_row_index))
      by lia.
    simpl. by rewrite list_lookup_fmap, Hin. }
  unfold reduce_row.
  destruct (decide (row !! start_column = Some true)) as [Ht|Hf].
  - rewrite Ht. split; [done|]. split.
    + unfold xor_from. rewrite take_app_le by (rewrite length_take; lia).
      rewrite take_take. f_equal. lia.
    + intros Hs. apply xor_from_lookup; [lia|lia|done|done].
  - assert (row !! start_column = Some false) as Hfalse
      by (apply lookup_not_true; [lia|done]).
    rewrite Hfalse. split; [done|]. split; [done|]. done.
Qed.

Lemma reduce_rows_clears_column_witness :
  ∃ reduced,
    reduce_rows [[true; true; false]; [true; false; true]; [false; true; true]]
      0 0 = Ok reduced
    ∧ reduced = [[true; true; false]; [false; true; true]; [false; true; true]].
Proof.
  destruct (reduce_rows_clears_column 3
              [[true; true; false]; [true; false; true]; [false; true; true]]
              0 0 [true; true; false]) as (reduced & Hrun & _);
    [repeat constructor | lia | reflexivity |].
  exists reduced. split; [exact Hrun|].
  vm_compute in Hrun. by injection Hrun as <-.
Defined.

End RowOperationsMore.

Lemma find_pivot_row_first_witness :
  ∃ pivot_row,
    MatrixMath.find_pivot_row
      [[true; false]; [false; false]; [false; true]] 1 1 = Ok pivot_row
    ∧ match pivot_row with
      | Some i =>
          (1 ≤ i)%nat
          ∧ (∃ row, [[true; false]; [false; false]; [false; true]] !! i
                    = Some row ∧ row !! 1%nat = Some true)
          ∧ ∀ (j : nat) row,
              (1 ≤ j < i)%nat →
              [[true; false]; [false; false]; [false; true]] !! j = Some row →
              row !! 1%nat = Some false
      | None =>
          ∀ (j : nat) row,
            (1 ≤ j)%nat →
            [[true; false]; [false; false]; [false; true]] !! j = Some row →
            row !! 1%nat = Some false
      end.
Proof.
  apply (find_pivot_row_first 2
           [[true; false]; [false; false]; [false; true]] 1 1);
    [repeat constructor | lia].
Defined.

(** ** More on spans: closure, members, products with a vector *)

Section SpanMore.
Import MatrixMath GF2.

Implicit Types (r p v x s : list bool) (m rows : list (list bool)).
Implicit Types (l : list (bool * list bool)).

Lemma length_zero (w : nat) : length (zero w) = w.
Proof. apply length_replicate. Qed.

Lemma in_span_zero (w : nat) rows : in_span w (zero w) rows.
Proof.
  apply in_span_weighted. exists (zip (replicate (length rows) false) rows).
  split; [apply snd_zip; by rewrite length_replicate|].
  apply weighted_sum_all_false, Forall_forall.
  intros [b r] Hin. apply elem_of_zip_l in Hin.
  by apply elem_of_replicate in Hin as [-> _].
Qed.

Lemma in_span_length (w : nat) v rows :
  rectangular w rows → in_span w v rows → length v = w.
Proof.
  intros Hrect (l & Hl & <-)%in_span_weighted.
  apply length_weighted_sum. by rewrite Hl.
Qed.

Lemma in_span_elem (w : nat) x rows :
  rectangular w rows → x ∈ rows → in_span w x rows.
Proof.
  intros Hrect Hin. induction rows as [|r rows IH]; [by apply elem_of_nil in Hin|].
  apply Forall_cons in Hrect as [Hr Hrect].
  assert (length x = w) as Hx.
  { apply elem_of_cons in Hin as [->|Hin]; [done|].
    by apply (proj1 (Forall_forall _ _) Hrect). }
  apply in_span_cons; [done|done|done|].
  apply elem_of_cons in Hin as [->|Hin].
  - right. rewrite xor_row_self, Hr. apply in_span_zero.
  - left. by apply IH.
Qed.

Lemma in_span_xor (w : nat) a b rows :
  rectangular w rows →
  in_span w a rows → in_span w b rows → in_span w (xor_row a b) rows.
Proof.
  intros Hrect. revert a b.
  induction rows as [|r rows IH]; intros a b Ha Hb.
  - apply in_span_weighted in Ha as (la & Hla & <-).
    apply in_span_weighted in Hb as (lb & Hlb & <-).
    apply fmap_nil_inv in Hla as ->. apply fmap_nil_inv in Hlb as ->.
    unfold weighted_sum. simpl.
    rewrite xor_row_self, length_zero. apply in_span_zero.
  - apply Forall_cons in Hrect as [Hr Hrect].
    pose proof (in_span_length w a (r :: rows) ltac:(by constructor) Ha) as Hla.
    pose proof (in_span_length w b (r :: rows) ltac:(by constructor) Hb) as Hlb.
    assert (length (xor_row a b) = w) as Hlab
      by (rewrite length_xor_row; lia).
    apply in_span_cons in Ha; [|done..].
    apply in_span_cons in Hb; [|done..].
    apply in_span_cons; [done..|].
    assert (∀ y z, length y = w → length z = w →
                   xor_row (xor_row r y) (xor_row r z) = xor_row y z) as Hcancel.
    { intros y z Hy Hz.
      rewrite <- (xor_row_assoc r y (xor_row r z)).
      rewrite (xor_row_assoc y r z), (xor_row_comm y r).
      rewrite <- (xor_row_assoc r y z).
      apply xor_row_cancel. rewrite length_xor_row; lia. }
    destruct Ha as [Ha|Ha], Hb as [Hb|Hb].
    + left. by apply IH.
    + right. rewrite (xor_row_comm a b), xor_row_assoc.
      rewrite (xor_row_comm (xor_row r b) a). by apply IH.
    + right. rewrite xor_row_assoc. by apply IH.
    + left. rewrite <- (Hcancel a b) by done. by apply IH.
Qed.

(** Appending a row that is already in the span does not change the
    span. *)
Lemma in_span_snoc_dependent (w : nat) x v rows :
  rectangular w rows → length v = w → in_span w x rows →
  in_span w v (rows ++ [x]) ↔ in_span w v rows.
Proof.
  intros Hrect Hv Hx.
  pose proof (in_span_length w x rows Hrect Hx) as Hlx.
  assert (in_span w v (rows ++ [x]) ↔ in_span w v (x :: rows)) as ->.
  { split; apply in_span_perm; [symmetry|]; apply Permutation_cons_append. }
  rewrite in_span_cons by done. split; [|by left].
  intros [Hv'|Hxv]; [done|].
  rewrite <- (xor_row_cancel x v) by lia.
  by apply in_span_xor.
Qed.

Lemma in_span_snoc_l (w : nat) x v rows :
  rectangular w rows → length x = w → length v = w →
  in_span w v rows → in_span w v (rows ++ [x]).
Proof.
  intros Hrect Hx Hv Hin.
  apply (in_span_perm w v (x :: rows)); [apply Permutation_cons_append|].
  apply in_span_cons; [done..|]. by left.
Qed.

(** The product with a fixed vector is linear in the row. *)
Lemma dot_zero (w : nat) s : dot (zero w) s = false.
Proof.
  unfold dot, zero. revert s.
  induction w as [|w IH]; intros s; [done|].
  destruct s as [|b s]; [done|]. simpl. apply IH.
Qed.

Lemma dot_xor_row (a b s : list bool) :
  length a = length s → length b = length s →
  dot (xor_row a b) s = xorb (dot a s) (dot b s).
Proof.
  revert a b. induction s as [|c s IH]; intros [|x a] [|y b] Ha Hb;
    try done.
  unfold xor_row. simpl zip_with. rewrite !dot_cons.
  injection Ha as Ha. injection Hb as Hb.
  fold (xor_row a b). rewrite IH by done.
  by destruct x, y, c, (dot a s), (dot b s).
Qed.

(** A vector with product 0 with every row has product 0 with every
    vector of the span. *)
Lemma span_orthogonal (w : nat) s v rows :
  rectangular w rows → length s = w →
  Forall (λ r, dot r s = false) rows →
  in_span w v rows → dot v s = false.
Proof.
  intros Hrect Hs Horth (l & Hl & <-)%in_span_weighted.
  subst rows.
  induction l as [|[b r] l IH]; [apply dot_zero|].
  rewrite fmap_cons in Hrect, Horth.
  apply Forall_cons in Hrect as [Hr Hrect].
  apply Forall_cons in Horth as [Hor Horth].
  rewrite weighted_sum_cons. destruct b; [|by apply IH].
  rewrite dot_xor_row.
  - simpl in Hor. rewrite Hor, IH by done. done.
  - simpl in Hr. lia.
  - rewrite length_weighted_sum by done. lia.
Qed.

(** A matrix whose [k]-th row has its first 1 in column [c + k] is in
    echelon form. *)
Lemma diagonal_echelon rows :
  ∀ c : nat,
    (∀ (k : nat) row, rows !! k = Some row → leading row = Some (c + k)%nat) →
    echelon_from c rows = true.
Proof.
  induction rows as [|r rows IH]; intros c Hdiag; [done|].
  simpl. rewrite (Hdiag 0%nat r eq_refl), Nat.add_0_r.
  apply andb_true_iff. split; [apply bool_decide_eq_true; lia|].
  apply IH. intros k row Hk.
  rewrite (Hdiag (S k) row Hk). f_equal. lia.
Qed.

(** A system with a unit upper triangular matrix has at most one
    solution. *)
Lemma triangular_unique (n : nat) m (s s' : list bool) :
  length m = n → length s = n → length s' = n →
  (∀ (k : nat) row, m !! k = Some row → leading row = Some k) →
  (∀ (k : nat) row, m !! k = Some row → dot row s = dot row s') →
  s = s'.
Proof.
  intros Hm Hs Hs' Hdiag Hdot.
  assert (∀ (d k : nat), (k + d)%nat = n → drop k s = drop k s') as Hdrop.
  { induction d as [|d IH]; intros k Hk.
    - rewrite !drop_ge by lia. done.
    - pose proof (IH (S k) ltac:(lia)) as Htail.
      destruct (lookup_lt_is_Some_2 m k ltac:(lia)) as [row Hrow].
      destruct (lookup_lt_is_Some_2 s k ltac:(lia)) as [sk Hsk].
      destruct (lookup_lt_is_Some_2 s' k ltac:(lia)) as [sk' Hsk'].
      pose proof (Hdot k row Hrow) as Heq.
      rewrite (dot_leading row k s sk (Hdiag k row Hrow) Hsk) in Heq.
      rewrite (dot_leading row k s' sk' (Hdiag k row Hrow) Hsk') in Heq.
      rewrite Htail in Heq.
      rewrite (drop_S s sk k Hsk), (drop_S s' sk' k Hsk'), Htail.
      f_equal.
      by destruct sk, sk', (dot (drop (S k) row) (drop (S k) s')). }
  by apply (Hdrop n 0%nat).
Qed.

End SpanMore.

(** ** The elimination and its users: row space, rank, fixed points *)

Section EliminationMore.
Import MatrixMath GF2.

Implicit Types (r p v x s : list bool) (m rows matrix : list (list bool)).

(** X16: on a matrix with rows of equal length,
    [convert_to_reduced_row_echelon_form] raises [IndexError] exactly on
    the empty matrix (it reads [matrix[0]]); on any other it returns a
    matrix of the same shape whose rows span the same space. *)
Theorem convert_row_space (w : nat) matrix :
  rectangular w matrix →
  (matrix = [] →
   convert_to_reduced_row_echelon_form matrix = Raise IndexError)
  ∧ (matrix ≠ [] →
     ∃ reduced,
       convert_to_reduced_row_echelon_form matrix = Ok reduced
       ∧ length reduced = length matrix
       ∧ rectangular w reduced
       ∧ ∀ v, in_span w v reduced ↔ in_span w v matrix).
Proof.
  intros Hrect. split; [intros ->; apply convert_empty|].
  intros Hne. exists (eliminate (seq 0 w) matrix).
  split; [by apply convert_eliminate|].
  split; [apply length_eliminate|].
  split; [by apply rectangular_eliminate|].
  intros v. symmetry. by apply eliminate_span.
Qed.

Lemma convert_row_space_witness :
  ∃ reduced,
    convert_to_reduced_row_echelon_form
      [[false; true; true]; [true; true; false]; [true; false; true]]
    = Ok reduced
    ∧ length reduced
      = length [[false; true; true]; [true; true; false]; [true; false; true]]
    ∧ rectangular 3 reduced
    ∧ ∀ v, in_span 3 v reduced
           ↔ in_span 3 v
               [[false; true; true]; [true; true; false]; [true; false; true]].
Proof.
  apply (proj2 (convert_row_space 3
                  [[false; true; true]; [true; true; false];
                   [true; false; true]]
                  ltac:(repeat constructor))).
  discriminate.
Defined.

(** X17: the matrices the conversion leaves unchanged are exactly those
    already in echelon form; the entries above a leading 1 are never
    cleared. *)
Theorem convert_fixed_points (w : nat) matrix :
  rectangular w matrix → matrix ≠ [] →
  convert_to_reduced_row_echelon_form matrix = Ok matrix
  ↔ echelon matrix = true.
Proof.
  intros Hrect Hne. rewrite (convert_eliminate w) by done. split.
  - intros [= Heq]. rewrite <- Heq.
    apply (eliminate_echelon w w 0); [lia|done|apply zeros_before_0].
  - intros Hech. f_equal. by apply eliminate_echelon_id.
Qed.

Lemma convert_fixed_points_witness :
  convert_to_reduced_row_echelon_form [[true; true]; [false; true]]
  = Ok [[true; true]; [false; true]]
  ↔ echelon [[true; true]; [false; true]] = true.
Proof.
  apply (convert_fixed_points 2 [[true; true]; [false; true]]);
    [repeat constructor | discriminate].
Defined.

(** X18: the conversion is a rank test: the rows of the matrix are
    linearly independent exactly when the converted matrix has no zero
    row, which is the case exactly when its last row is not zero. *)
Theorem convert_rank_test (w : nat) matrix :
  rectangular w matrix → matrix ≠ [] →
  ∃ reduced,
    convert_to_reduced_row_echelon_form matrix = Ok reduced
    ∧ (independent w matrix ↔ independent w reduced)
    ∧ (independent w matrix ↔ Forall (λ r, leading r ≠ None) reduced)
    ∧ (independent w matrix
       ↔ ∃ last_row, last reduced = Some last_row
                     ∧ any_element last_row = true).
Proof.
  intros Hrect Hne. exists (eliminate (seq 0 w) matrix).
  split; [by apply convert_eliminate|].
  pose proof (eliminate_independent w w 0 [] matrix eq_refl
                (Forall_nil_2 _) Hrect (zeros_before_0 _)) as Hiff.
  simpl in Hiff.
  pose proof (rectangular_eliminate w (seq 0 w) matrix Hrect) as HrectE.
  pose proof (eliminate_echelon w w 0 matrix eq_refl Hrect
                (zeros_before_0 _)) as Hech.
  assert (independent w (eliminate (seq 0 w) matrix)
          ↔ Forall (λ r, leading r ≠ None) (eliminate (seq 0 w) matrix))
    as Hnz.
  { split; [by apply independent_no_zero|].
    by apply (echelon_nonzero_independent w _ 0). }
  split; [done|]. split; [by rewrite Hiff|].
  rewrite Hiff, Hnz. split.
  - intros Hall.
    destruct (last (eliminate (seq 0 w) matrix)) as [r|] eqn:Hlast.
    + exists r. split; [done|]. apply any_element_leading.
      apply (proj1 (Forall_forall _ _) Hall).
      apply last_Some in Hlast as [l' ->].
      apply elem_of_app. right. constructor.
    + apply last_None in Hlast.
      pose proof (length_eliminate (seq 0 w) matrix) as Hlen.
      rewrite Hlast in Hlen. by destruct matrix.
  - intros (r & Hlast & Hany).
    apply (echelon_last_nonzero _ 0 r Hech Hlast).
    by apply any_element_leading.
Qed.

Lemma convert_rank_test_witness :
  ∃ reduced,
    convert_to_reduced_row_echelon_form
      [[true; true; false]; [false; true; true]; [true; false; true]]
    = Ok reduced
    ∧ (independent 3
         [[true; true; false]; [false; true; true]; [true; false; true]]
       ↔ independent 3 reduced)
    ∧ (independent 3
         [[true; true; false]; [false; true; true]; [true; false; true]]
       ↔ Forall (λ r, leading r ≠ None) reduced)
    ∧ (independent 3
         [[true; true; false]; [false; true; true]; [true; false; true]]
       ↔ ∃ last_row, last reduced = Some last_row
                     ∧ any_element last_row = true).
Proof.
  apply (convert_rank_test 3
           [[true; true; false]; [false; true; true]; [true; false; true]]);
    [repeat constructor | discriminate].
Defined.

(** X19: whatever [check_linear_independence] answers, nothing of the
    candidate is lost: called on linearly independent rows, it leaves a
    matrix in echelon form, with linearly independent rows, that spans
    exactly what the old rows and the candidate span together. *)
Theorem check_linear_independence_span (w : nat)
    (candidate : list bool) matrix :
  rectangular w matrix → length candidate = w → independent w matrix →
  ∃ (b : bool) matrix',
    check_linear_independence candidate matrix = Ok (b, matrix')
    ∧ echelon matrix' = true
    ∧ independent w matrix'
    ∧ ∀ v, length v = w →
           in_span w v matrix' ↔ in_span w v (matrix ++ [candidate]).
Proof.
  intros Hrect Hx Hind.
  destruct (check_linear_independence_eliminate w candidate matrix Hrect Hx)
    as (E & last_row & _ & _ & Hcheck).
  eexists _, _. split; [exact Hcheck|].
  destruct (check_linear_independence_independent w candidate matrix _ _
              Hrect Hx Hind Hcheck) as (Hb & Hm' & Hind' & Hech).
  split; [exact Hech|]. split; [exact Hind'|].
  intros v Hv. rewrite Hm'.
  destruct (any_element last_row).
  - symmetry. apply eliminate_span.
    apply Forall_app. split; [done|by constructor].
  - rewrite <- eliminate_span by done. symmetry.
    apply in_span_snoc_dependent; [done|done|].
    destruct (decide (in_span w candidate matrix)) as [|Hnot]; [done|].
    by apply Hb in Hnot.
Qed.

Lemma check_linear_independence_span_witness :
  ∃ (b : bool) matrix',
    check_linear_independence [true; false; true]
      [[true; true; false]; [false; true; true]] = Ok (b, matrix')
    ∧ echelon matrix' = true
    ∧ independent 3 matrix'
    ∧ ∀ v, length v = 3%nat →
           in_span 3 v matrix'
           ↔ in_span 3 v ([[true; true; false]; [false; true; true]]
                          ++ [[true; false; true]]).
Proof.
  apply (check_linear_independence_span 3 [true; false; true]
           [[true; true; false]; [false; true; true]]);
    [repeat constructor | reflexivity | ].
  apply (bool_decide_unpack (independent 3 _)). by vm_compute.
Defined.

(** X20: a candidate that is all zeros, or that is already a row of the
    matrix, is always rejected, and the matrix keeps its number of
    rows. *)
Theorem check_linear_independence_rejects (w : nat)
    (candidate : list bool) matrix :
  rectangular w matrix → length candidate = w →
  candidate = zero w ∨ candidate ∈ matrix →
  ∃ matrix',
    check_linear_independence candidate matrix = Ok (false, matrix')
    ∧ length matrix' = length matrix.
Proof.
  intros Hrect Hx Hbad.
  destruct (check_linear_independence_eliminate w candidate matrix Hrect Hx)
    as (E & last_row & _ & _ & Hcheck).
  destruct (check_linear_independence_flag w candidate matrix _ _
              Hrect Hx Hcheck) as (Hb & Hlen & _).
  destruct (any_element last_row); [exfalso|by eexists].
  assert (independent w (matrix ++ [candidate])) as Hind by (by apply Hb).
  assert (rectangular w (matrix ++ [candidate])) as Hrect'
    by (apply Forall_app; split; [done|by constructor]).
  destruct Hbad as [->|Hin].
  - pose proof (independent_no_zero w _ Hrect' Hind) as Hnz.
    apply Forall_app in Hnz as [_ Hnz]. apply Forall_cons in Hnz as [Hnz _].
    by rewrite leading_zero in Hnz.
  - rewrite <- Permutation_cons_append in Hind.
    apply independent_cons in Hind as [_ Hnot]; [|done..].
    apply Hnot. by apply in_span_elem.
Qed.

Lemma check_linear_independence_rejects_witness :
  ∃ matrix',
    check_linear_independence [false; true; true]
      [[true; true; false]; [false; true; true]] = Ok (false, matrix')
    ∧ length matrix' = length [[true; true; false]; [false; true; true]].
Proof.
  apply (check_linear_independence_rejects 3 [false; true; true]
           [[true; true; false]; [false; true; true]]);
    [repeat constructor | reflexivity | right; repeat constructor].
Defined.

End EliminationMore.

(** ** Completing the basis and solving: rank, second completion, uniqueness *)

Section CompleteSolveMore.
Import MatrixMath GF2.

Implicit Types (r p v x s : list bool) (m rows matrix : list (list bool)).

Lemma length_unit_row (w i : nat) : length (unit_row w i) = w.
Proof. unfold unit_row, zero. by rewrite length_insert, length_replicate. Qed.

(** With a 1 on the diagonal of every row, the scan for the missing row
    runs to the end. *)
Lemma find_missing_row_full rows :
  ∀ (j default : nat),
    (∀ (k : nat) row, rows !! k = Some row → row !! (j + k)%nat = Some true) →
    find_missing_row rows j default = Ok default.
Proof.
  induction rows as [|r rows IH]; intros j default Hdiag; [done|].
  simpl. pose proof (Hdiag 0%nat r eq_refl) as Hr.
  rewrite Nat.add_0_r in Hr.
  rewrite (index_lookup _ _ _ Hr). cbn [mbind result_bind negb].
  apply IH. intros k row Hk.
  replace (S j + k)%nat with (j + S k)%nat by lia. by apply Hdiag.
Qed.

(** A square matrix with a 1 in every diagonal position has no missing
    row: the position past the last row is outside the new row. *)
Lemma complete_matrix_full_diagonal (n : nat) matrix :
  matrix ≠ [] → length matrix = n → rectangular n matrix →
  (∀ (k : nat) row, matrix !! k = Some row → row !! k = Some true) →
  complete_matrix matrix = Raise IndexError.
Proof.
  intros Hne Hlen Hrect Hdiag. unfold complete_matrix.
  rewrite (find_missing_row_full matrix 0 (length matrix)) by done.
  cbn [mbind result_bind].
  destruct matrix as [|r0 matrix']; [done|].
  cbn [index lookup list_lookup mbind result_bind].
  pose proof (Forall_inv Hrect) as Hr0. simpl in Hr0.
  unfold assign. rewrite length_replicate, Hr0, Hlen.
  destruct (decide (n < n)%nat); [lia|done].
Qed.

(** X21: the row [complete_matrix] adds is linearly independent of the
    rows it was given: on the driver's matrix (N-1 independent rows of
    length N, converted) the completed matrix keeps every old row, is in
    echelon form, and its N rows are linearly independent. *)
Theorem complete_matrix_independent (N : nat) (matrix0 matrix : list (list bool)) :
  rectangular N matrix0 →
  convert_to_reduced_row_echelon_form matrix0 = Ok matrix →
  S (length matrix) = N →
  independent N matrix →
  ∃ right_hand_side completed,
    complete_matrix matrix = Ok (right_hand_side, completed)
    ∧ completed ≡ₚ right_hand_side :: matrix
    ∧ ¬ in_span N right_hand_side matrix
    ∧ independent N completed
    ∧ echelon completed = true.
Proof.
  intros Hrect0 Hconv HN Hind.
  destruct (complete_and_solve N matrix0 matrix Hrect0 Hconv HN Hind)
    as (i & Hi & _ & _ & Hcomplete & Hlen & Hdiag & _).
  destruct (convert_result N matrix0 matrix Hrect0 Hconv)
    as (_ & _ & Hrect & _ & _).
  set (completed := take i matrix ++ unit_row N i :: drop i matrix) in *.
  assert (completed ≡ₚ unit_row N i :: matrix) as Hperm.
  { unfold completed. rewrite <- Permutation_middle.
    by rewrite take_drop. }
  assert (rectangular N completed) as Hrc.
  { rewrite Hperm. constructor; [apply length_unit_row|done]. }
  assert (echelon completed = true) as Hech.
  { apply diagonal_echelon. intros k row Hk. by apply Hdiag. }
  assert (independent N completed) as Hindc.
  { apply (echelon_nonzero_independent N completed 0 Hrc Hech).
    apply Forall_lookup. intros k row Hk.
    destruct (Hdiag k row Hk) as [_ Hl]. by rewrite Hl. }
  exists (unit_row N i), completed.
  split; [exact Hcomplete|]. split; [exact Hperm|].
  split; [|done].
  rewrite Hperm in Hindc.
  by apply independent_cons in Hindc as [_ Hnot];
    [|apply length_unit_row|].
Qed.

Lemma complete_matrix_independent_witness :
  ∃ right_hand_side completed,
    complete_matrix [[true; true; false]; [false; false; true]]
    = Ok (right_hand_side, completed)
    ∧ completed
      ≡ₚ right_hand_side :: [[true; true; false]; [false; false; true]]
    ∧ ¬ in_span 3 right_hand_side [[true; true; false]; [false; false; true]]
    ∧ independent 3 completed
    ∧ echelon completed = true.
Proof.
  apply (complete_matrix_independent 3
           [[true; true; false]; [true; true; true]]).
  - repeat constructor.
  - reflexivity.
  - reflexivity.
  - apply (bool_decide_unpack (independent 3 _)). by vm_compute.
Defined.

(** X22: a matrix cannot be completed twice: after [complete_matrix] the
    diagonal is all 1, the scan finds no missing row, and writing the 1
    of the new row at position N of a row of N entries raises
    [IndexError]. *)
Theorem complete_matrix_twice (N : nat) (matrix0 matrix : list (list bool)) :
  rectangular N matrix0 →
  convert_to_reduced_row_echelon_form matrix0 = Ok matrix →
  S (length matrix) = N →
  independent N matrix →
  ∃ right_hand_side completed,
    complete_matrix matrix = Ok (right_hand_side, completed)
    ∧ complete_matrix completed = Raise IndexError.
Proof.
  intros Hrect0 Hconv HN Hind.
  destruct (complete_and_solve N matrix0 matrix Hrect0 Hconv HN Hind)
    as (i & Hi & _ & _ & Hcomplete & Hlen & Hdiag & _).
  destruct (convert_result N matrix0 matrix Hrect0 Hconv)
    as (_ & _ & Hrect & _ & _).
  eexists _, _. split; [exact Hcomplete|].
  apply (complete_matrix_full_diagonal N).
  - intros Hnil. rewrite Hnil in Hlen. simpl in Hlen. lia.
  - exact Hlen.
  - apply Forall_app. split; [by apply Forall_take|].
    constructor; [apply length_unit_row|by apply Forall_drop].
  - intros k row Hk. by destruct (Hdiag k row Hk).
Qed.

Lemma complete_matrix_twice_witness :
  ∃ right_hand_side completed,
    complete_matrix [[true; true; false]; [false; false; true]]
    = Ok (right_hand_side, completed)
    ∧ complete_matrix completed = Raise IndexError.
Proof.
  apply (complete_matrix_twice 3 [[true; true; false]; [true; true; true]]).
  - repeat constructor.
  - reflexivity.
  - reflexivity.
  - apply (bool_decide_unpack (independent 3 _)). by vm_compute.
Defined.

(** X23: back-substitution: on an N-by-N matrix whose every row has its
    first 1 on the diagonal, and any right-hand side of N entries,
    [solve_matrix] returns the one and only vector whose product with
    each row is the matching right-hand side entry. *)
Theorem solve_matrix_unique_solution (n : nat) matrix
    (right_hand_side : list bool) :
  length matrix = n → rectangular n matrix → length right_hand_side = n →
  (∀ (k : nat) row, matrix !! k = Some row → leading row = Some k) →
  ∃ secret_string,
    solve_matrix matrix right_hand_side = Ok secret_string
    ∧ length secret_string = n
    ∧ (∀ (k : nat) row,
         matrix !! k = Some row →
         Some (dot row secret_string) = right_hand_side !! k)
    ∧ ∀ s,
        length s = n →
        (∀ (k : nat) row,
           matrix !! k = Some row →
           Some (dot row s) = right_hand_side !! k) →
        s = secret_string.
Proof.
  intros Hm Hrect Hrhs Hdiag.
  destruct (solve_matrix_solution n matrix right_hand_side
              Hm Hrect Hrhs Hdiag) as (secret & Hsolve & Hlen & Hsol).
  exists secret. split; [done|]. split; [done|]. split; [done|].
  intros s Hs Hsol'.
  apply (triangular_unique n matrix s secret Hm Hs Hlen Hdiag).
  intros k row Hk.
  pose proof (Hsol k row Hk) as H1. pose proof (Hsol' k row Hk) as H2.
  rewrite <- H1 in H2. by injection H2.
Qed.

Lemma solve_matrix_unique_solution_witness :
  ∃ secret_string,
    solve_matrix [[true; true; false]; [false; true; true]; [false; false; true]]
      [false; true; true] = Ok secret_string
    ∧ length secret_string = 3%nat
    ∧ (∀ (k : nat) row,
         [[true; true; false]; [false; true; true]; [false; false; true]] !! k
         = Some row →
         Some (dot row secret_string) = [false; true; true] !! k)
    ∧ ∀ s,
        length s = 3%nat →
        (∀ (k : nat) row,
           [[true; true; false]; [false; true; true]; [false; false; true]]
             !! k = Some row →
           Some (dot row s) = [false; true; true] !! k) →
        s = secret_string.
Proof.
  apply (solve_matrix_unique_solution 3
           [[true; true; false]; [false; true; true]; [false; false; true]]
           [false; true; true]);
    [reflexivity | repeat constructor | reflexivity | ].
  intros [|[|[|k]]] row; simpl; intros [= <-]; reflexivity.
Defined.

(** X24: [solve_matrix] starts from the last row and reads the entry of
    the right-hand side at that index first: with a right-hand side
    shorter than the matrix it raises [IndexError]; on the empty matrix
    it returns the empty vector. *)
Theorem solve_matrix_short_right_hand_side matrix
    (right_hand_side : list bool) :
  (matrix ≠ [] → (length right_hand_side < length matrix)%nat →
   solve_matrix matrix right_hand_side = Raise IndexError)
  ∧ (matrix = [] → solve_matrix matrix right_hand_side = Ok []).
Proof.
  split; [|by intros ->].
  intros Hne Hshort. unfold solve_matrix.
  destruct (length matrix) as [|n] eqn:Hlen; [by destruct matrix|].
  rewrite seq_S, reverse_app. simpl.
  destruct (lookup_lt_is_Some_2 matrix n ltac:(lia)) as [row Hrow].
  rewrite (index_lookup _ _ _ Hrow). cbn [mbind result_bind].
  rewrite (index_None right_hand_side n) by lia. done.
Qed.

Lemma solve_matrix_short_right_hand_side_witness :
  solve_matrix [[true; false]; [false; true]] [true] = Raise IndexError.
Proof.
  apply (proj1 (solve_matrix_short_right_hand_side
                  [[true; false]; [false; true]] [true]));
    [discriminate | simpl; lia].
Defined.

End CompleteSolveMore.

(** ** What the Simon driver returns *)

Section SimonDriverMore.
Import MatrixMath GF2 SimonTests.

Variable simon_quantum_step : nat → list bool.
Variable run_function_in_classical_mode : list bool → list bool.
Variable ceil_log : QArith_base.Q → Z.

Implicit Types (r p v x s : list bool) (m rows valid : list (list bool)).

Local Abbreviation measured := (SimonTests.measured simon_quantum_step).
Local Abbreviation collected := (SimonTests.collected simon_quantum_step).

Lemma dot_zero_r r (w : nat) : dot r (zero w) = false.
Proof.
  unfold dot, zero. revert w.
  induction r as [|b r IH]; intros w; [done|].
  destruct w as [|w]; [done|]. simpl.
  rewrite andb_false_r. apply IH.
Qed.

Lemma dot_unit_row (w i : nat) s (b : bool) :
  (i < w)%nat → s !! i = Some b → dot (unit_row w i) s = b.
Proof.
  intros Hi Hs.
  rewrite (dot_leading (unit_row w i) i s b (leading_unit_row w i Hi) Hs).
  unfold unit_row, zero.
  rewrite drop_insert_lt by lia. rewrite drop_replicate.
  fold (zero (w - S i)). rewrite dot_zero. by destruct b.
Qed.

(** Every row kept by the accumulation is one of the measured strings,
    and every measured string is in the span of the rows kept. *)
Lemma accumulate_rectangular (n c : nat) :
  (∀ i, length (simon_quantum_step i) = n) →
  rectangular n (accumulate n [] (measured c)).
Proof.
  intros Hsteps. induction c as [|c IH]; [constructor|].
  rewrite accumulate_measured_S. destruct (decide _); [done|].
  apply Forall_app. split; [done|]. constructor; [apply Hsteps|done].
Qed.

Lemma accumulate_measured_only (n c : nat) row :
  row ∈ accumulate n [] (measured c) →
  ∃ k : nat, (k < c)%nat ∧ row = simon_quantum_step k.
Proof.
  induction c as [|c IH]; [by intros ?%elem_of_nil|].
  rewrite accumulate_measured_S. destruct (decide _).
  - intros (k & Hk & ->)%IH. exists k. split; [lia|done].
  - intros [(k & Hk & ->)%IH| ->%list_elem_of_singleton]%elem_of_app.
    + exists k. split; [lia|done].
    + exists c. split; [lia|done].
Qed.

Lemma measured_in_span (n c k : nat) :
  (∀ i, length (simon_quantum_step i) = n) →
  (k < c)%nat →
  in_span n (simon_quantum_step k) (accumulate n [] (measured c)).
Proof.
  intros Hsteps. induction c as [|c IH]; [lia|]. intros Hk.
  pose proof (accumulate_rectangular n c Hsteps) as Hrect.
  rewrite accumulate_measured_S.
  destruct (decide (k = c)) as [->|Hne].
  - destruct (decide _) as [Hin|_]; [done|].
    apply in_span_elem.
    + apply Forall_app. split; [done|]. constructor; [apply Hsteps|done].
    + apply elem_of_app. right. constructor.
  - destruct (decide _) as [_|_]; [apply IH; lia|].
    apply in_span_snoc_l; [done|apply Hsteps|apply Hsteps|apply IH; lia].
Qed.

(** What the driver computes once it has [N - 1] rows: a vector that is
    not zero, has product 0 with every row collected, and is the only
    such vector. *)
Lemma run_test_secret (n : nat) (extra_rounds : Z) valid (calls : nat) :
  collect_inputs simon_quantum_step (Z.of_nat n) extra_rounds
  = Ok (true, valid, calls) →
  S (length valid) = n →
  (∃ m0, rectangular n m0
         ∧ convert_to_reduced_row_echelon_form m0 = Ok valid) →
  independent n valid →
  ∃ secret_string,
    run_test_rounds simon_quantum_step run_function_in_classical_mode
      (Z.of_nat n) extra_rounds
    = Ok (if decide (run_function_in_classical_mode (zero n)
                     = run_function_in_classical_mode secret_string)
          then secret_string else zero n)
    ∧ length secret_string = n
    ∧ secret_string ≠ zero n
    ∧ Forall (λ row, dot row secret_string = false) valid
    ∧ ∀ s, length s = n →
           Forall (λ row, dot row s = false) valid →
           s = zero n ∨ s = secret_string.
Proof.
  intros Hrun Hlen (m0 & Hrect0 & Hconv) Hind.
  destruct (complete_and_solve n m0 valid Hrect0 Hconv Hlen Hind)
    as (i & Hi & _ & _ & Hcomplete & Hlc & Hdiag & secret & Hsolve & Hls
        & Hsol).
  set (completed := take i valid ++ unit_row n i :: drop i valid) in *.
  assert (∀ (j : nat) row, valid !! j = Some row →
            ∃ k : nat, k ≠ i ∧ completed !! k = Some row) as Hpos.
  { intros j row Hj. pose proof (lookup_lt_Some _ _ _ Hj) as Hjlen.
    destruct (decide (j < i)%nat) as [Hlt|Hge].
    - exists j. split; [lia|]. unfold completed.
      rewrite lookup_app_l by (rewrite length_take; lia).
      by rewrite lookup_take_lt.
    - exists (S j). split; [lia|]. unfold completed.
      rewrite lookup_app_r by (rewrite length_take; lia).
      rewrite length_take.
      replace (S j - i `min` length valid)%nat with (S (j - i)) by lia.
      simpl. rewrite lookup_drop. rewrite <- Hj. f_equal. lia. }
  assert (completed !! i = Some (unit_row n i)) as Hrowi.
  { unfold completed.
    rewrite lookup_app_r by (rewrite length_take; lia).
    rewrite length_take.
    by replace (i - i `min` length valid)%nat with 0%nat by lia. }
  assert (∀ s, length s = n →
               Forall (λ row, dot row s = false) valid →
               ∀ (k : nat) row, completed !! k = Some row → k ≠ i →
                                dot row s = false) as Hothers.
  { intros s Hs Hall k row Hk Hne.
    rewrite Forall_forall in Hall. apply Hall.
    unfold completed in Hk.
    destruct (decide (k < i)%nat) as [Hlt|Hge].
    - rewrite lookup_app_l in Hk by (rewrite length_take; lia).
      rewrite lookup_take_lt in Hk by done.
      by apply list_elem_of_lookup_2 in Hk.
    - rewrite lookup_app_r in Hk by (rewrite length_take; lia).
      rewrite length_take in Hk.
      destruct (k - i `min` length valid)%nat as [|t] eqn:Hki; [lia|].
      simpl in Hk. rewrite lookup_drop in Hk.
      by apply list_elem_of_lookup_2 in Hk. }
  assert (Forall (λ row, dot row secret = false) valid) as Horth.
  { apply Forall_lookup. intros j row Hj.
    destruct (Hpos j row Hj) as (k & Hne & Hk).
    rewrite (Hsol k row Hk). by apply bool_decide_eq_false_2. }
  assert (i < n)%nat as Hin by lia.
  destruct (lookup_lt_is_Some_2 secret i ltac:(lia)) as [si Hsi].
  assert (si = true) as ->.
  { rewrite <- (dot_unit_row n i secret si Hin Hsi).
    rewrite (Hsol i _ Hrowi). by apply bool_decide_eq_true_2. }
  exists secret.
  split.
  { unfold run_test_rounds. rewrite Hrun. cbn [mbind result_bind negb].
    rewrite Hcomplete. cbn [mbind result_bind].
    fold completed. rewrite Hsolve. cbn [mbind result_bind].
    rewrite Nat2Z.id. fold (zero n).
    by destruct (decide (_ = _)). }
  split; [exact Hls|].
  split.
  { intros Hz. rewrite Hz in Hsi. unfold zero in Hsi.
    by rewrite lookup_replicate_2 in Hsi by lia. }
  split; [exact Horth|].
  intros s Hs Hall.
  destruct (lookup_lt_is_Some_2 s i ltac:(lia)) as [b Hb].
  assert (∀ (k : nat) row, completed !! k = Some row → leading row = Some k)
    as Hlead by (intros k row Hk; by destruct (Hdiag k row Hk)).
  destruct b; [right|left].
  - apply (triangular_unique n completed s secret Hlc Hs Hls Hlead).
    intros k row Hk. rewrite (Hsol k row Hk).
    destruct (decide (k = i)) as [->|Hne].
    + rewrite Hrowi in Hk. injection Hk as <-.
      rewrite (dot_unit_row n i s true Hin Hb).
      by rewrite bool_decide_eq_true_2.
    + rewrite (Hothers s Hs Hall k row Hk Hne).
      by rewrite bool_decide_eq_false_2.
  - apply (triangular_unique n completed s (zero n) Hlc Hs
             (length_zero n) Hlead).
    intros k row Hk. rewrite dot_zero_r.
    destruct (decide (k = i)) as [->|Hne].
    + rewrite Hrowi in Hk. injection Hk as <-.
      apply (dot_unit_row n i s false Hin Hb).
    + by apply (Hothers s Hs Hall k row Hk Hne).
Qed.

(** The loop, when the budget holds [N - 1] independent strings. *)
Lemma collect_inputs_enough (n : nat) (extra_rounds : Z) :
  (2 ≤ n)%nat →
  (∀ i, length (simon_quantum_step i) = n) →
  (n ≤ S (length (accumulate n []
                    (measured (Z.to_nat (Z.of_nat n + extra_rounds))))))%nat →
  ∃ valid (calls : nat),
    collect_inputs simon_quantum_step (Z.of_nat n) extra_rounds
    = Ok (true, valid, calls)
    ∧ collected n calls valid
    ∧ S (length valid) = n
    ∧ ∃ m0, rectangular n m0
            ∧ convert_to_reduced_row_echelon_form m0 = Ok valid.
Proof.
  intros Hn Hsteps Henough.
  set (budget := Z.to_nat (Z.of_nat n + extra_rounds)) in *.
  destruct (collect_from simon_quantum_step n (Z.of_nat n) budget eq_refl
              Hn Hsteps 0 [] (collected_start simon_quantum_step n)
              ltac:(simpl; lia))
    as (found & valid & calls & Hrun & Hinv & Hcalls & _ & Ht & Hf).
  destruct found.
  - destruct (Ht eq_refl) as [Hlen Hm0].
    exists valid, calls. done.
  - exfalso. destruct (Hf eq_refl) as [-> Hshort].
    destruct Hinv as (_ & _ & _ & Hlen & _).
    rewrite Nat.add_0_l in Hlen. lia.
Qed.

(** What the driver returns after its loop is orthogonal to the strings
    measured. *)
Lemma run_test_rounds_orthogonal (n : nat) (extra_rounds : Z) :
  (2 ≤ n)%nat →
  (∀ i, length (simon_quantum_step i) = n) →
  ∃ (found_enough_strings : bool) valid_inputs (calls : nat),
    collect_inputs simon_quantum_step (Z.of_nat n) extra_rounds
    = Ok (found_enough_strings, valid_inputs, calls)
    ∧ ∀ secret,
        run_test_rounds simon_quantum_step run_function_in_classical_mode
          (Z.of_nat n) extra_rounds = Ok secret →
        length secret = n
        ∧ (secret = zero n
           ∨ (run_function_in_classical_mode (zero n)
              = run_function_in_classical_mode secret
              ∧ ∀ k : nat, (k < calls)%nat →
                           dot (simon_quantum_step k) secret = false)).
Proof.
  intros Hn Hsteps.
  set (budget := Z.to_nat (Z.of_nat n + extra_rounds)).
  destruct (collect_from simon_quantum_step n (Z.of_nat n) budget eq_refl
              Hn Hsteps 0 [] (collected_start simon_quantum_step n)
              ltac:(simpl; lia))
    as (found & valid & calls & Hrun & Hinv & Hcalls & _ & Ht & Hf).
  exists found, valid, calls. split; [exact Hrun|].
  intros secret Hret.
  destruct found.
  2:{ unfold run_test_rounds, collect_inputs in Hret. fold budget in Hret.
      rewrite Hrun in Hret. done. }
  destruct (Ht eq_refl) as [Hlen Hm0].
  pose proof Hinv as (Hrect & Hind & Hracc & _ & Hspan).
  destruct (run_test_secret n extra_rounds valid calls Hrun Hlen Hm0 Hind)
    as (s & Hret' & Hls & _ & Horth & _).
  rewrite Hret' in Hret. injection Hret as <-.
  destruct (decide _) as [Heq|_]; [|split; [apply length_zero|by left]].
  split; [exact Hls|]. right. split; [exact Heq|].
  intros k Hk.
  apply (span_orthogonal n s (simon_quantum_step k) valid Hrect Hls Horth).
  apply Hspan; [apply Hsteps|].
  by apply measured_in_span.
Qed.

(** X25: whenever [run_test] returns a string, it has [N] entries and is
    either all zeros or a string [S] on which the function takes the
    same value as on the zero string and whose product mod 2 with each
    of the strings measured is 0. *)
Theorem run_test_orthogonal (n : nat)
    (desired_success_chance : QArith_base.Q) :
  (2 ≤ n)%nat →
  (∀ i, length (simon_quantum_step i) = n) →
  ∃ (found_enough_strings : bool) valid_inputs (calls : nat),
    collect_inputs simon_quantum_step (Z.of_nat n)
      (ceil_log desired_success_chance)
    = Ok (found_enough_strings, valid_inputs, calls)
    ∧ ∀ secret,
        run_test simon_quantum_step run_function_in_classical_mode ceil_log
          (Z.of_nat n) desired_success_chance = Ok secret →
        length secret = n
        ∧ (secret = zero n
           ∨ (run_function_in_classical_mode (zero n)
              = run_function_in_classical_mode secret
              ∧ ∀ k : nat, (k < calls)%nat →
                           dot (simon_quantum_step k) secret = false)).
Proof.
  intros Hn Hsteps.
  destruct (run_test_rounds_orthogonal n (ceil_log desired_success_chance)
              Hn Hsteps) as (found & valid & calls & Hrun & Hret).
  exists found, valid, calls. split; [exact Hrun|].
  intros secret Hsecret. by apply Hret, run_test_returned.
Qed.

(** The driver returns the secret string of a two-to-one function. *)
Lemma run_test_returns_secret (n : nat) (extra_rounds : Z)
    (secret : list bool) :
  (2 ≤ n)%nat →
  (∀ i, length (simon_quantum_step i) = n) →
  length secret = n → secret ≠ zero n →
  (∀ i, dot (simon_quantum_step i) secret = false) →
  run_function_in_classical_mode (zero n)
  = run_function_in_classical_mode secret →
  (n ≤ S (length (accumulate n []
                    (measured (Z.to_nat (Z.of_nat n + extra_rounds))))))%nat →
  run_test_rounds simon_quantum_step run_function_in_classical_mode
    (Z.of_nat n) extra_rounds = Ok secret.
Proof.
  intros Hn Hsteps Hls Hnz Horth Hf Henough.
  destruct (collect_inputs_enough n extra_rounds Hn Hsteps Henough)
    as (valid & calls & Hrun & Hinv & Hlen & Hm0).
  pose proof Hinv as (Hrect & Hind & Hracc & _ & Hspan).
  destruct (run_test_secret n extra_rounds valid calls Hrun Hlen Hm0 Hind)
    as (s & Hret & _ & _ & _ & Huniq).
  assert (Forall (λ row, dot row secret = false) valid) as Hall.
  { apply Forall_forall. intros row Hin.
    apply (span_orthogonal n secret row
             (accumulate n [] (measured calls)) Hracc Hls).
    - apply Forall_forall. intros row' Hin'.
      apply accumulate_measured_only in Hin' as (k & _ & ->). apply Horth.
    - apply Hspan; [by apply (proj1 (Forall_forall _ _) Hrect)|].
      by apply in_span_elem. }
  destruct (Huniq secret Hls Hall) as [Hz| ->]; [done|].
  rewrite Hret. by destruct (decide _).
Qed.

(** The driver returns the zero string for a one-to-one function. *)
Lemma run_test_returns_zero (n : nat) (extra_rounds : Z) :
  (2 ≤ n)%nat →
  (∀ i, length (simon_quantum_step i) = n) →
  (∀ x, length x = n → x ≠ zero n →
        run_function_in_classical_mode x
        ≠ run_function_in_classical_mode (zero n)) →
  (n ≤ S (length (accumulate n []
                    (measured (Z.to_nat (Z.of_nat n + extra_rounds))))))%nat →
  run_test_rounds simon_quantum_step run_function_in_classical_mode
    (Z.of_nat n) extra_rounds = Ok (zero n).
Proof.
  intros Hn Hsteps Hinj Henough.
  destruct (collect_inputs_enough n extra_rounds Hn Hsteps Henough)
    as (valid & calls & Hrun & Hinv & Hlen & Hm0).
  pose proof Hinv as (_ & Hind & _).
  destruct (run_test_secret n extra_rounds valid calls Hrun Hlen Hm0 Hind)
    as (s & Hret & Hls & Hnz & _).
  rewrite Hret. destruct (decide _) as [Heq|_]; [|done].
  exfalso. by apply (Hinj s Hls Hnz).
Qed.

(** X26: Simon's post-processing is correct.  For a chance that the
    driver accepts (more than 0.5, less than 1) and the number of extra
    rounds it computes from it: if every measured string has product 0
    mod 2 with a string [S] of [N] entries that is not zero, the
    function takes the same value on [S] and on the zero string, and
    the budget holds [N - 1] linearly independent strings, then
    [run_test] returns [S]. *)
Theorem run_test_finds_secret (n : nat)
    (desired_success_chance : QArith_base.Q) (secret : list bool) :
  QArith_base.Qlt (QArith_base.Qmake 1 2) desired_success_chance →
  QArith_base.Qlt desired_success_chance (QArith_base.Qmake 1 1) →
  (2 ≤ n)%nat →
  (∀ i, length (simon_quantum_step i) = n) →
  length secret = n → secret ≠ zero n →
  (∀ i, dot (simon_quantum_step i) secret = false) →
  run_function_in_classical_mode (zero n)
  = run_function_in_classical_mode secret →
  (n ≤ S (length (accumulate n []
                    (measured
                       (Z.to_nat (Z.of_nat n
                                  + ceil_log desired_success_chance))))))%nat →
  run_test simon_quantum_step run_function_in_classical_mode ceil_log
    (Z.of_nat n) desired_success_chance = Ok secret.
Proof.
  intros Hlow Hhigh. rewrite (run_test_accepted _ _ _ _ _ Hlow Hhigh).
  apply run_test_returns_secret.
Qed.

(** X27: for a chance that the driver accepts and a function that takes
    the value it has on the zero string nowhere else, [run_test] returns
    the zero string whenever the budget holds [N - 1] linearly
    independent strings. *)
Theorem run_test_one_to_one (n : nat)
    (desired_success_chance : QArith_base.Q) :
  QArith_base.Qlt (QArith_base.Qmake 1 2) desired_success_chance →
  QArith_base.Qlt desired_success_chance (QArith_base.Qmake 1 1) →
  (2 ≤ n)%nat →
  (∀ i, length (simon_quantum_step i) = n) →
  (∀ x, length x = n → x ≠ zero n →
        run_function_in_classical_mode x
        ≠ run_function_in_classical_mode (zero n)) →
  (n ≤ S (length (accumulate n []
                    (measured
                       (Z.to_nat (Z.of_nat n
                                  + ceil_log desired_success_chance))))))%nat →
  run_test simon_quantum_step run_function_in_classical_mode ceil_log
    (Z.of_nat n) desired_success_chance = Ok (zero n).
Proof.
  intros Hlow Hhigh. rewrite (run_test_accepted _ _ _ _ _ Hlow Hhigh).
  apply run_test_returns_zero.
Qed.

End SimonDriverMore.

(** Two bits and the chance 0.75, for which the driver computes 2 extra
    rounds: the measurements are 00, then 11 for ever. *)
Lemma run_test_orthogonal_witness :
  ∃ (found_enough_strings : bool) valid_inputs (calls : nat),
    SimonTests.collect_inputs
      (λ i : nat, if decide (i = 0%nat) then [false; false] else [true; true])
      (Z.of_nat 2) 2
    = Ok (found_enough_strings, valid_inputs, calls)
    ∧ ∀ secret,
        SimonTests.run_test
          (λ i : nat, if decide (i = 0%nat) then [false; false] else [true; true])
          (λ x : list bool, x) (λ _, 2) (Z.of_nat 2) (QArith_base.Qmake 3 4)
        = Ok secret →
        length secret = 2%nat
        ∧ (secret = GF2.zero 2
           ∨ ((λ x : list bool, x) (GF2.zero 2) = (λ x : list bool, x) secret
              ∧ ∀ k : nat,
                  (k < calls)%nat →
                  GF2.dot
                    ((λ i : nat, if decide (i = 0%nat)
                                 then [false; false] else [true; true]) k)
                    secret = false)).
Proof.
  apply (run_test_orthogonal
           (λ i : nat, if decide (i = 0%nat) then [false; false] else [true; true])
           (λ x : list bool, x) (λ _, 2) 2 (QArith_base.Qmake 3 4)); [lia|].
  intros i. simpl. by destruct (decide (i = 0%nat)).
Defined.

(** The same chance and measurements, and a function with
    [f(00) = f(11)]: the driver returns 11. *)
Lemma run_test_finds_secret_witness :
  SimonTests.run_test
    (λ i : nat, if decide (i = 0%nat) then [false; false] else [true; true])
    (λ x : list bool, match x with
                      | [a; b] => [xorb a b]
                      | _ => []
                      end)
    (λ _, 2) (Z.of_nat 2) (QArith_base.Qmake 3 4)
  = Ok [true; true].
Proof.
  apply (run_test_finds_secret
           (λ i : nat, if decide (i = 0%nat) then [false; false] else [true; true])
           (λ x : list bool, match x with
                             | [a; b] => [xorb a b]
                             | _ => []
                             end)
           (λ _, 2) 2 (QArith_base.Qmake 3 4) [true; true]).
  - reflexivity.
  - reflexivity.
  - lia.
  - intros i. simpl. by destruct (decide (i = 0%nat)).
  - reflexivity.
  - discriminate.
  - intros i. simpl. by destruct (decide (i = 0%nat)).
  - reflexivity.
  - vm_compute. lia.
Defined.

(** The identity function, the chance 0.75, and 10 measured every time:
    the driver returns 00. *)
Lemma run_test_one_to_one_witness :
  SimonTests.run_test (λ _ : nat, [true; false]) (λ x : list bool, x)
    (λ _, 2) (Z.of_nat 2) (QArith_base.Qmake 3 4)
  = Ok (GF2.zero 2).
Proof.
  apply (run_test_one_to_one (λ _ : nat, [true; false])
           (λ x : list bool, x) (λ _, 2) 2 (QArith_base.Qmake 3 4)).
  - reflexivity.
  - reflexivity.
  - lia.
  - reflexivity.
  - intros x _ Hx. exact Hx.
  - vm_compute. lia.
Defined.

(** ** The test oracles, run on classical inputs *)

Section OraclesClassical.
Import Simon.

Implicit Types (x : list bool) (st : state).

Local Abbreviation input_register n := (InputQubit <$> seq 0 n).
Local Abbreviation output_register n := (OutputQubit <$> seq 0 n).
Local Abbreviation bit x i := (default false (x !! i)).

Lemma execute_snoc (program : program) (g : gate) st :
  execute (program ++ [g]) st = apply_gate (execute program st) g.
Proof. unfold execute. by rewrite foldl_app. Qed.

Lemma qubit_at_input (n i : nat) :
  (i < n)%nat → qubit_at (input_register n) i = Done (InputQubit i).
Proof.
  intros Hi. unfold qubit_at.
  by rewrite list_lookup_fmap, lookup_seq_lt.
Qed.

Lemma qubit_at_output (n i : nat) :
  (i < n)%nat → qubit_at (output_register n) i = Done (OutputQubit i).
Proof.
  intros Hi. unfold qubit_at.
  by rewrite list_lookup_fmap, lookup_seq_lt.
Qed.

Lemma add_cnot_registers (n : nat) (program : program) (i o : nat) :
  (i < n)%nat → (o < n)%nat →
  add_cnot program (input_register n) (output_register n) i o
  = Done (program ++ [CNOT (InputQubit i) (OutputQubit o)]).
Proof.
  intros Hi Ho. unfold add_cnot.
  rewrite qubit_at_input by done. cbn [mbind outcome_bind].
  rewrite qubit_at_output by done. done.
Qed.

(** After the preparation the input register holds the input and the
    output register is all 0. *)
Lemma prepare_state x (m : nat) :
  ∀ (k : nat) (program : program),
    (k + m)%nat = length x →
    (∀ i, execute program (λ _, false) (InputQubit i)
          = if decide (i < k)%nat then bit x i else false) →
    (∀ o, execute program (λ _, false) (OutputQubit o) = false) →
    ∃ program',
      prepare (seq k m) program x (input_register (length x)) = Done program'
      ∧ (∀ i, execute program' (λ _, false) (InputQubit i) = bit x i)
      ∧ (∀ o, execute program' (λ _, false) (OutputQubit o) = false).
Proof.
  induction m as [|m IH]; intros k program Hk Hin Hout.
  - exists program. split; [done|]. split; [|done].
    intros i. rewrite Hin. destruct (decide (i < k)%nat); [done|].
    by rewrite lookup_ge_None_2 by lia.
  - cbn [seq prepare].
    destruct (lookup_lt_is_Some_2 x k ltac:(lia)) as [b Hb]. rewrite Hb.
    destruct b.
    + rewrite qubit_at_input by lia. cbn [mbind outcome_bind].
      apply IH; [lia| |].
      * intros i. rewrite execute_snoc. cbn [apply_gate]. unfold flip.
        destruct (decide (InputQubit i = InputQubit k)) as [[= ->]|Hne].
        -- rewrite Hin. destruct (decide (k < k)%nat); [lia|].
           destruct (decide (k < S k)%nat); [|lia]. by rewrite Hb.
        -- rewrite Hin.
           destruct (decide (i < k)%nat), (decide (i < S k)%nat);
             try done; try lia.
           assert (i = k) as -> by lia. done.
      * intros o. rewrite execute_snoc. cbn [apply_gate]. unfold flip.
        destruct (decide (OutputQubit o = InputQubit k)); [done|].
        apply Hout.
    + apply IH; [lia| |done].
      intros i. rewrite Hin.
      destruct (decide (i < k)%nat), (decide (i < S k)%nat);
        try done; try lia.
      assert (i = k) as -> by lia. by rewrite Hb.
Qed.

Lemma cnot_input (program : program) (c t i : nat) st :
  execute (program ++ [CNOT (InputQubit c) (OutputQubit t)]) st (InputQubit i)
  = execute program st (InputQubit i).
Proof. rewrite execute_snoc. cbn [apply_gate]. unfold flip. done. Qed.

Lemma cnot_output (program : program) (c t o : nat) st :
  execute (program ++ [CNOT (InputQubit c) (OutputQubit t)]) st (OutputQubit o)
  = if decide (o = t)
    then xorb (execute program st (OutputQubit o))
              (execute program st (InputQubit c))
    else execute program st (OutputQubit o).
Proof.
  rewrite execute_snoc. cbn [apply_gate]. unfold flip.
  destruct (decide (OutputQubit o = OutputQubit t)) as [[= ->]|Hne].
  - by destruct (decide (t = t)).
  - destruct (decide (o = t)) as [->|]; done.
Qed.

(** The three loops, by the state they leave. *)
Lemma identity_loop_state x (m : nat) :
  ∀ (k : nat) (program : program),
    (k + m)%nat = length x →
    (∀ i, execute program (λ _, false) (InputQubit i) = bit x i) →
    (∀ o, execute program (λ _, false) (OutputQubit o)
          = if decide (o < k)%nat then bit x o else false) →
    ∃ program',
      identity_loop (seq k m) program
        (input_register (length x)) (output_register (length x))
      = Done program'
      ∧ ∀ o, execute program' (λ _, false) (OutputQubit o) = bit x o.
Proof.
  induction m as [|m IH]; intros k program Hk Hin Hout.
  - exists program. split; [done|].
    intros o. rewrite Hout. destruct (decide (o < k)%nat); [done|].
    by rewrite lookup_ge_None_2 by lia.
  - cbn [seq identity_loop].
    rewrite add_cnot_registers by lia. cbn [mbind outcome_bind].
    apply IH; [lia| |].
    + intros i. by rewrite cnot_input.
    + intros o. rewrite cnot_output, Hout, Hin.
      destruct (decide (o = k)) as [->|Hne].
      * destruct (decide (k < k)%nat); [lia|].
        destruct (decide (k < S k)%nat); [|lia]. done.
      * destruct (decide (o < k)%nat), (decide (o < S k)%nat);
          try done; lia.
Qed.

Lemma left_shift_loop_state x (m : nat) :
  ∀ (k : nat) (program : program),
    (1 ≤ k)%nat → (k + m)%nat = length x →
    (∀ i, execute program (λ _, false) (InputQubit i) = bit x i) →
    (∀ o, execute program (λ _, false) (OutputQubit o)
          = if decide (S o < k)%nat then bit x (S o) else false) →
    ∃ program',
      left_shift_loop (seq k m) program
        (input_register (length x)) (output_register (length x)) 1
      = Done program'
      ∧ ∀ o, execute program' (λ _, false) (OutputQubit o) = bit x (S o).
Proof.
  induction m as [|m IH]; intros k program Hk1 Hk Hin Hout.
  - exists program. split; [done|].
    intros o. rewrite Hout. destruct (decide (S o < k)%nat); [done|].
    by rewrite lookup_ge_None_2 by lia.
  - cbn [seq left_shift_loop].
    rewrite add_cnot_registers by lia. cbn [mbind outcome_bind].
    apply IH; [lia|lia| |].
    + intros i. by rewrite cnot_input.
    + intros o. rewrite cnot_output, Hout, Hin.
      destruct (decide (o = (k - 1)%nat)) as [->|Hne].
      * destruct (decide (S (k - 1) < k)%nat); [lia|].
        destruct (decide (S (k - 1) < S k)%nat); [|lia].
        replace (S (k - 1)) with k by lia. done.
      * destruct (decide (S o < k)%nat), (decide (S o < S k)%nat);
          try done; lia.
Qed.

Lemma right_shift_loop_state x (m : nat) :
  ∀ (k : nat) (program : program),
    (k + m + 1)%nat = length x →
    (∀ i, execute program (λ _, false) (InputQubit i) = bit x i) →
    (∀ o, execute program (λ _, false) (OutputQubit o)
          = match o with
            | O => false
            | S i => if decide (i < k)%nat then bit x i else false
            end) →
    ∃ program',
      right_shift_loop (seq k m) program
        (input_register (length x)) (output_register (length x)) 1
      = Done program'
      ∧ ∀ o, execute program' (λ _, false) (OutputQubit o)
             = match o with
               | O => false
               | S i => if decide (i < k + m)%nat then bit x i else false
               end.
Proof.
  induction m as [|m IH]; intros k program Hk Hin Hout.
  - exists program. split; [done|].
    intros o. rewrite Hout. rewrite Nat.add_0_r. done.
  - cbn [seq right_shift_loop].
    rewrite add_cnot_registers by lia. cbn [mbind outcome_bind].
    destruct (IH (S k) (program ++ [CNOT (InputQubit k) (OutputQubit (k + 1))]))
      as (program' & Hrun & Hstate); [lia| | |].
    + intros i. by rewrite cnot_input.
    + intros o. rewrite cnot_output, Hout, Hin.
      destruct (decide (o = (k + 1)%nat)) as [->|Hne].
      * replace (k + 1)%nat with (S k) by lia.
        destruct (decide (k < k)%nat); [lia|].
        destruct (decide (k < S k)%nat); [|lia]. done.
      * destruct o as [|i]; [done|].
        destruct (decide (i < k)%nat), (decide (i < S k)%nat);
          try done; lia.
    + exists program'. split; [exact Hrun|].
      intros o. rewrite Hstate. destruct o as [|i]; [done|].
      destruct (decide (i < S k + m)%nat), (decide (i < k + S m)%nat);
        try done; lia.
Qed.

Lemma measure_identity x :
  (λ i, bit x i) <$> seq 0 (length x) = x.
Proof.
  apply list_eq. intros i. rewrite list_lookup_fmap.
  destruct (decide (i < length x)%nat) as [Hi|Hi].
  - rewrite lookup_seq_lt by done. simpl.
    by destruct (lookup_lt_is_Some_2 x i Hi) as [b ->].
  - rewrite lookup_seq_ge by lia. by rewrite lookup_ge_None_2 by lia.
Qed.

Lemma prepare_input x :
  ∃ program,
    prepare (seq 0 (length x)) [] x (input_register (length x)) = Done program
    ∧ (∀ i, execute program (λ _, false) (InputQubit i) = bit x i)
    ∧ (∀ o, execute program (λ _, false) (OutputQubit o) = false).
Proof.
  apply (prepare_state x (length x) 0 []); [done| |done].
  intros i. destruct (decide (i < 0)%nat); [lia|done].
Qed.

Lemma identity_classical x :
  run_function_in_classical_mode identity x = Done x.
Proof.
  unfold run_function_in_classical_mode.
  destruct (prepare_input x) as (program & -> & Hin & Hout).
  cbn [mbind outcome_bind]. unfold identity.
  rewrite length_fmap, length_seq.
  destruct (identity_loop_state x (length x) 0 program eq_refl Hin)
    as (program' & -> & Hstate).
  { intros o. rewrite Hout. destruct (decide (o < 0)%nat); [lia|done]. }
  cbn [mbind outcome_bind]. f_equal.
  etrans; [|apply (measure_identity x)].
  apply list_fmap_ext. intros _ o _. apply Hstate.
Qed.

Lemma left_shift_classical (b : bool) rest :
  run_function_in_classical_mode left_shift_by_1 (b :: rest)
  = Done (rest ++ [false]).
Proof.
  unfold run_function_in_classical_mode.
  destruct (prepare_input (b :: rest)) as (program & -> & Hin & Hout).
  cbn [mbind outcome_bind]. unfold left_shift_by_1, left_shift.
  rewrite !length_fmap, !length_seq, Nat.eqb_refl. cbn [negb].
  destruct (left_shift_loop_state (b :: rest) (length rest) 1 program
              ltac:(lia) eq_refl Hin)
    as (program' & Hrun & Hstate).
  { intros o. rewrite Hout. destruct (decide (S o < 1)%nat); [lia|done]. }
  replace (length (b :: rest) - 1)%nat with (length rest)
    by (simpl; lia).
  rewrite Hrun. cbn [mbind outcome_bind]. f_equal.
  apply list_eq. intros i. rewrite list_lookup_fmap.
  destruct (decide (i < length (b :: rest))%nat) as [Hi|Hi].
  - rewrite lookup_seq_lt by done. simpl. rewrite Hstate. simpl.
    simpl in Hi.
    destruct (decide (i < length rest)%nat) as [Hlt|Hge].
    + rewrite lookup_app_l by done.
      by destruct (lookup_lt_is_Some_2 rest i Hlt) as [b' ->].
    + rewrite lookup_app_r by lia.
      replace (i - length rest)%nat with 0%nat by lia.
      by rewrite lookup_ge_None_2 by lia.
  - rewrite lookup_seq_ge by lia. simpl in Hi. simpl.
    rewrite lookup_ge_None_2; [done|].
    rewrite length_app. simpl. lia.
Qed.

Lemma right_shift_classical (b : bool) rest :
  run_function_in_classical_mode right_shift_by_1 (rest ++ [b])
  = Done (false :: rest).
Proof.
  unfold run_function_in_classical_mode.
  destruct (prepare_input (rest ++ [b])) as (program & -> & Hin & Hout).
  cbn [mbind outcome_bind]. unfold right_shift_by_1, right_shift.
  rewrite !length_fmap, !length_seq, Nat.eqb_refl. cbn [negb].
  assert (length (rest ++ [b]) = S (length rest)) as Hlen
    by (rewrite length_app; simpl; lia).
  destruct (right_shift_loop_state (rest ++ [b]) (length rest) 0 program
              ltac:(lia) Hin)
    as (program' & Hrun & Hstate).
  { intros o. rewrite Hout. destruct o as [|i]; [done|].
    destruct (decide (i < 0)%nat); [lia|done]. }
  replace (length (rest ++ [b]) - 1)%nat with (length rest) by lia.
  rewrite Hrun. cbn [mbind outcome_bind]. f_equal.
  rewrite Hlen. cbn [seq fmap list_fmap]. rewrite Hstate. f_equal.
  rewrite <- fmap_S_seq, <- list_fmap_compose.
  etrans; [|apply (measure_identity rest)].
  apply list_fmap_ext. intros j i [-> Hj]%lookup_seq. simpl.
  rewrite Hstate. destruct (decide (j < 0 + length rest)%nat); [|lia].
  by rewrite lookup_app_l by lia.
Qed.

Lemma wiki_classical (a b c : bool) :
  run_function_in_classical_mode wiki_test_function [a; b; c]
  = Done [xorb (negb a) (xorb b c); c; xorb (negb a) (xorb b c) && negb c].
Proof. by destruct a, b, c. Qed.

(** X28: run classically on a register of at least one bit, the three
    shift oracles of the tests compute what their names say and never
    fail: [identity] returns its input, [left_shift_by_1] drops the
    first bit and appends a 0, and [right_shift_by_1] drops the last bit
    and puts a 0 in front.  So the left shift takes the same value on
    two inputs that differ in the first bit only, and the right shift on
    two inputs that differ in the last bit only. *)
Theorem shift_oracles_classical :
  (∀ (b : bool) rest,
     run_function_in_classical_mode identity (b :: rest) = Done (b :: rest))
  ∧ (∀ (b : bool) rest,
       run_function_in_classical_mode left_shift_by_1 (b :: rest)
       = Done (rest ++ [false]))
  ∧ (∀ (b : bool) rest,
       run_function_in_classical_mode right_shift_by_1 (rest ++ [b])
       = Done (false :: rest)).
Proof.
  split; [intros b rest; apply identity_classical|].
  split; [exact left_shift_classical|exact right_shift_classical].
Qed.

(** X29: run classically on three bits, [wiki_test_function] computes the
    second table of the header comment of simon.py: it is two-to-one,
    and two inputs have the same output exactly when they are equal or
    differ by the string 110; on fewer than three bits it raises
    [IndexError]. *)
Theorem wiki_test_function_table :
  (∀ a b c : bool,
     run_function_in_classical_mode wiki_test_function [a; b; c]
     = Done [xorb (negb a) (xorb b c); c;
             xorb (negb a) (xorb b c) && negb c])
  ∧ (∀ x y,
       length x = 3%nat → length y = 3%nat →
       run_function_in_classical_mode wiki_test_function x
       = run_function_in_classical_mode wiki_test_function y
       ↔ y = x ∨ y = GF2.xor_row x [true; true; false])
  ∧ (∀ x,
       (length x < 3)%nat →
       run_function_in_classical_mode wiki_test_function x
       = Failed RegisterIndexError).
Proof.
  split; [exact wiki_classical|split].
  - intros [|a [|b [|c [|? ?]]]] [|a' [|b' [|c' [|? ?]]]] Hx Hy; try done.
    rewrite !wiki_classical.
    destruct a, b, c, a', b', c'; vm_compute;
      (split; [intros [= ]; auto | intros [[= ]|[= ]]; done]).
  - intros [|a [|b [|c ?]]] Hx; simpl in Hx; try lia.
    + done.
    + by destruct a.
    + by destruct a, b.
Qed.

End OraclesClassical.

(** ** The Simon test cases *)

Section SimonTestCasesPass.
Import MatrixMath GF2 SimonTests SimonTestCases.

Variable simon_quantum_step : nat → list bool.
Variable ceil_log : QArith_base.Q → Z.

Local Abbreviation extra_rounds := (ceil_log chance_99).

Local Abbreviation measured := (SimonTests.measured simon_quantum_step).

Lemma unit_row_first (n : nat) : unit_row (S n) 0 = true :: zero n.
Proof. reflexivity. Qed.

Lemma zero_last (n : nat) : zero (S n) = zero n ++ [false].
Proof. unfold zero. apply replicate_S_end. Qed.

Lemma unit_row_last (n : nat) : unit_row (S n) n = zero n ++ [true].
Proof.
  unfold unit_row. rewrite zero_last.
  replace n with (length (zero n) + 0)%nat at 1
    by (rewrite length_zero; lia).
  by rewrite insert_app_r.
Qed.

Lemma unit_row_not_zero (n i : nat) : (i < n)%nat → unit_row n i ≠ zero n.
Proof.
  intros Hi Heq.
  assert (unit_row n i !! i = Some true) as Hu.
  { unfold unit_row. apply list_lookup_insert_eq. by rewrite length_zero. }
  rewrite Heq in Hu. unfold zero in Hu.
  by rewrite lookup_replicate_2 in Hu.
Qed.

Lemma assertEqual_refl (answer : list bool) : assertEqual answer answer = Ok tt.
Proof. unfold assertEqual. by destruct (decide (answer = answer)). Qed.

(** The tests ask for a chance that the driver accepts. *)
Lemma run_test_chance_99 (function : list bool → list bool)
    (input_size : Z) :
  run_test simon_quantum_step function ceil_log input_size chance_99
  = run_test_rounds simon_quantum_step function input_size extra_rounds.
Proof. by apply run_test_accepted. Qed.

(** X30: the test cases of simon_tests.py pass whenever the quantum step
    does what the algorithm expects of it.  With [extra_rounds] the
    number of extra rounds the driver computes for the chance 0.99 the
    tests ask for, and for a register of [N >= 2] bits: if the
    [N + extra_rounds] strings the quantum step returns
    contain [N - 1] linearly independent ones, then [identity_test]
    passes; [left_shift_test] passes if moreover every string measured
    has product 0 mod 2 with the expected answer 10...0;
    [right_shift_test] if it has product 0 with 0...01; and, for
    [N = 3], [test_wiki_example] if it has product 0 with 110. *)
Theorem simon_test_cases_pass (n : nat) :
  (2 ≤ n)%nat →
  (∀ i, length (simon_quantum_step i) = n) →
  (n ≤ S (length (accumulate n []
                    (measured (Z.to_nat (Z.of_nat n + extra_rounds))))))%nat →
  identity_test simon_quantum_step ceil_log (Z.of_nat n) = Ok tt
  ∧ ((∀ i, dot (simon_quantum_step i) (unit_row n 0) = false) →
     left_shift_test simon_quantum_step ceil_log (Z.of_nat n) = Ok tt)
  ∧ ((∀ i, dot (simon_quantum_step i) (unit_row n (n - 1)) = false) →
     right_shift_test simon_quantum_step ceil_log (Z.of_nat n) = Ok tt)
  ∧ (n = 3%nat →
     (∀ i, dot (simon_quantum_step i) [true; true; false] = false) →
     test_wiki_example simon_quantum_step ceil_log = Ok tt).
Proof.
  intros Hn Hsteps Henough.
  split; [|split; [|split]].
  - unfold identity_test. rewrite Nat2Z.id, run_test_chance_99.
    rewrite (run_test_returns_zero simon_quantum_step
               (classical_mode Simon.identity) n extra_rounds
               Hn Hsteps); [apply assertEqual_refl| |done].
    intros x _ Hx. unfold classical_mode.
    by rewrite !identity_classical.
  - intros Horth. unfold left_shift_test. rewrite Nat2Z.id.
    rewrite assign_lt by (rewrite length_replicate; lia).
    cbn [mbind result_bind]. fold (zero n). fold (unit_row n 0).
    rewrite run_test_chance_99.
    rewrite (run_test_returns_secret simon_quantum_step
               (classical_mode Simon.left_shift_by_1) n extra_rounds
               (unit_row n 0) Hn Hsteps (length_unit_row n 0)
               (unit_row_not_zero n 0 ltac:(lia)) Horth);
      [apply assertEqual_refl| |done].
    destruct n as [|n']; [lia|].
    rewrite unit_row_first. unfold classical_mode.
    change (zero (S n')) with (false :: zero n').
    by rewrite !left_shift_classical.
  - intros Horth. unfold right_shift_test. rewrite Nat2Z.id.
    rewrite length_replicate.
    rewrite assign_lt by (rewrite length_replicate; lia).
    cbn [mbind result_bind]. fold (zero n). fold (unit_row n (n - 1)).
    rewrite run_test_chance_99.
    rewrite (run_test_returns_secret simon_quantum_step
               (classical_mode Simon.right_shift_by_1) n extra_rounds
               (unit_row n (n - 1)) Hn Hsteps (length_unit_row n (n - 1))
               (unit_row_not_zero n (n - 1) ltac:(lia)) Horth);
      [apply assertEqual_refl| |done].
    destruct n as [|n']; [lia|].
    replace (S n' - 1)%nat with n' by lia.
    rewrite unit_row_last, zero_last. unfold classical_mode.
    by rewrite !right_shift_classical.
  - intros -> Horth. unfold test_wiki_example.
    rewrite run_test_chance_99. change 3 with (Z.of_nat 3).
    rewrite (run_test_returns_secret simon_quantum_step
               (classical_mode Simon.wiki_test_function) 3 extra_rounds
               [true; true; false] Hn Hsteps eq_refl ltac:(discriminate)
               Horth);
      [apply assertEqual_refl|reflexivity|done].
Qed.

End SimonTestCasesPass.

(** Three bits, the 7 extra rounds that the driver computes for 0.99,
    and the measurements 001, 110, 001, 110, ...: the strings have
    product 0 with 110, and two of them are independent. *)
Lemma simon_test_cases_pass_witness :
  SimonTestCases.test_wiki_example
    (λ i : nat, if Nat.even i then [false; false; true] else [true; true; false])
    (λ _, 7) = Ok tt.
Proof.
  apply (simon_test_cases_pass
           (λ i : nat, if Nat.even i then [false; false; true]
                       else [true; true; false]) (λ _, 7) 3).
  - lia.
  - intros i. by destruct (Nat.even i).
  - vm_compute. lia.
  - reflexivity.
  - intros i. by destruct (Nat.even i).
Defined.
